(** * A shallow embedding of the disruptor queue (dq::disruptor_queue)

    The development follows the layout of the C++ sources.

    Part I, the program:
    - [Machine]: the fixed-width integer types the code computes with
      ([std::size_t], [int], [int64_t]) as [Z] with the wrap-around
      written out, and the unchecked array accesses;
    - [BitUtils]: bit_utils.hpp ([ceil_to_power_of_two],
      [is_power_of_two], [mod_power_of_two]);
    - [Queue]: disruptor_queue.hpp, once as sequential functions (one
      per member function, busy-wait loops with fuel) and once as an
      interleaving machine whose steps are the individual accesses to
      the shared atomics and to the payload slots, together with the
      vocabulary for traces and the invariants of a running queue;
    - [Examples]: two concrete runs;
    - [Revisions]: where the earlier revisions of the header differ;
    - [Creation]: the set-up calls in any order;
    - [Calls]: what a call leaves behind;
    - [Transitions]: the steps of the interleaving machine as a
      relation, threads running alone, and more of what holds of a
      running queue;
    - [Scenarios]: more concrete runs;
    - [FirstRevision]: the first revision of the header, which
      publishes through one counter.

    Part II, the properties, module by module.

    The header is embedded in its latest revision, the one with
    [static_assert]s on the capacity, per-slot sequences and the two
    [read] overloads.  The interleaving machine is sequentially
    consistent: the acquire/release annotations of the atomics are not
    modelled, and an access to a payload slot is one step. *)

From Stdlib Require Import ZArith Lia Bool List.
From stdpp Require Import base tactics option list numbers.

Local Open Scope Z_scope.

(** * Part I: the program *)

(** ** Fixed-width integers *)

Module Machine.

(** [std::size_t]: 64-bit unsigned. *)
Definition SIZE_MAX : Z := 2 ^ 64 - 1.
Definition to_size_t (z : Z) : Z := z mod 2 ^ 64.
Definition is_size_t (z : Z) : Prop := 0 <= z <= SIZE_MAX.

(** [int]: 32-bit two's complement. *)
Definition INT_MIN : Z := - 2 ^ 31.
Definition INT_MAX : Z := 2 ^ 31 - 1.
Definition to_int (z : Z) : Z := (z + 2 ^ 31) mod 2 ^ 32 - 2 ^ 31.
Definition fits_int (z : Z) : bool := (INT_MIN <=? z) && (z <=? INT_MAX).

(** [int64_t] (the queue's [sequence_type]): 64-bit two's complement.
    The atomic fetch-add wraps around; plain signed arithmetic that
    overflows, undefined in C++, is given the same wrap-around.  The
    statements about running queues are about runs without any of it. *)
Definition INT64_MIN : Z := - 2 ^ 63.
Definition INT64_MAX : Z := 2 ^ 63 - 1.
Definition to_int64 (z : Z) : Z := (z + 2 ^ 63) mod 2 ^ 64 - 2 ^ 63.

(** [a << count] on [int]: undefined for a count outside [0, 32); the
    mathematical result is otherwise reduced to the 32-bit
    representation (so [1 << 31] is [INT_MIN]). *)
Definition int_shl (a count : Z) : option Z :=
  if (0 <=? count) && (count <? 32) then Some (to_int (a * 2 ^ count))
  else None.

(** [a[i]] and [a[i] = x] on a [std::array]: no bounds check in the
    source, an index outside the array is undefined ([None]). *)
Definition array_load {A : Type} (a : list A) (i : Z) : option A :=
  if 0 <=? i then a !! Z.to_nat i else None.

Definition array_store {A : Type} (a : list A) (i : Z) (x : A)
  : option (list A) :=
  if (0 <=? i) && (i <? Z.of_nat (length a))
  then Some (<[Z.to_nat i := x]> a) else None.

End Machine.

(** ** bit_utils.hpp *)

Module BitUtils.
Import Machine.

(** [MAX_POWER = max - (max >> 1)], the high bit of [std::size_t]. *)
Definition MAX_POWER : Z := SIZE_MAX - Z.shiftr SIZE_MAX 1.

(** [ceil_to_power_of_two(original, current_bit)].  The literal [1] in
    [1 << current_bit] is an [int]: the shift is a 32-bit shift whose
    result is converted to [std::size_t] afterwards.  [None] stands
    for a shift with undefined behaviour, or for exhausted fuel. *)
Fixpoint ceil_to_power_of_two_from (fuel : nat) (original current_bit : Z)
  : option Z :=
  if original >? MAX_POWER then Some MAX_POWER
  else
    match int_shl 1 current_bit with
    | None => None
    | Some shifted =>
        let current_power := to_size_t shifted in
        if (current_power >=? original) || (current_bit =? MAX_POWER)
        then Some current_power
        else
          match fuel with
          | O => None
          | S fuel' =>
              ceil_to_power_of_two_from fuel' original
                (to_size_t (current_bit + 1))
          end
    end.

(** The entry point, with the default argument [current_bit = 0]. *)
Definition ceil_to_power_of_two (original : Z) : option Z :=
  ceil_to_power_of_two_from 64 original 0.

(** [is_power_of_two<std::size_t>]; [&&] short-circuits, so
    [number - 1] is only computed for a non-zero [number]. *)
Definition is_power_of_two (number : Z) : bool :=
  negb (number =? 0) && (Z.land number (to_size_t (number - 1)) =? 0).

(** [is_power_of_two<int>], as instantiated by the [static_assert] of
    [mod_power_of_two]. *)
Definition is_power_of_two_int (number : Z) : bool :=
  negb (number =? 0) && (Z.land number (to_int (number - 1)) =? 0).

(** [mod_power_of_two<DIVISOR>(dividend)] on [int] operands. *)
Definition mod_power_of_two (DIVISOR dividend : Z) : Z :=
  Z.land dividend (DIVISOR - 1).

(** A use [mod_power_of_two<D>] with a constant [D] of a wider type is
    accepted only when [D] is representable in the [int] template
    parameter (a narrowing conversion of a template argument is
    ill-formed) and the [static_assert] holds. *)
Definition mod_power_of_two_instantiable (D : Z) : bool :=
  fits_int D && is_power_of_two_int D.

(** The mathematical notion the helpers are named after. *)
Definition power_of_two (n : Z) : Prop := exists k, 0 <= k /\ n = 2 ^ k.

End BitUtils.

(** ** disruptor_queue.hpp *)

Module Queue.
Import Machine BitUtils.

(** [sequence_type] is [int64_t]; [-1] marks "nothing published,
    nothing consumed". *)
Definition INITIAL_SEQUENCE : Z := -1.

(** The two [static_assert]s on [CAPACITY] at the head of the class
    template: instantiation is rejected when they fail. *)
Definition static_assertions (CAPACITY : Z) : bool :=
  (CAPACITY >? 0) && is_power_of_two CAPACITY.

(** [index_from_sequence] and with it [write] and [read] use
    [mod_power_of_two<CAPACITY>]: the endpoints exist only for a
    capacity that this template accepts as well. *)
Definition valid_capacity (CAPACITY : Z) : bool :=
  static_assertions CAPACITY && mod_power_of_two_instantiable CAPACITY.

Section DisruptorQueue.

Context {T : Type}.

(** [T{}], the value of a value-initialised slot of [_buffer]. *)
Variable value_init : T.

Variable CAPACITY : Z.

(** *** The shared object

    The readers and writers are kept in the order of their creation;
    a reader is represented by its [_consumer_sequence], a writer by its
    [_cached_min_consumer_sequence], and a handle is the position in
    the deque. *)
Record disruptor_queue : Type := {
  _buffer : list T;
  _slot_sequences : list Z;
  _next_sequence : Z;
  _readers : list Z;
  _writers : list Z
}.

Definition set_buffer (q : disruptor_queue) (b : list T) : disruptor_queue :=
  {| _buffer := b; _slot_sequences := _slot_sequences q;
     _next_sequence := _next_sequence q; _readers := _readers q;
     _writers := _writers q |}.

Definition set_slot_sequences (q : disruptor_queue) (s : list Z)
  : disruptor_queue :=
  {| _buffer := _buffer q; _slot_sequences := s;
     _next_sequence := _next_sequence q; _readers := _readers q;
     _writers := _writers q |}.

Definition set_next_sequence (q : disruptor_queue) (n : Z) : disruptor_queue :=
  {| _buffer := _buffer q; _slot_sequences := _slot_sequences q;
     _next_sequence := n; _readers := _readers q; _writers := _writers q |}.

Definition set_readers (q : disruptor_queue) (rs : list Z) : disruptor_queue :=
  {| _buffer := _buffer q; _slot_sequences := _slot_sequences q;
     _next_sequence := _next_sequence q; _readers := rs;
     _writers := _writers q |}.

Definition set_writers (q : disruptor_queue) (ws : list Z) : disruptor_queue :=
  {| _buffer := _buffer q; _slot_sequences := _slot_sequences q;
     _next_sequence := _next_sequence q; _readers := _readers q;
     _writers := ws |}.

(** The constructor: the member initialisers, then the loop that stores
    [INITIAL_SEQUENCE] into every slot sequence. *)
Definition disruptor_queue_ctor : disruptor_queue :=
  {| _buffer := replicate (Z.to_nat CAPACITY) value_init;
     _slot_sequences :=
       (fun _ => INITIAL_SEQUENCE) <$> replicate (Z.to_nat CAPACITY) 0;
     _next_sequence := 0;
     _readers := [];
     _writers := [] |}.

Definition create_reader (q : disruptor_queue) : nat * disruptor_queue :=
  (length (_readers q), set_readers q (_readers q ++ [INITIAL_SEQUENCE])).

Definition create_writer (q : disruptor_queue) : nat * disruptor_queue :=
  (length (_writers q), set_writers q (_writers q ++ [INITIAL_SEQUENCE])).

Definition capacity : Z := CAPACITY.

(** The [int64_t] argument is narrowed to [int] at the call, the [int]
    result widened to [size_type]. *)
Definition index_from_sequence (sequence : Z) : Z :=
  to_size_t (mod_power_of_two CAPACITY (to_int sequence)).

(** The slot of a sequence, as a position in the arrays. *)
Definition slot (sequence : Z) : nat := Z.to_nat (index_from_sequence sequence).

Definition get_min_consumer_sequence (q : disruptor_queue) : Z :=
  match _readers q with
  | [] => INT64_MAX
  | _ =>
      fold_left (fun min_sequence reader_seq => Z.min min_sequence reader_seq)
        (_readers q) INT64_MAX
  end.

(** *** Sequential semantics: one function per member function

    A call runs alone, so a busy-wait loop whose condition does not
    change spins for ever; the loops take fuel and [None] is a call
    that did not return (or an access outside an array). *)

(** The [while] loop of [wait_for_no_wrap]; returns the final cache. *)
Fixpoint wait_for_no_wrap_loop (fuel : nat) (q : disruptor_queue)
  (wrap_point cached : Z) : option Z :=
  if wrap_point >? cached then
    match fuel with
    | O => None
    | S fuel' =>
        wait_for_no_wrap_loop fuel' q wrap_point (get_min_consumer_sequence q)
    end
  else Some cached.

Definition wait_for_no_wrap (fuel : nat) (q : disruptor_queue) (w : nat)
  (claimed_sequence : Z) : option disruptor_queue :=
  cached ← _writers q !! w;
  let wrap_point := to_int64 (claimed_sequence - to_int64 CAPACITY) in
  if wrap_point <=? cached then Some q
  else
    cached' ← wait_for_no_wrap_loop fuel q wrap_point cached;
    Some (set_writers q (<[w := cached']> (_writers q))).

Definition claim_sequence (fuel : nat) (q : disruptor_queue) (w : nat)
  : option (Z * disruptor_queue) :=
  let claimed_sequence := _next_sequence q in
  let q := set_next_sequence q (to_int64 (claimed_sequence + 1)) in
  q ← wait_for_no_wrap fuel q w claimed_sequence;
  Some (claimed_sequence, q).

Definition commit_sequence (q : disruptor_queue) (write_index : Z)
  (claimed_sequence : Z) : option disruptor_queue :=
  s ← array_store (_slot_sequences q) write_index claimed_sequence;
  Some (set_slot_sequences q s).

Definition write (fuel : nat) (q : disruptor_queue) (w : nat) (value : T)
  : option disruptor_queue :=
  match claim_sequence fuel q w with
  | None => None
  | Some (claimed_sequence, q) =>
      let write_index := index_from_sequence claimed_sequence in
      b ← array_store (_buffer q) write_index value;
      commit_sequence (set_buffer q b) write_index claimed_sequence
  end.

(** [write_emplace(args...)] builds the payload with [T]'s constructor
    and is otherwise [write]. *)
Definition write_emplace {Args : Type} (construct : Args -> T) (fuel : nat)
  (q : disruptor_queue) (w : nat) (args : Args) : option disruptor_queue :=
  match claim_sequence fuel q w with
  | None => None
  | Some (claimed_sequence, q) =>
      let write_index := index_from_sequence claimed_sequence in
      b ← array_store (_buffer q) write_index (construct args);
      commit_sequence (set_buffer q b) write_index claimed_sequence
  end.

Definition get_next_read_sequence (q : disruptor_queue) (r : nat) : option Z :=
  c ← _readers q !! r; Some (to_int64 (c + 1)).

Fixpoint wait_for_data (fuel : nat) (q : disruptor_queue) (read_index : Z)
  (next_read_sequence : Z) : option unit :=
  stamp ← array_load (_slot_sequences q) read_index;
  if negb (stamp =? next_read_sequence) then
    match fuel with
    | O => None
    | S fuel' => wait_for_data fuel' q read_index next_read_sequence
    end
  else Some tt.

Definition update_consumer_sequence (q : disruptor_queue) (r : nat)
  (next_read_sequence : Z) : disruptor_queue :=
  set_readers q (<[r := next_read_sequence]> (_readers q)).

(** [value_type read()]: the value returned and the queue afterwards.
    The slot is copied, not moved from. *)
Definition read (fuel : nat) (q : disruptor_queue) (r : nat)
  : option (T * disruptor_queue) :=
  next_read_sequence ← get_next_read_sequence q r;
  let read_index := index_from_sequence next_read_sequence in
  _ ← wait_for_data fuel q read_index next_read_sequence;
  value ← array_load (_buffer q) read_index;
  Some (value, update_consumer_sequence q r next_read_sequence).

(** [void read(reference output)]: [output] is the destination's
    content before the call, the result its content afterwards. *)
Definition read_into (fuel : nat) (q : disruptor_queue) (r : nat) (output : T)
  : option (T * disruptor_queue) :=
  next_read_sequence ← get_next_read_sequence q r;
  let read_index := index_from_sequence next_read_sequence in
  _ ← wait_for_data fuel q read_index next_read_sequence;
  output ← array_load (_buffer q) read_index;
  Some (output, update_consumer_sequence q r next_read_sequence).

(** The set-up phase: all endpoints are created before any traffic
    ("Reader/Writer creation must be called during setup ONLY"). *)
Definition setup (nr nw : nat) : disruptor_queue :=
  Nat.iter nw (fun q => snd (create_writer q))
    (Nat.iter nr (fun q => snd (create_reader q)) disruptor_queue_ctor).

(** A single-threaded client of one writer (handle 0) and one reader
    (handle 0), as in the unit tests. *)
Inductive op : Type :=
| OpWrite (value : T)
| OpRead
| OpReadInto (output : T).

(** Runs the calls in order and collects what the reads delivered. *)
Fixpoint run (fuel : nat) (q : disruptor_queue) (ops : list op)
  : option (list T * disruptor_queue) :=
  match ops with
  | [] => Some ([], q)
  | OpWrite value :: ops' =>
      q ← write fuel q 0%nat value; run fuel q ops'
  | OpRead :: ops' =>
      match read fuel q 0%nat with
      | None => None
      | Some (value, q) =>
          match run fuel q ops' with
          | None => None
          | Some (values, q) => Some (value :: values, q)
          end
      end
  | OpReadInto output :: ops' =>
      match read_into fuel q 0%nat output with
      | None => None
      | Some (output, q) =>
          match run fuel q ops' with
          | None => None
          | Some (values, q) => Some (output :: values, q)
          end
      end
  end.

Definition written (ops : list op) : list T :=
  omap (fun o => match o with OpWrite v => Some v | _ => None end) ops.

Fixpoint read_count (ops : list op) : nat :=
  match ops with
  | [] => O
  | OpWrite _ :: ops' => read_count ops'
  | _ :: ops' => S (read_count ops')
  end.

(** A client is admissible when no call has to wait for another thread:
    a write finds fewer than [CAPACITY] unread items, a read finds at
    least one. [pending] is the number of unread items. *)
Fixpoint admissible (pending : Z) (ops : list op) : bool :=
  match ops with
  | [] => true
  | OpWrite _ :: ops' => (pending <? CAPACITY) && admissible (pending + 1) ops'
  | _ :: ops' => (0 <? pending) && admissible (pending - 1) ops'
  end.

(** What holds between the calls of an admissible client: [values] are
    the payloads written so far, [reads] is the number of completed
    reads. *)
Definition spsc_invariant (q : disruptor_queue) (values : list T) (reads : Z)
  : Prop :=
  length (_buffer q) = Z.to_nat CAPACITY /\
  length (_slot_sequences q) = Z.to_nat CAPACITY /\
  _next_sequence q = Z.of_nat (length values) /\
  _readers q = [reads - 1] /\
  (exists cached, _writers q = [cached] /\ cached <= reads - 1) /\
  0 <= reads <= Z.of_nat (length values) /\
  Z.of_nat (length values) <= reads + CAPACITY /\
  (forall s, reads <= s < Z.of_nat (length values) ->
     _slot_sequences q !! slot s = Some s /\
     _buffer q !! slot s = values !! Z.to_nat s) /\
  forall i stamp,
    _slot_sequences q !! i = Some stamp -> stamp < Z.of_nat (length values).

(** *** Interleaving semantics: one step per shared access

    Every endpoint is driven by its own thread.  A thread's position
    inside a call and its locals are kept in a program counter; a step
    performs the next access to the shared state (an atomic load, store
    or fetch-add, or an access to a payload slot) together with the
    thread-local computation that precedes it. *)

Inductive writer_pc : Type :=
| WIdle
    (* between calls *)
| WWrapCheck (claimed_sequence : Z) (value : T)
    (* wait_for_no_wrap, at [if (wrap_point <= cached)] *)
| WWrapLoop (claimed_sequence : Z) (value : T)
    (* wait_for_no_wrap, at [while (wrap_point > cached)] *)
| WMinScan (claimed_sequence : Z) (value : T) (j : nat) (min_sequence : Z)
    (* get_min_consumer_sequence, about to load reader [j] *)
| WStore (claimed_sequence : Z) (value : T)
    (* claim_sequence has returned, about to assign the slot *)
| WCommit (claimed_sequence : Z) (write_index : Z).
    (* payload stored, about to store the slot sequence *)

Inductive reader_pc : Type :=
| RIdle
| RWait (next_read_sequence read_index : Z) (output : option T)
    (* wait_for_data; [output] is the destination of [read(output)] *)
| RCopy (next_read_sequence read_index : Z) (output : option T)
    (* the slot sequence matched, about to copy the slot *)
| RUpdate (next_read_sequence : Z) (value : T).
    (* payload copied, about to store the consumer sequence *)

Record system : Type := {
  shared : disruptor_queue;
  writer_pcs : list writer_pc;
  reader_pcs : list reader_pc
}.

(** What the scheduler and the clients decide. *)
Inductive action : Type :=
| CallWrite (w : nat) (value : T)
    (* writer [w]'s thread enters write(value) or write_emplace *)
| StepWriter (w : nat)
| CallRead (r : nat) (output : option T)
    (* reader [r]'s thread enters read() or read(output) *)
| StepReader (r : nat).

(** What a step lets an observer see. *)
Inductive event : Type :=
| EvClaim (w : nat) (claimed_sequence : Z) (value : T)
| EvStore (w : nat) (claimed_sequence : Z) (write_index : Z)
| EvPublish (w : nat) (claimed_sequence : Z) (write_index : Z)
| EvRead (r : nat) (sequence : Z) (value : T).

Definition writer_moves (σ : system) (w : nat) (q : disruptor_queue)
  (pc : writer_pc) (evs : list event) : option (system * list event) :=
  Some ({| shared := q; writer_pcs := <[w := pc]> (writer_pcs σ);
           reader_pcs := reader_pcs σ |}, evs).

Definition reader_moves (σ : system) (r : nat) (q : disruptor_queue)
  (pc : reader_pc) (evs : list event) : option (system * list event) :=
  Some ({| shared := q; writer_pcs := writer_pcs σ;
           reader_pcs := <[r := pc]> (reader_pcs σ) |}, evs).

Definition step (σ : system) (a : action) : option (system * list event) :=
  let q := shared σ in
  match a with
  | CallWrite w value =>
      pc ← writer_pcs σ !! w;
      _ ← _writers q !! w;
      match pc with
      | WIdle =>
          (* claim_sequence: _next_sequence.fetch_add(1) *)
          let claimed_sequence := _next_sequence q in
          writer_moves σ w
            (set_next_sequence q (to_int64 (claimed_sequence + 1)))
            (WWrapCheck claimed_sequence value)
            [EvClaim w claimed_sequence value]
      | _ => None
      end
  | StepWriter w =>
      pc ← writer_pcs σ !! w;
      cached ← _writers q !! w;
      match pc with
      | WIdle => None
      | WWrapCheck claimed_sequence value =>
          let wrap_point := to_int64 (claimed_sequence - to_int64 CAPACITY) in
          if wrap_point <=? cached
          then writer_moves σ w q (WStore claimed_sequence value) []
          else writer_moves σ w q (WWrapLoop claimed_sequence value) []
      | WWrapLoop claimed_sequence value =>
          let wrap_point := to_int64 (claimed_sequence - to_int64 CAPACITY) in
          if wrap_point >? cached then
            match _readers q with
            | [] =>
                (* _readers.empty(): the call returns max at once *)
                writer_moves σ w
                  (set_writers q (<[w := INT64_MAX]> (_writers q)))
                  (WWrapLoop claimed_sequence value) []
            | _ =>
                writer_moves σ w q
                  (WMinScan claimed_sequence value 0 INT64_MAX) []
            end
          else writer_moves σ w q (WStore claimed_sequence value) []
      | WMinScan claimed_sequence value j min_sequence =>
          match _readers q !! j with
          | Some reader_seq =>
              writer_moves σ w q
                (WMinScan claimed_sequence value (S j)
                   (Z.min min_sequence reader_seq)) []
          | None =>
              (* end of the range: return, assign the cache *)
              writer_moves σ w
                (set_writers q (<[w := min_sequence]> (_writers q)))
                (WWrapLoop claimed_sequence value) []
          end
      | WStore claimed_sequence value =>
          let write_index := index_from_sequence claimed_sequence in
          b ← array_store (_buffer q) write_index value;
          writer_moves σ w (set_buffer q b)
            (WCommit claimed_sequence write_index)
            [EvStore w claimed_sequence write_index]
      | WCommit claimed_sequence write_index =>
          s ← array_store (_slot_sequences q) write_index claimed_sequence;
          writer_moves σ w (set_slot_sequences q s) WIdle
            [EvPublish w claimed_sequence write_index]
      end
  | CallRead r output =>
      pc ← reader_pcs σ !! r;
      c ← _readers q !! r;
      match pc with
      | RIdle =>
          (* get_next_read_sequence, index_from_sequence *)
          let next_read_sequence := to_int64 (c + 1) in
          reader_moves σ r q
            (RWait next_read_sequence (index_from_sequence next_read_sequence)
               output) []
      | _ => None
      end
  | StepReader r =>
      pc ← reader_pcs σ !! r;
      _ ← _readers q !! r;
      match pc with
      | RIdle => None
      | RWait next_read_sequence read_index output =>
          stamp ← array_load (_slot_sequences q) read_index;
          if negb (stamp =? next_read_sequence)
          then reader_moves σ r q (RWait next_read_sequence read_index output) []
          else reader_moves σ r q (RCopy next_read_sequence read_index output) []
      | RCopy next_read_sequence read_index output =>
          value ← array_load (_buffer q) read_index;
          reader_moves σ r q (RUpdate next_read_sequence value) []
      | RUpdate next_read_sequence value =>
          reader_moves σ r (update_consumer_sequence q r next_read_sequence)
            RIdle [EvRead r next_read_sequence value]
      end
  end.

(** Runs a schedule; the trace lists the events newest first. *)
Fixpoint exec (σ : system) (tr : list event) (sched : list action)
  : option (system * list event) :=
  match sched with
  | [] => Some (σ, tr)
  | a :: sched' =>
      match step σ a with
      | None => None
      | Some (σ', evs) => exec σ' (evs ++ tr) sched'
      end
  end.

(** The state in which traffic starts: [nr] readers and [nw] writers
    have been created, no thread is inside a call. *)
Definition boot (nr nw : nat) : system :=
  {| shared := setup nr nw;
     writer_pcs := replicate nw WIdle;
     reader_pcs := replicate nr RIdle |}.

(** Some schedule leads from the first state and trace to the second. *)
Definition reaches (σ : system) (tr : list event) (σ' : system)
  (tr' : list event) : Prop :=
  exists sched, exec σ tr sched = Some (σ', tr').

Definition reachable (nr nw : nat) (σ : system) (tr : list event) : Prop :=
  exists sched, exec (boot nr nw) [] sched = Some (σ, tr).

(** *** Reading a trace *)

(** The payloads in claim order. *)
Fixpoint claimed_values (tr : list event) : list T :=
  match tr with
  | [] => []
  | EvClaim _ _ value :: tr' => claimed_values tr' ++ [value]
  | _ :: tr' => claimed_values tr'
  end.

(** The sequences the fetch-add handed out, in claim order. *)
Fixpoint claimed_sequences (tr : list event) : list Z :=
  match tr with
  | [] => []
  | EvClaim _ s _ :: tr' => claimed_sequences tr' ++ [s]
  | _ :: tr' => claimed_sequences tr'
  end.

Definition claims (tr : list event) : Z := Z.of_nat (length (claimed_values tr)).

Fixpoint published (tr : list event) (s : Z) : bool :=
  match tr with
  | [] => false
  | EvPublish _ s' _ :: tr' => (s' =? s) || published tr' s
  | _ :: tr' => published tr' s
  end.

(** The sequence of the latest completed publication to slot [i]. *)
Fixpoint last_publication (tr : list event) (i : Z) : option Z :=
  match tr with
  | [] => None
  | EvPublish _ s i' :: tr' =>
      if i' =? i then Some s else last_publication tr' i
  | _ :: tr' => last_publication tr' i
  end.

(** What reader [r]'s completed calls delivered, oldest first. *)
Fixpoint received (tr : list event) (r : nat) : list T :=
  match tr with
  | [] => []
  | EvRead r' _ value :: tr' =>
      if Nat.eqb r' r then received tr' r ++ [value] else received tr' r
  | _ :: tr' => received tr' r
  end.

(** The sequences reader [r]'s completed calls consumed, oldest first. *)
Fixpoint consumed (tr : list event) (r : nat) : list Z :=
  match tr with
  | [] => []
  | EvRead r' s _ :: tr' =>
      if Nat.eqb r' r then consumed tr' r ++ [s] else consumed tr' r
  | _ :: tr' => consumed tr' r
  end.

(** Sequence numbers "never wrap in practice": the statements about
    running queues are about traces with fewer than [2 ^ 63] claims. *)
Definition no_wrap (tr : list event) : Prop := claims tr <= INT64_MAX.

Definition sequences_upto (n : nat) : list Z := Z.of_nat <$> seq 0 n.

Definition claimed_of (pc : writer_pc) : option Z :=
  match pc with
  | WIdle => None
  | WWrapCheck s _ | WWrapLoop s _ | WMinScan s _ _ _ | WStore s _
  | WCommit s _ => Some s
  end.

(** The claimed sequence of a writer that has returned from
    [claim_sequence]: it is at the payload store or past it. *)
Definition storing (pc : writer_pc) : option Z :=
  match pc with
  | WStore s _ | WCommit s _ => Some s
  | _ => None
  end.

(** *** The invariant of the running queue *)

Section Invariant.

Variable q : disruptor_queue.
Variable tr : list event.

(** A claimed sequence whose publication is still to come. *)
Definition in_flight (s : Z) : Prop :=
  0 <= s < claims tr /\ published tr s = false.

(** The writer's cache lets the claimed sequence pass. *)
Definition passed (w : nat) (s : Z) : Prop :=
  exists cached, _writers q !! w = Some cached /\ s - CAPACITY <= cached.

Definition writer_inv (w : nat) (pc : writer_pc) : Prop :=
  match pc with
  | WIdle => True
  | WWrapCheck s v | WWrapLoop s v =>
      in_flight s /\ claimed_values tr !! Z.to_nat s = Some v
  | WMinScan s v j m =>
      in_flight s /\ claimed_values tr !! Z.to_nat s = Some v /\
      -1 <= m <= INT64_MAX /\
      (forall r c, (r < j)%nat -> _readers q !! r = Some c -> m <= c)
  | WStore s v =>
      in_flight s /\ claimed_values tr !! Z.to_nat s = Some v /\ passed w s
  | WCommit s i =>
      in_flight s /\ passed w s /\ i = index_from_sequence s /\
      (_readers q <> [] ->
       exists v, _buffer q !! slot s = Some v /\
                 claimed_values tr !! Z.to_nat s = Some v)
  end.

Definition reader_inv (c : Z) (pc : reader_pc) : Prop :=
  match pc with
  | RIdle => True
  | RWait next i _ => next = c + 1 /\ i = index_from_sequence next
  | RCopy next i _ =>
      next = c + 1 /\ i = index_from_sequence next /\ published tr next = true
  | RUpdate next v =>
      next = c + 1 /\ published tr next = true /\
      claimed_values tr !! Z.to_nat next = Some v
  end.

(** The part that speaks of the shared object and the trace only. *)
Record shared_invariant : Prop := {
  inv_buffer_length : length (_buffer q) = Z.to_nat CAPACITY;
  inv_slots_length : length (_slot_sequences q) = Z.to_nat CAPACITY;
  inv_next : _next_sequence q = claims tr;
  inv_claimed :
    claimed_sequences tr = sequences_upto (length (claimed_values tr));
  inv_stamp_last : forall i stamp,
    _slot_sequences q !! i = Some stamp ->
    stamp = default INITIAL_SEQUENCE (last_publication tr (Z.of_nat i));
  inv_stamp_published : forall i stamp,
    _slot_sequences q !! i = Some stamp -> stamp <> INITIAL_SEQUENCE ->
    published tr stamp = true /\ slot stamp = i;
  inv_published : forall s,
    published tr s = true ->
    0 <= s < claims tr /\
    forall r c, _readers q !! r = Some c -> s - CAPACITY <= c;
  inv_reader : forall r c,
    _readers q !! r = Some c ->
    -1 <= c < claims tr /\ forall s, 0 <= s <= c -> published tr s = true;
  inv_cache : forall w cached,
    _writers q !! w = Some cached ->
    -1 <= cached <= INT64_MAX /\
    forall r c, _readers q !! r = Some c -> cached <= c;
  inv_slot : forall r c s,
    _readers q !! r = Some c -> published tr s = true -> c < s ->
    _slot_sequences q !! slot s = Some s /\
    exists v, _buffer q !! slot s = Some v /\
              claimed_values tr !! Z.to_nat s = Some v;
  inv_received : forall r c,
    _readers q !! r = Some c ->
    received tr r = take (Z.to_nat (c + 1)) (claimed_values tr) /\
    consumed tr r = sequences_upto (Z.to_nat (c + 1))
}.

End Invariant.

(** The parts that speak of the threads. *)
Record writers_invariant (q : disruptor_queue) (tr : list event)
  (pcs : list writer_pc) : Prop := {
  inv_writers_length : length pcs = length (_writers q);
  inv_writer : forall w pc, pcs !! w = Some pc -> writer_inv q tr w pc;
  inv_distinct : forall w w' pc pc' s,
    pcs !! w = Some pc -> pcs !! w' = Some pc' ->
    claimed_of pc = Some s -> claimed_of pc' = Some s -> w = w'
}.

Record readers_invariant (q : disruptor_queue) (tr : list event)
  (pcs : list reader_pc) : Prop := {
  inv_readers_length : length pcs = length (_readers q);
  inv_reader_pc : forall r c pc,
    _readers q !! r = Some c -> pcs !! r = Some pc -> reader_inv tr c pc
}.

Record invariant (σ : system) (tr : list event) : Prop := {
  inv_shared : shared_invariant (shared σ) tr;
  inv_writers : writers_invariant (shared σ) tr (writer_pcs σ);
  inv_readers : readers_invariant (shared σ) tr (reader_pcs σ)
}.

(** What holds of every run, however long: the counter and the slot
    sequences against the trace, up to the wrap-around of [int64_t]. *)
Record basic_invariant (σ : system) (tr : list event) : Prop := {
  basic_slots_length :
    length (_slot_sequences (shared σ)) = Z.to_nat CAPACITY;
  basic_next : _next_sequence (shared σ) = to_int64 (claims tr);
  basic_claimed :
    claimed_sequences tr =
    to_int64 <$> sequences_upto (length (claimed_values tr));
  basic_stamp : forall i stamp,
    _slot_sequences (shared σ) !! i = Some stamp ->
    stamp = default INITIAL_SEQUENCE (last_publication tr (Z.of_nat i));
  basic_publication : forall i s,
    last_publication tr i = Some s -> index_from_sequence s = i;
  basic_commit : forall w s i,
    writer_pcs σ !! w = Some (WCommit s i) -> i = index_from_sequence s
}.

(** The whole effect of a completed read by reader [r]: its own
    consumer sequence is one higher, nothing else has changed. *)
Definition read_effect (q : disruptor_queue) (r : nat) (q' : disruptor_queue)
  : Prop :=
  exists c,
    _readers q !! r = Some c /\
    _readers q' = <[r := c + 1]> (_readers q) /\
    _buffer q' = _buffer q /\
    _slot_sequences q' = _slot_sequences q /\
    _next_sequence q' = _next_sequence q /\
    _writers q' = _writers q.

End DisruptorQueue.

Arguments disruptor_queue : clear implicits.
Arguments system : clear implicits.
Arguments writer_pc : clear implicits.
Arguments reader_pc : clear implicits.
Arguments action : clear implicits.
Arguments event : clear implicits.
Arguments op : clear implicits.

End Queue.

(** ** Two concrete runs

    A queue of integers with capacity 2, one reader and one writer. *)

Module Examples.
Import Queue.

(** A single-threaded client in the manner of the unit tests; the
    second call reads into a destination that holds 77. *)
Definition client : list (op Z) :=
  [OpWrite 10; OpReadInto 77; OpWrite 11; OpWrite 12; OpRead; OpRead].

(** A concurrent run: three writes, of which the third finds the ring
    full and scans the reader until the reader has consumed one item;
    the run stops when the writer is about to store the third payload. *)
Definition schedule : list (action Z) :=
  [CallWrite 0 10; StepWriter 0; StepWriter 0; StepWriter 0;
   CallWrite 0 11; StepWriter 0; StepWriter 0; StepWriter 0;
   CallWrite 0 12; StepWriter 0; StepWriter 0; StepWriter 0; StepWriter 0;
   CallRead 0 None; StepReader 0; StepReader 0; StepReader 0;
   StepWriter 0; StepWriter 0; StepWriter 0; StepWriter 0].

(** The same run up to the point where the reader is about to store its
    consumer sequence. *)
Definition schedule_reading : list (action Z) := take 16 schedule.

End Examples.

(** ** Earlier revisions of disruptor_queue.hpp

    The header is kept in three revisions.  Part I follows the latest
    one; the places where the two earlier ones differ on what the
    properties below are about are recorded here. *)

Module Revisions.
Import Machine BitUtils Queue.

(** The first revision takes a [SIZE] and rounds it up:
    [CAPACITY = internal::ceil_to_power_of_two(SIZE)], with no
    [static_assert]; [capacity()] returns that [CAPACITY]. *)
Definition capacity_of_size (SIZE : Z) : option Z := ceil_to_power_of_two SIZE.

(** The first revision starts its counter, [_producer_sequence], at 1. *)
Definition _producer_sequence_initial : Z := 1.

Section MovingRead.

Context {T : Type}.
Variable CAPACITY : Z.

(** What a moved-from payload is left as ([T] decides; the identity
    for [int]). *)
Variable moved_from : T -> T.

(** [read()] of the second revision:
    [value_type value = std::move(_queue._buffer[read_index])]. *)
Definition read_moving (fuel : nat) (q : disruptor_queue T) (r : nat)
  : option (T * disruptor_queue T) :=
  next_read_sequence ← get_next_read_sequence q r;
  let read_index := index_from_sequence CAPACITY next_read_sequence in
  _ ← wait_for_data fuel q read_index next_read_sequence;
  value ← array_load (_buffer q) read_index;
  b ← array_store (_buffer q) read_index (moved_from value);
  Some (value, update_consumer_sequence (set_buffer q b) r next_read_sequence).

End MovingRead.

End Revisions.

(** ** The set-up phase in any order

    [create_reader] and [create_writer] take the set-up mutex and
    append to their own deque; a client may call them in any order
    (the unit tests create the writer first, [setup] the readers). *)

Module Creation.
Import Queue.

Inductive endpoint : Type := Reader | Writer.

Section Endpoints.

Context {T : Type}.

(** The calls in the given order; the handles they return, in the
    same order, and the queue afterwards. *)
Fixpoint create_all (q : disruptor_queue T) (order : list endpoint)
  : list nat * disruptor_queue T :=
  match order with
  | [] => ([], q)
  | Reader :: order' =>
      let (handle, q) := create_reader q in
      let (handles, q) := create_all q order' in
      (handle :: handles, q)
  | Writer :: order' =>
      let (handle, q) := create_writer q in
      let (handles, q) := create_all q order' in
      (handle :: handles, q)
  end.

Fixpoint count (e : endpoint) (order : list endpoint) : nat :=
  match order with
  | [] => O
  | Reader :: order' =>
      match e with Reader => S (count e order') | Writer => count e order' end
  | Writer :: order' =>
      match e with Writer => S (count e order') | Reader => count e order' end
  end.

(** The handle of an endpoint is its rank among the endpoints of its
    kind; [nr] and [nw] are the numbers created before. *)
Fixpoint ranks (nr nw : nat) (order : list endpoint) : list nat :=
  match order with
  | [] => []
  | Reader :: order' => nr :: ranks (S nr) nw order'
  | Writer :: order' => nw :: ranks nr (S nw) order'
  end.

End Endpoints.

End Creation.

(** ** What a call leaves behind *)

Module Calls.
Import Machine Queue.

Section Effects.

Context {T : Type}.
Variable CAPACITY : Z.

(** The queue after a [write(value)] by writer [w] that claimed the
    sequence [_next_sequence q] and left [wait_for_no_wrap] with the
    cache [cached]. *)
Definition after_write (q : disruptor_queue T) (w : nat) (value : T)
  (cached : Z) : disruptor_queue T :=
  {| _buffer :=
       <[slot CAPACITY (_next_sequence q) := value]> (_buffer q);
     _slot_sequences :=
       <[slot CAPACITY (_next_sequence q) := _next_sequence q]>
         (_slot_sequences q);
     _next_sequence := _next_sequence q + 1;
     _readers := _readers q;
     _writers := <[w := cached]> (_writers q) |}.

(** A queue all of whose arrays have their length and whose counter
    is inside the range of the statements. *)
Definition well_formed (q : disruptor_queue T) : Prop :=
  length (_buffer q) = Z.to_nat CAPACITY /\
  length (_slot_sequences q) = Z.to_nat CAPACITY /\
  0 <= _next_sequence q < INT64_MAX.

(** The ring holds the payloads of [values], the items written so
    far, as far as they fit: the latest [CAPACITY] of them, each in
    the slot of its sequence. *)
Definition holds_latest (q : disruptor_queue T) (values : list T) : Prop :=
  _next_sequence q = Z.of_nat (length values) /\
  forall s,
    0 <= s -> Z.of_nat (length values) - CAPACITY <= s < Z.of_nat (length values) ->
    _slot_sequences q !! slot CAPACITY s = Some s /\
    _buffer q !! slot CAPACITY s = values !! Z.to_nat s.

End Effects.

End Calls.

(** ** The steps of the interleaving machine, one by one

    [Queue.step] as a relation: one constructor for every way a step
    can go.  [TransitionFacts.step_transition] shows that the relation
    and the function agree. *)

Module Transitions.
Import Machine Queue.

Section Steps.

Context {T : Type}.
Variable CAPACITY : Z.

Definition wrap_point (claimed_sequence : Z) : Z :=
  to_int64 (claimed_sequence - to_int64 CAPACITY).

Definition writer_at (σ : system T) (w : nat) (pc : writer_pc T) (cached : Z)
  : Prop :=
  writer_pcs σ !! w = Some pc /\ _writers (shared σ) !! w = Some cached.

Definition reader_at (σ : system T) (r : nat) (pc : reader_pc T) (c : Z)
  : Prop :=
  reader_pcs σ !! r = Some pc /\ _readers (shared σ) !! r = Some c.

Definition writer_goes (σ : system T) (w : nat) (q : disruptor_queue T)
  (pc : writer_pc T) : system T :=
  {| shared := q; writer_pcs := <[w := pc]> (writer_pcs σ);
     reader_pcs := reader_pcs σ |}.

Definition reader_goes (σ : system T) (r : nat) (q : disruptor_queue T)
  (pc : reader_pc T) : system T :=
  {| shared := q; writer_pcs := writer_pcs σ;
     reader_pcs := <[r := pc]> (reader_pcs σ) |}.

Inductive transition (σ : system T)
  : action T -> system T -> list (event T) -> Prop :=
| claim w value cached :
    writer_at σ w WIdle cached ->
    transition σ (CallWrite w value)
      (writer_goes σ w
         (set_next_sequence (shared σ)
            (to_int64 (_next_sequence (shared σ) + 1)))
         (WWrapCheck (_next_sequence (shared σ)) value))
      [EvClaim w (_next_sequence (shared σ)) value]
| check_passes w s v cached :
    writer_at σ w (WWrapCheck s v) cached ->
    wrap_point s <= cached ->
    transition σ (StepWriter w) (writer_goes σ w (shared σ) (WStore s v)) []
| check_fails w s v cached :
    writer_at σ w (WWrapCheck s v) cached ->
    cached < wrap_point s ->
    transition σ (StepWriter w) (writer_goes σ w (shared σ) (WWrapLoop s v)) []
| loop_ends w s v cached :
    writer_at σ w (WWrapLoop s v) cached ->
    wrap_point s <= cached ->
    transition σ (StepWriter w) (writer_goes σ w (shared σ) (WStore s v)) []
| loop_without_readers w s v cached :
    writer_at σ w (WWrapLoop s v) cached ->
    cached < wrap_point s ->
    _readers (shared σ) = [] ->
    transition σ (StepWriter w)
      (writer_goes σ w
         (set_writers (shared σ) (<[w := INT64_MAX]> (_writers (shared σ))))
         (WWrapLoop s v)) []
| loop_scans w s v cached :
    writer_at σ w (WWrapLoop s v) cached ->
    cached < wrap_point s ->
    _readers (shared σ) <> [] ->
    transition σ (StepWriter w)
      (writer_goes σ w (shared σ) (WMinScan s v 0 INT64_MAX)) []
| scan_loads w s v j m cached reader_seq :
    writer_at σ w (WMinScan s v j m) cached ->
    _readers (shared σ) !! j = Some reader_seq ->
    transition σ (StepWriter w)
      (writer_goes σ w (shared σ) (WMinScan s v (S j) (Z.min m reader_seq))) []
| scan_ends w s v j m cached :
    writer_at σ w (WMinScan s v j m) cached ->
    _readers (shared σ) !! j = None ->
    transition σ (StepWriter w)
      (writer_goes σ w
         (set_writers (shared σ) (<[w := m]> (_writers (shared σ))))
         (WWrapLoop s v)) []
| store w s v cached :
    writer_at σ w (WStore s v) cached ->
    0 <= index_from_sequence CAPACITY s ->
    (Z.to_nat (index_from_sequence CAPACITY s) < length (_buffer (shared σ)))%nat ->
    transition σ (StepWriter w)
      (writer_goes σ w
         (set_buffer (shared σ)
            (<[Z.to_nat (index_from_sequence CAPACITY s) := v]>
               (_buffer (shared σ))))
         (WCommit s (index_from_sequence CAPACITY s)))
      [EvStore w s (index_from_sequence CAPACITY s)]
| commit w s i cached :
    writer_at σ w (WCommit s i) cached ->
    0 <= i ->
    (Z.to_nat i < length (_slot_sequences (shared σ)))%nat ->
    transition σ (StepWriter w)
      (writer_goes σ w
         (set_slot_sequences (shared σ)
            (<[Z.to_nat i := s]> (_slot_sequences (shared σ))))
         WIdle)
      [EvPublish w s i]
| enter_read r output c :
    reader_at σ r RIdle c ->
    transition σ (CallRead r output)
      (reader_goes σ r (shared σ)
         (RWait (to_int64 (c + 1))
            (index_from_sequence CAPACITY (to_int64 (c + 1))) output)) []
| wait_spins r next i output c stamp :
    reader_at σ r (RWait next i output) c ->
    0 <= i ->
    _slot_sequences (shared σ) !! Z.to_nat i = Some stamp ->
    stamp <> next ->
    transition σ (StepReader r)
      (reader_goes σ r (shared σ) (RWait next i output)) []
| wait_ends r next i output c :
    reader_at σ r (RWait next i output) c ->
    0 <= i ->
    _slot_sequences (shared σ) !! Z.to_nat i = Some next ->
    transition σ (StepReader r)
      (reader_goes σ r (shared σ) (RCopy next i output)) []
| copy r next i output c value :
    reader_at σ r (RCopy next i output) c ->
    0 <= i ->
    _buffer (shared σ) !! Z.to_nat i = Some value ->
    transition σ (StepReader r)
      (reader_goes σ r (shared σ) (RUpdate next value)) []
| update r next value c :
    reader_at σ r (RUpdate next value) c ->
    transition σ (StepReader r)
      (reader_goes σ r (update_consumer_sequence (shared σ) r next) RIdle)
      [EvRead r next value].

(** *** Threads running alone *)

(** [n] consecutive steps of writer [w], of reader [r]. *)
Definition writer_alone (w : nat) (n : nat) : list (action T) :=
  replicate n (StepWriter w).

Definition reader_alone (r : nat) (n : nat) : list (action T) :=
  replicate n (StepReader r).

(** [k] calls of [read()] by reader [r], each run to its end by the
    reader on its own. *)
Fixpoint reads_alone (r : nat) (k : nat) : list (action T) :=
  match k with
  | O => []
  | S k' => CallRead r None :: reader_alone r 3 ++ reads_alone r k'
  end.

(** Writer [w] can finish the call it is in without the help of any
    other thread; likewise reader [r]. *)
Definition writer_can_finish (σ : system T) (tr : list (event T)) (w : nat)
  : Prop :=
  exists n σ' tr',
    exec CAPACITY σ tr (writer_alone w n) = Some (σ', tr') /\
    writer_pcs σ' !! w = Some WIdle.

Definition reader_can_finish (σ : system T) (tr : list (event T)) (r : nat)
  : Prop :=
  exists n σ' tr',
    exec CAPACITY σ tr (reader_alone r n) = Some (σ', tr') /\
    reader_pcs σ' !! r = Some RIdle.

(** What the steps of a writer leave as they are, but for its own
    cache. *)
Definition same_but_writer (σ0 σ : system T) : Prop :=
  _buffer (shared σ) = _buffer (shared σ0) /\
  _slot_sequences (shared σ) = _slot_sequences (shared σ0) /\
  _readers (shared σ) = _readers (shared σ0) /\
  length (_writers (shared σ)) = length (_writers (shared σ0)).

Definition writer_busy (pc : writer_pc T) : bool :=
  match pc with WIdle => false | _ => true end.

Definition reader_busy (pc : reader_pc T) : bool :=
  match pc with RIdle => false | _ => true end.

(** *** More of what holds of the running queue *)

(** Beyond [Queue.invariant]: every claimed sequence that is not yet
    published is held by a writer inside [write]; a slot never goes
    back to an older sequence; a slot that holds a published sequence
    holds its payload, unless a writer is between the payload store
    and the publication on that slot; a scan never goes below the
    cache it is to replace. *)
Record ring_invariant (σ : system T) (tr : list (event T)) : Prop := {
  ring_holder : forall s,
    in_flight tr s ->
    exists w pc, writer_pcs σ !! w = Some pc /\ claimed_of pc = Some s;
  ring_stamp : forall s,
    _readers (shared σ) <> [] ->
    published tr s = true ->
    exists stamp,
      _slot_sequences (shared σ) !! slot CAPACITY s = Some stamp /\ s <= stamp;
  ring_payload : forall s v,
    _readers (shared σ) <> [] ->
    published tr s = true ->
    _slot_sequences (shared σ) !! slot CAPACITY s = Some s ->
    claimed_values tr !! Z.to_nat s = Some v ->
    (forall w s' i, writer_pcs σ !! w = Some (WCommit s' i) ->
       slot CAPACITY s' <> slot CAPACITY s) ->
    _buffer (shared σ) !! slot CAPACITY s = Some v;
  ring_scan : forall w s v j m cached,
    writer_pcs σ !! w = Some (WMinScan s v j m) ->
    _writers (shared σ) !! w = Some cached ->
    cached <= m
}.

End Steps.

End Transitions.

(** ** More concrete runs

    Queues of integers with capacity 2. *)

Module Scenarios.
Import Queue.

(** One reader and two writers: both writers have claimed a sequence
    and are about to store their payloads. *)
Definition two_writers : list (action Z) :=
  [CallWrite 0 10; StepWriter 0; CallWrite 1 11; StepWriter 1].

(** One reader and one writer: the run of [Examples.schedule] up to
    the end of the second write. *)
Definition two_written : list (action Z) := take 8 Examples.schedule.

(** A single-threaded client that writes three items and reads two. *)
Definition three_items : list (op Z) :=
  [OpWrite 1; OpRead; OpWrite 2; OpRead; OpWrite 3].

(** A queue of one writer and two readers in the middle of traffic:
    sequences 0 and 1 are in the ring, the first reader has consumed
    both, the second one sequence 0, and the writer has not scanned
    the readers yet. *)
Definition in_traffic : disruptor_queue Z :=
  {| _buffer := [10; 11]; _slot_sequences := [0; 1]; _next_sequence := 2;
     _readers := [1; 0]; _writers := [-1] |}.

End Scenarios.

(** ** The first revision of disruptor_queue.hpp

    The oldest of the three revisions publishes through one shared
    counter, [_available_sequence], instead of per-slot sequences: a
    writer waits until the sequence before its own has been published
    and then publishes its own. *)

Module FirstRevision.
Import Machine BitUtils.

(** What a call comes to: it returns, it is still inside a busy-wait
    loop when the fuel has run out (with the queue as it is then), or
    it accesses an array outside its bounds. *)
Inductive outcome (A Q : Type) : Type :=
| Returns (a : A)
| Spins (q : Q)
| Undefined.

Arguments Returns {A Q} a.
Arguments Spins {A Q} q.
Arguments Undefined {A Q}.

Section FirstQueue.

Context {T : Type}.

(** [CAPACITY = internal::ceil_to_power_of_two(SIZE)]. *)
Variable CAPACITY : Z.

(** A reader is represented by its [_consumer_sequence], a writer by
    its [_min_consumer_sequence]. *)
Record disruptor_queue : Type := {
  _buffer : list T;
  _producer_sequence : Z;
  _available_sequence : Z;
  _readers : list Z;
  _writers : list Z
}.

(** [disruptor_queue() = default]: the member initialisers; the
    elements of [_buffer] are default-initialised, [contents] is what
    they hold. *)
Definition disruptor_queue_ctor (contents : nat -> T) : disruptor_queue :=
  {| _buffer := contents <$> seq 0 (Z.to_nat CAPACITY);
     _producer_sequence := 1;
     _available_sequence := 1;
     _readers := [];
     _writers := [] |}.

(** [reader]'s constructor leaves [_consumer_sequence] without an
    initialiser: [consumer_sequence] is the value it holds. *)
Definition create_reader (q : disruptor_queue) (consumer_sequence : Z)
  : nat * disruptor_queue :=
  (length (_readers q),
   {| _buffer := _buffer q; _producer_sequence := _producer_sequence q;
      _available_sequence := _available_sequence q;
      _readers := _readers q ++ [consumer_sequence];
      _writers := _writers q |}).

(** [writer]'s constructor: [_min_consumer_sequence{0}]. *)
Definition create_writer (q : disruptor_queue) : nat * disruptor_queue :=
  (length (_writers q),
   {| _buffer := _buffer q; _producer_sequence := _producer_sequence q;
      _available_sequence := _available_sequence q;
      _readers := _readers q;
      _writers := _writers q ++ [0] |}).

Definition capacity : Z := CAPACITY.

Definition index_from_sequence (sequence : Z) : Z :=
  to_size_t (mod_power_of_two CAPACITY (to_int sequence)).

Definition get_min_consumer_sequence (q : disruptor_queue) : Z :=
  fold_left
    (fun min_consumer_sequence consumer_sequence =>
       Z.min min_consumer_sequence consumer_sequence)
    (_readers q) INT64_MAX.

(** The loop of [wait_for_no_wrap]; returns the final
    [_min_consumer_sequence]. *)
Fixpoint wait_for_no_wrap_loop (fuel : nat) (q : disruptor_queue)
  (wrap_point min_consumer_sequence : Z) : option Z :=
  if wrap_point >? min_consumer_sequence then
    match fuel with
    | O => None
    | S fuel' =>
        wait_for_no_wrap_loop fuel' q wrap_point (get_min_consumer_sequence q)
    end
  else Some min_consumer_sequence.

(** The loop [while (_available_sequence.load() != previous_sequence)]. *)
Fixpoint wait_for_previous (fuel : nat) (q : disruptor_queue)
  (previous_sequence : Z) : bool :=
  if negb (_available_sequence q =? previous_sequence) then
    match fuel with
    | O => false
    | S fuel' => wait_for_previous fuel' q previous_sequence
    end
  else true.

Definition write (fuel : nat) (q : disruptor_queue) (w : nat) (value : T)
  : outcome disruptor_queue disruptor_queue :=
  match _writers q !! w with
  | None => Undefined
  | Some min_consumer_sequence =>
      (* claim a sequence number *)
      let claimed_sequence := _producer_sequence q in
      let q :=
        {| _buffer := _buffer q;
           _producer_sequence := to_int64 (claimed_sequence + 1);
           _available_sequence := _available_sequence q;
           _readers := _readers q; _writers := _writers q |} in
      (* wait until writing to it cannot cause a wrap *)
      let wrap_point := to_int64 (claimed_sequence - to_int64 capacity) in
      match wait_for_no_wrap_loop fuel q wrap_point min_consumer_sequence with
      | None => Spins q
      | Some min_consumer_sequence =>
          let q :=
            {| _buffer := _buffer q;
               _producer_sequence := _producer_sequence q;
               _available_sequence := _available_sequence q;
               _readers := _readers q;
               _writers := <[w := min_consumer_sequence]> (_writers q) |} in
          (* write to that sequence number *)
          let write_index := index_from_sequence claimed_sequence in
          match array_store (_buffer q) write_index value with
          | None => Undefined
          | Some b =>
              let q :=
                {| _buffer := b;
                   _producer_sequence := _producer_sequence q;
                   _available_sequence := _available_sequence q;
                   _readers := _readers q; _writers := _writers q |} in
              let previous_sequence := to_int64 (claimed_sequence - 1) in
              if wait_for_previous fuel q previous_sequence then
                Returns
                  {| _buffer := _buffer q;
                     _producer_sequence := _producer_sequence q;
                     _available_sequence := claimed_sequence;
                     _readers := _readers q; _writers := _writers q |}
              else Spins q
          end
      end
  end.

(** The loop [while (next_read_sequence > _available_sequence.load())]. *)
Fixpoint wait_for_available (fuel : nat) (q : disruptor_queue)
  (next_read_sequence : Z) : bool :=
  if next_read_sequence >? _available_sequence q then
    match fuel with
    | O => false
    | S fuel' => wait_for_available fuel' q next_read_sequence
    end
  else true.

(** [read()]; the index is narrowed to [int]. *)
Definition read (fuel : nat) (q : disruptor_queue) (r : nat)
  : outcome (T * disruptor_queue) disruptor_queue :=
  match _readers q !! r with
  | None => Undefined
  | Some consumer_sequence =>
      let next_read_sequence := to_int64 (consumer_sequence + 1) in
      let read_index := to_int (index_from_sequence next_read_sequence) in
      if wait_for_available fuel q next_read_sequence then
        match array_load (_buffer q) read_index with
        | None => Undefined
        | Some value =>
            Returns
              (value,
               {| _buffer := _buffer q;
                  _producer_sequence := _producer_sequence q;
                  _available_sequence := _available_sequence q;
                  _readers := <[r := next_read_sequence]> (_readers q);
                  _writers := _writers q |})
        end
      else Spins q
  end.

(** A queue on which the given readers (each with the value its
    [_consumer_sequence] happens to hold) and [nw] writers have been
    created. *)
Definition setup (contents : nat -> T) (consumer_sequences : list Z)
  (nw : nat) : disruptor_queue :=
  Nat.iter nw (fun q => snd (create_writer q))
    (fold_left (fun q c => snd (create_reader q c)) consumer_sequences
       (disruptor_queue_ctor contents)).

End FirstQueue.

Arguments disruptor_queue : clear implicits.

End FirstRevision.

(** * Part II: properties *)

(** ** Fixed-width integers *)

Module MachineFacts.
Import Machine.

Lemma to_int64_id z : INT64_MIN <= z <= INT64_MAX -> to_int64 z = z.
Proof.
  unfold to_int64, INT64_MIN, INT64_MAX. intros Hz.
  rewrite Z.mod_small; lia.
Qed.

Lemma to_size_t_id z : 0 <= z <= SIZE_MAX -> to_size_t z = z.
Proof.
  unfold to_size_t, SIZE_MAX. intros Hz. rewrite Z.mod_small; lia.
Qed.

Lemma to_int_id z : INT_MIN <= z <= INT_MAX -> to_int z = z.
Proof.
  unfold to_int, INT_MIN, INT_MAX. intros Hz. rewrite Z.mod_small; lia.
Qed.

(** Narrowing to [int] keeps the residue modulo every power of two up
    to [2 ^ 32]. *)
Lemma to_int_mod_pow2 z k :
  0 <= k <= 32 -> to_int z mod 2 ^ k = z mod 2 ^ k.
Proof.
  intros Hk. unfold to_int.
  assert (Hsplit : 2 ^ 32 = 2 ^ (32 - k) * 2 ^ k).
  { rewrite <- Z.pow_add_r by lia. f_equal. lia. }
  assert (Hpos : 0 < 2 ^ k) by (apply Z.pow_pos_nonneg; lia).
  rewrite (Z.mod_eq (z + 2 ^ 31) (2 ^ 32)) by lia.
  generalize ((z + 2 ^ 31) / 2 ^ 32). intros d. rewrite Hsplit.
  replace (z + 2 ^ 31 - 2 ^ (32 - k) * 2 ^ k * d - 2 ^ 31)
    with (z + (- (2 ^ (32 - k) * d)) * 2 ^ k) by ring.
  apply Z.mod_add. lia.
Qed.

Lemma pow2_le_mono a b : 0 <= a <= b -> 2 ^ a <= 2 ^ b.
Proof. intros H. apply Z.pow_le_mono_r; lia. Qed.

Lemma pow2_pos a : 0 <= a -> 0 < 2 ^ a.
Proof. intros H. apply Z.pow_pos_nonneg; lia. Qed.

Lemma array_load_Some {A} (a : list A) i x :
  array_load a i = Some x -> 0 <= i /\ a !! Z.to_nat i = Some x.
Proof.
  unfold array_load. destruct (0 <=? i) eqn:E; [|discriminate].
  apply Z.leb_le in E. auto.
Qed.

Lemma array_store_Some {A} (a : list A) i x a' :
  array_store a i x = Some a' ->
  0 <= i /\ (Z.to_nat i < length a)%nat /\ a' = <[Z.to_nat i := x]> a.
Proof.
  unfold array_store.
  destruct ((0 <=? i) && (i <? Z.of_nat (length a))) eqn:E; [|discriminate].
  apply andb_true_iff in E as [E1 E2].
  apply Z.leb_le in E1. apply Z.ltb_lt in E2.
  intros [= <-]. repeat split; [lia|lia].
Qed.

Lemma array_store_in_range {A} (a : list A) i x :
  0 <= i < Z.of_nat (length a) ->
  array_store a i x = Some (<[Z.to_nat i := x]> a).
Proof.
  intros [H1 H2]. unfold array_store.
  apply Z.leb_le in H1. apply Z.ltb_lt in H2. rewrite H1, H2. reflexivity.
Qed.

End MachineFacts.

(** ** bit_utils.hpp *)

Module BitUtilsFacts.
Import Machine BitUtils MachineFacts.

Lemma MAX_POWER_eq : MAX_POWER = 2 ^ 63.
Proof. reflexivity. Qed.

(** *** [is_power_of_two] *)

Lemma land_pred_pow2 k : 0 <= k -> Z.land (2 ^ k) (2 ^ k - 1) = 0.
Proof.
  intros Hk. replace (2 ^ k - 1) with (Z.ones k)
    by (rewrite Z.ones_equiv; lia).
  rewrite Z.land_ones by lia. apply Z.mod_same.
  apply Z.pow_nonzero; lia.
Qed.

Lemma land_pred_zero n :
  0 < n -> Z.land n (n - 1) = 0 -> n = 2 ^ Z.log2 n.
Proof.
  intros Hn Hland.
  destruct (Z.log2_spec n Hn) as [Hlo Hhi].
  destruct (Z.eq_dec n (2 ^ Z.log2 n)) as [|Hne]; [assumption|exfalso].
  assert (Hlog : Z.log2 (n - 1) = Z.log2 n).
  { apply Z.log2_unique; [apply Z.log2_nonneg|]. lia. }
  assert (Hb1 : Z.testbit n (Z.log2 n) = true) by (apply Z.bit_log2; lia).
  assert (Hb2 : Z.testbit (n - 1) (Z.log2 n) = true).
  { pose proof (pow2_pos (Z.log2 n) (Z.log2_nonneg n)).
    rewrite <- Hlog. apply Z.bit_log2. lia. }
  assert (Hb : Z.testbit (Z.land n (n - 1)) (Z.log2 n) = true).
  { rewrite Z.land_spec, Hb1, Hb2. reflexivity. }
  rewrite Hland, Z.bits_0 in Hb. discriminate.
Qed.

Lemma is_power_of_two_spec n :
  is_size_t n -> is_power_of_two n = true <-> power_of_two n.
Proof.
  unfold is_size_t, SIZE_MAX, is_power_of_two. intros Hn. split.
  - intros H. apply andb_true_iff in H as [Hnz Hz].
    apply negb_true_iff, Z.eqb_neq in Hnz. apply Z.eqb_eq in Hz.
    rewrite to_size_t_id in Hz by (unfold SIZE_MAX; lia).
    exists (Z.log2 n). split; [apply Z.log2_nonneg|].
    apply land_pred_zero; [lia|assumption].
  - intros (k & Hk & ->).
    pose proof (pow2_pos k Hk).
    apply andb_true_iff. split.
    + apply negb_true_iff, Z.eqb_neq. lia.
    + rewrite to_size_t_id by (unfold SIZE_MAX; lia).
      apply Z.eqb_eq, land_pred_pow2. assumption.
Qed.

Lemma is_power_of_two_int_pow2 k :
  0 <= k <= 30 -> is_power_of_two_int (2 ^ k) = true.
Proof.
  intros Hk. unfold is_power_of_two_int.
  pose proof (pow2_pos k (proj1 Hk)). pose proof (pow2_le_mono k 30 Hk).
  apply andb_true_iff. split.
  - apply negb_true_iff, Z.eqb_neq. lia.
  - rewrite to_int_id by (unfold INT_MIN, INT_MAX; lia).
    apply Z.eqb_eq, land_pred_pow2. lia.
Qed.

Lemma mod_power_of_two_instantiable_pow2 k :
  0 <= k <= 30 -> mod_power_of_two_instantiable (2 ^ k) = true.
Proof.
  intros Hk. unfold mod_power_of_two_instantiable.
  rewrite is_power_of_two_int_pow2 by assumption.
  pose proof (pow2_pos k (proj1 Hk)). pose proof (pow2_le_mono k 30 Hk).
  unfold fits_int, INT_MIN, INT_MAX.
  apply andb_true_iff. split; [apply andb_true_iff; split|reflexivity];
    apply Z.leb_le; lia.
Qed.

(** *** [mod_power_of_two] *)

Lemma mod_power_of_two_mod k dividend :
  0 <= k -> mod_power_of_two (2 ^ k) dividend = dividend mod 2 ^ k.
Proof.
  intros Hk. unfold mod_power_of_two.
  replace (2 ^ k - 1) with (Z.ones k) by (rewrite Z.ones_equiv; lia).
  apply Z.land_ones. assumption.
Qed.

(** *** [ceil_to_power_of_two] *)

Lemma ceil_to_power_of_two_from_eq fuel original current_bit :
  ceil_to_power_of_two_from fuel original current_bit =
  if original >? MAX_POWER then Some MAX_POWER
  else
    match int_shl 1 current_bit with
    | None => None
    | Some shifted =>
        if (to_size_t shifted >=? original) || (current_bit =? MAX_POWER)
        then Some (to_size_t shifted)
        else
          match fuel with
          | O => None
          | S fuel' =>
              ceil_to_power_of_two_from fuel' original
                (to_size_t (current_bit + 1))
          end
    end.
Proof. destruct fuel; reflexivity. Qed.

Lemma int_shl_one_low b :
  0 <= b <= 30 -> int_shl 1 b = Some (2 ^ b).
Proof.
  intros Hb. unfold int_shl.
  destruct (Z.leb_spec 0 b); [|lia]. destruct (Z.ltb_spec b 32); [|lia].
  simpl. rewrite Z.mul_1_l.
  pose proof (pow2_pos b (proj1 Hb)). pose proof (pow2_le_mono b 30 Hb).
  rewrite to_int_id by (unfold INT_MIN, INT_MAX; lia). reflexivity.
Qed.

(** Up to [2 ^ 30] the result is the least power of two that is not
    below the argument. *)
Lemma ceil_to_power_of_two_from_low fuel original b :
  0 <= original <= 2 ^ 30 -> 0 <= b <= 30 -> 30 - b < Z.of_nat fuel ->
  exists k, b <= k <= 30 /\
    ceil_to_power_of_two_from fuel original b = Some (2 ^ k) /\
    original <= 2 ^ k /\ (k = b \/ 2 ^ (k - 1) < original).
Proof.
  intros Ho. revert b. induction fuel as [|fuel IH]; intros b Hb Hfuel; [lia|].
  rewrite ceil_to_power_of_two_from_eq.
  destruct (Z.gtb_spec original MAX_POWER) as [Hgt|_].
  { rewrite MAX_POWER_eq in Hgt. lia. }
  rewrite int_shl_one_low by assumption.
  pose proof (pow2_pos b (proj1 Hb)) as Hpos.
  pose proof (pow2_le_mono b 30 Hb) as Hle.
  rewrite to_size_t_id by (unfold SIZE_MAX; lia).
  destruct (Z.geb_spec (2 ^ b) original) as [Hge|Hlt]; simpl.
  - exists b. repeat split; lia.
  - destruct (Z.eqb_spec b MAX_POWER) as [Heq|_].
    { rewrite MAX_POWER_eq in Heq. lia. }
    assert (Hb30 : b < 30).
    { destruct (Z.eq_dec b 30) as [->|]; lia. }
    rewrite to_size_t_id by (unfold SIZE_MAX; lia).
    destruct (IH (b + 1)) as (k & Hk & Hres & Hup & Hlow); [lia|lia|].
    exists k. repeat split; try lia; [assumption|].
    right. destruct Hlow as [->|Hlow]; [|assumption].
    replace (b + 1 - 1) with b by lia. assumption.
Qed.

Lemma ceil_to_power_of_two_low original :
  0 <= original <= 2 ^ 30 ->
  exists k, 0 <= k <= 30 /\
    ceil_to_power_of_two original = Some (2 ^ k) /\
    original <= 2 ^ k /\ (k = 0 \/ 2 ^ (k - 1) < original).
Proof.
  intros Ho. unfold ceil_to_power_of_two.
  apply ceil_to_power_of_two_from_low; [assumption|lia|lia].
Qed.

Lemma ceil_to_power_of_two_saturates original :
  MAX_POWER < original -> ceil_to_power_of_two original = Some MAX_POWER.
Proof.
  intros H. unfold ceil_to_power_of_two.
  rewrite ceil_to_power_of_two_from_eq.
  destruct (Z.gtb_spec original MAX_POWER); [reflexivity|lia].
Qed.

Lemma int_shl_one_31 : int_shl 1 31 = Some (- 2 ^ 31).
Proof. reflexivity. Qed.

Lemma to_size_t_int_min : to_size_t (- 2 ^ 31) = 2 ^ 64 - 2 ^ 31.
Proof. reflexivity. Qed.

(** Above [2 ^ 30] the 32-bit shift reaches the sign bit: [1 << 31] is
    [INT_MIN], which widens to [2 ^ 64 - 2 ^ 31]. *)
Lemma ceil_to_power_of_two_from_high fuel original b :
  2 ^ 30 < original <= MAX_POWER -> 0 <= b <= 31 -> 31 - b <= Z.of_nat fuel ->
  ceil_to_power_of_two_from fuel original b = Some (2 ^ 64 - 2 ^ 31).
Proof.
  intros Ho. revert b. induction fuel as [|fuel IH]; intros b Hb Hfuel.
  - assert (b = 31) as -> by lia.
    rewrite ceil_to_power_of_two_from_eq.
    destruct (Z.gtb_spec original MAX_POWER) as [Hgt|_]; [lia|].
    rewrite int_shl_one_31, to_size_t_int_min.
    rewrite MAX_POWER_eq in Ho.
    destruct (Z.geb_spec (2 ^ 64 - 2 ^ 31) original); [reflexivity|lia].
  - rewrite ceil_to_power_of_two_from_eq.
    destruct (Z.gtb_spec original MAX_POWER) as [Hgt|_]; [lia|].
    rewrite MAX_POWER_eq in Ho.
    destruct (Z.eq_dec b 31) as [->|Hne].
    + rewrite int_shl_one_31, to_size_t_int_min.
      destruct (Z.geb_spec (2 ^ 64 - 2 ^ 31) original); [reflexivity|lia].
    + rewrite int_shl_one_low by lia.
      assert (Hb' : 0 <= b <= 30) by lia.
      pose proof (pow2_pos b (proj1 Hb')) as Hpos.
      pose proof (pow2_le_mono b 30 Hb') as Hle.
      rewrite to_size_t_id by (unfold SIZE_MAX; lia).
      destruct (Z.geb_spec (2 ^ b) original) as [Hge|Hlt]; [lia|].
      destruct (Z.eqb_spec b MAX_POWER) as [Heq|_].
      { rewrite MAX_POWER_eq in Heq. lia. }
      simpl. rewrite to_size_t_id by (unfold SIZE_MAX; lia).
      apply IH; lia.
Qed.

Lemma ceil_to_power_of_two_high original :
  2 ^ 30 < original <= MAX_POWER ->
  ceil_to_power_of_two original = Some (2 ^ 64 - 2 ^ 31).
Proof.
  intros Ho. unfold ceil_to_power_of_two.
  apply ceil_to_power_of_two_from_high; [assumption|lia|lia].
Qed.

(** The recursion always ends well before the fuel does, and no shift
    count reaches 32. *)
Lemma ceil_to_power_of_two_total original :
  is_size_t original -> is_Some (ceil_to_power_of_two original).
Proof.
  unfold is_size_t. intros Ho.
  destruct (Z.le_gt_cases original (2 ^ 30)) as [Hlow|Hhigh].
  - destruct (ceil_to_power_of_two_low original) as (k & _ & Hk & _); [lia|].
    rewrite Hk. eauto.
  - destruct (Z.le_gt_cases original MAX_POWER) as [Hmid|Htop].
    + rewrite ceil_to_power_of_two_high by lia. eauto.
    + rewrite ceil_to_power_of_two_saturates by lia. eauto.
Qed.

(** C8: [ceil_to_power_of_two] is meant to return the least power of
    two that is not below its argument (1 for 0, the high bit for
    arguments above it).  At [2 ^ 30 + 1] the least such power is
    [2 ^ 31]; the code returns [2 ^ 64 - 2 ^ 31], which is not a power
    of two at all.  The arguments 0 and [SIZE_MAX] behave as
    described. *)
Theorem ceil_to_power_of_two_shift_overflow :
  ceil_to_power_of_two (2 ^ 30 + 1) = Some (2 ^ 64 - 2 ^ 31) /\
  is_power_of_two (2 ^ 64 - 2 ^ 31) = false /\
  (2 ^ 30 + 1 <= 2 ^ 31 < 2 ^ 64 - 2 ^ 31 /\ is_power_of_two (2 ^ 31) = true) /\
  ceil_to_power_of_two 0 = Some 1 /\
  ceil_to_power_of_two SIZE_MAX = Some (2 ^ 63).
Proof.
  split; [|split; [|split; [|split]]].
  - apply ceil_to_power_of_two_high. rewrite MAX_POWER_eq. lia.
  - vm_compute. reflexivity.
  - split; [lia|]. vm_compute. reflexivity.
  - vm_compute. reflexivity.
  - vm_compute. reflexivity.
Qed.

End BitUtilsFacts.

(** ** bit_utils.hpp: the helpers over their whole domain *)

Module BitUtilsBehaviour.
Import Machine BitUtils MachineFacts BitUtilsFacts.

Lemma log2_int n : 0 < n <= INT_MAX -> 0 <= Z.log2 n <= 30.
Proof.
  unfold INT_MAX. intros Hn. split; [apply Z.log2_nonneg|].
  assert (Z.log2 n < 31); [|lia].
  apply Z.log2_lt_pow2; lia.
Qed.

(** X1: [is_power_of_two<int>], the instance the [static_assert] of
    [mod_power_of_two] evaluates, holds of exactly the powers of two
    [2 ^ 0 .. 2 ^ 30]: zero and every negative [int] are rejected.
    ([INT_MIN] is left out: [number - 1] overflows there.) *)
Theorem is_power_of_two_int_exact n :
  INT_MIN < n <= INT_MAX ->
  is_power_of_two_int n = true <-> exists k, 0 <= k <= 30 /\ n = 2 ^ k.
Proof.
  intros Hn. split.
  - unfold is_power_of_two_int. intros H.
    apply andb_true_iff in H as [Hnz Hz].
    apply negb_true_iff, Z.eqb_neq in Hnz. apply Z.eqb_eq in Hz.
    rewrite to_int_id in Hz by lia.
    destruct (Z.lt_ge_cases n 0) as [Hneg|Hpos].
    + assert (Z.land n (n - 1) < 0) by (apply Z.land_neg; lia). lia.
    + exists (Z.log2 n). split; [apply log2_int; lia|].
      apply land_pred_zero; [lia|assumption].
  - intros (k & Hk & ->). apply is_power_of_two_int_pow2. assumption.
Qed.

Lemma is_power_of_two_int_exact_witness :
  is_power_of_two_int (-8) = true <-> exists k, 0 <= k <= 30 /\ -8 = 2 ^ k.
Proof.
  apply (is_power_of_two_int_exact (-8)). unfold INT_MIN, INT_MAX. lia.
Defined.

(** X2: for a divisor [2 ^ k] the template accepts and every [int]
    dividend, [mod_power_of_two] is the remainder of the floored
    division: it lies in [0, 2 ^ k), agrees with the built-in [%] on
    dividends that are not negative, and is [%]'s result plus the
    divisor on negative dividends that the divisor does not divide. *)
Theorem mod_power_of_two_floored k dividend :
  0 <= k <= 30 -> INT_MIN <= dividend <= INT_MAX ->
  mod_power_of_two_instantiable (2 ^ k) = true /\
  0 <= mod_power_of_two (2 ^ k) dividend < 2 ^ k /\
  mod_power_of_two (2 ^ k) dividend = dividend mod 2 ^ k /\
  (0 <= dividend ->
   mod_power_of_two (2 ^ k) dividend = Z.rem dividend (2 ^ k)) /\
  (dividend < 0 -> Z.rem dividend (2 ^ k) <> 0 ->
   mod_power_of_two (2 ^ k) dividend = Z.rem dividend (2 ^ k) + 2 ^ k).
Proof.
  intros Hk Hd. pose proof (pow2_pos k (proj1 Hk)) as Hpos.
  rewrite mod_power_of_two_mod by lia.
  split; [apply mod_power_of_two_instantiable_pow2; assumption|].
  split; [apply Z.mod_pos_bound; lia|]. split; [reflexivity|]. split.
  - intros H0. symmetry. apply Z.rem_mod_nonneg; lia.
  - intros Hneg Hrem.
    pose proof (Z.rem_bound_pos_neg dividend (2 ^ k) Hpos ltac:(lia)) as Hb.
    pose proof (Z.quot_rem' dividend (2 ^ k)) as Hq.
    symmetry. apply (Z.mod_unique_pos _ _ (Z.quot dividend (2 ^ k) - 1)); lia.
Qed.

Lemma mod_power_of_two_floored_witness :
  mod_power_of_two (2 ^ 3) (-3) = (-3) mod 2 ^ 3 /\
  (-3 < 0 -> Z.rem (-3) (2 ^ 3) <> 0 ->
   mod_power_of_two (2 ^ 3) (-3) = Z.rem (-3) (2 ^ 3) + 2 ^ 3).
Proof.
  destruct (mod_power_of_two_floored 3 (-3)) as (_ & _ & Hmod & _ & Hneg).
  - lia.
  - unfold INT_MIN, INT_MAX. lia.
  - split; assumption.
Defined.

Lemma power_of_two_ge m n k :
  power_of_two m -> n <= m -> 0 <= k -> (k = 0 \/ 2 ^ (k - 1) < n) ->
  2 ^ k <= m.
Proof.
  intros (j & Hj & ->) Hn Hk [->|Hlow].
  - pose proof (pow2_pos j Hj). simpl. lia.
  - assert (k - 1 < j).
    { apply (Z.pow_lt_mono_r_iff 2); lia. }
    apply pow2_le_mono. lia.
Qed.

(** X3: [ceil_to_power_of_two] over all of [std::size_t].  Up to
    [2 ^ 30] it returns the least power of two that is not below its
    argument; above [2 ^ 30] and up to [2 ^ 63] it returns
    [2 ^ 64 - 2 ^ 31] whatever the argument; above [2 ^ 63] it returns
    [2 ^ 63].  So the result is a power of two that is not below the
    argument exactly for the arguments up to [2 ^ 30]. *)
Theorem ceil_to_power_of_two_by_range original :
  is_size_t original ->
  exists result,
    ceil_to_power_of_two original = Some result /\
    (original <= 2 ^ 30 ->
     is_power_of_two result = true /\ original <= result /\
     forall m, power_of_two m -> original <= m -> result <= m) /\
    (2 ^ 30 < original <= 2 ^ 63 -> result = 2 ^ 64 - 2 ^ 31) /\
    (2 ^ 63 < original -> result = 2 ^ 63) /\
    (is_power_of_two result = true /\ original <= result <->
     original <= 2 ^ 30).
Proof.
  unfold is_size_t, SIZE_MAX. intros Ho.
  destruct (Z.le_gt_cases original (2 ^ 30)) as [Hlow|Hhigh].
  - destruct (ceil_to_power_of_two_low original) as (k & Hk & Hres & Hle & Hmin);
      [lia|].
    exists (2 ^ k). split; [assumption|].
    assert (Hp : is_power_of_two (2 ^ k) = true).
    { apply is_power_of_two_spec.
      - pose proof (pow2_pos k (proj1 Hk)). pose proof (pow2_le_mono k 30 Hk).
        unfold is_size_t, SIZE_MAX. lia.
      - exists k. split; [lia|reflexivity]. }
    split; [|split; [lia|split; [lia|tauto]]].
    intros _. split; [assumption|]. split; [assumption|].
    intros m Hm Hom. apply (power_of_two_ge m original); [assumption..|lia|assumption].
  - destruct (Z.le_gt_cases original (2 ^ 63)) as [Hmid|Htop].
    + exists (2 ^ 64 - 2 ^ 31).
      split; [apply ceil_to_power_of_two_high; rewrite MAX_POWER_eq; lia|].
      split; [lia|]. split; [reflexivity|]. split; [lia|].
      split; [|lia]. intros [Hp _]. vm_compute in Hp. discriminate.
    + exists (2 ^ 63).
      split; [apply ceil_to_power_of_two_saturates; rewrite MAX_POWER_eq; lia|].
      split; [lia|]. split; [lia|]. split; [reflexivity|]. lia.
Qed.

Lemma ceil_to_power_of_two_by_range_witness :
  exists result,
    ceil_to_power_of_two 1025 = Some result /\
    (1025 <= 2 ^ 30 ->
     is_power_of_two result = true /\ 1025 <= result /\
     forall m, power_of_two m -> 1025 <= m -> result <= m).
Proof.
  destruct (ceil_to_power_of_two_by_range 1025) as (result & Hres & Hlow & _).
  - unfold is_size_t, SIZE_MAX. lia.
  - exists result. split; assumption.
Defined.

(** X4: the second parameter of [ceil_to_power_of_two], the bit the
    search starts from.  From a bit [b <= 30] the result is the least
    power of two that is neither below the argument nor below
    [2 ^ b]; a start bit of 32 or more shifts an [int] by at least its
    width, which is undefined, unless the argument is above [2 ^ 63]
    and the function returns before it shifts. *)
Theorem ceil_to_power_of_two_start_bit fuel original b :
  is_size_t original -> is_size_t b ->
  (original <= 2 ^ 30 -> b <= 30 -> (31 <= fuel)%nat ->
   exists k,
     ceil_to_power_of_two_from fuel original b = Some (2 ^ k) /\
     b <= k <= 30 /\ original <= 2 ^ k /\
     forall j, b <= j -> original <= 2 ^ j -> k <= j) /\
  (32 <= b -> original <= 2 ^ 63 ->
   ceil_to_power_of_two_from fuel original b = None) /\
  (2 ^ 63 < original ->
   ceil_to_power_of_two_from fuel original b = Some (2 ^ 63)).
Proof.
  unfold is_size_t, SIZE_MAX. intros Ho Hb. split; [|split].
  - intros Hlow Hb30 Hfuel.
    destruct (ceil_to_power_of_two_from_low fuel original b)
      as (k & Hk & Hres & Hle & Hmin); [lia..|].
    exists k. split; [assumption|]. split; [assumption|].
    split; [assumption|]. intros j Hj Hoj.
    destruct Hmin as [->|Hmin]; [assumption|].
    assert (k - 1 < j); [|lia].
    apply (Z.pow_lt_mono_r_iff 2); lia.
  - intros Hb32 Hmid. rewrite ceil_to_power_of_two_from_eq.
    destruct (Z.gtb_spec original MAX_POWER) as [Hgt|_].
    { rewrite MAX_POWER_eq in Hgt. lia. }
    unfold int_shl.
    destruct (Z.leb_spec 0 b); [|lia]. destruct (Z.ltb_spec b 32); [lia|].
    reflexivity.
  - intros Htop. rewrite ceil_to_power_of_two_from_eq.
    destruct (Z.gtb_spec original MAX_POWER) as [_|Hle]; [reflexivity|].
    rewrite MAX_POWER_eq in Hle. lia.
Qed.

Lemma ceil_to_power_of_two_start_bit_witness :
  exists k,
    ceil_to_power_of_two_from 64 3 4 = Some (2 ^ k) /\
    4 <= k <= 30 /\ 3 <= 2 ^ k /\
    forall j, 4 <= j -> 3 <= 2 ^ j -> k <= j.
Proof.
  apply (ceil_to_power_of_two_start_bit 64 3 4);
    unfold is_size_t, SIZE_MAX; lia.
Defined.

End BitUtilsBehaviour.

(** ** disruptor_queue.hpp: the capacity and the slot index *)

Module CapacityFacts.
Import Machine BitUtils MachineFacts BitUtilsFacts Queue.

Lemma static_assertions_spec N :
  is_size_t N -> static_assertions N = true <-> power_of_two N.
Proof.
  intros HN. unfold static_assertions. split.
  - intros H. apply andb_true_iff in H as [_ H].
    apply is_power_of_two_spec; assumption.
  - intros Hp. apply andb_true_iff. split.
    + destruct Hp as (k & Hk & ->). pose proof (pow2_pos k Hk).
      apply Z.gtb_lt. lia.
    + apply is_power_of_two_spec; assumption.
Qed.

Lemma valid_capacity_pow2 CAPACITY :
  valid_capacity CAPACITY = true ->
  exists k, 0 <= k <= 30 /\ CAPACITY = 2 ^ k.
Proof.
  unfold valid_capacity. intros H. apply andb_true_iff in H as [Hs Hm].
  unfold mod_power_of_two_instantiable in Hm.
  apply andb_true_iff in Hm as [Hfit _].
  unfold fits_int, INT_MIN, INT_MAX in Hfit.
  apply andb_true_iff in Hfit as [_ Hmax]. apply Z.leb_le in Hmax.
  unfold static_assertions in Hs. apply andb_true_iff in Hs as [Hpos Hs].
  apply Z.gtb_lt in Hpos.
  apply is_power_of_two_spec in Hs; [|unfold is_size_t, SIZE_MAX; lia].
  destruct Hs as (k & Hk & ->). exists k. split; [|reflexivity].
  split; [assumption|].
  destruct (Z.le_gt_cases k 30) as [|Hgt]; [assumption|exfalso].
  pose proof (pow2_le_mono 31 k). lia.
Qed.

Lemma pow2_valid_capacity k : 0 <= k <= 30 -> valid_capacity (2 ^ k) = true.
Proof.
  intros Hk. unfold valid_capacity.
  rewrite mod_power_of_two_instantiable_pow2 by assumption.
  rewrite andb_true_r. apply static_assertions_spec.
  - pose proof (pow2_pos k (proj1 Hk)). pose proof (pow2_le_mono k 30 Hk).
    unfold is_size_t, SIZE_MAX. lia.
  - exists k. split; [lia|reflexivity].
Qed.

Lemma index_from_sequence_pow2 k sequence :
  0 <= k <= 31 -> index_from_sequence (2 ^ k) sequence = sequence mod 2 ^ k.
Proof.
  intros Hk. unfold index_from_sequence.
  rewrite mod_power_of_two_mod by lia.
  rewrite to_int_mod_pow2 by lia.
  pose proof (pow2_pos k (proj1 Hk)).
  pose proof (Z.mod_pos_bound sequence (2 ^ k)).
  pose proof (pow2_le_mono k 31 Hk).
  apply to_size_t_id. unfold SIZE_MAX. lia.
Qed.

(** *** A capacity that passes the compile-time checks *)

Section ValidCapacity.

Variable CAPACITY : Z.
Hypothesis capacity_valid : valid_capacity CAPACITY = true.

Local Abbreviation index := (index_from_sequence CAPACITY).
Local Abbreviation slot := (Queue.slot CAPACITY).

Lemma CAPACITY_range : 1 <= CAPACITY <= 2 ^ 30.
Proof.
  destruct (valid_capacity_pow2 _ capacity_valid) as (k & Hk & ->).
  pose proof (pow2_pos k (proj1 Hk)). pose proof (pow2_le_mono k 30 Hk). lia.
Qed.

Lemma index_mod s : index s = s mod CAPACITY.
Proof.
  destruct (valid_capacity_pow2 _ capacity_valid) as (k & Hk & ->).
  apply index_from_sequence_pow2. lia.
Qed.

Lemma index_range s : 0 <= index s < CAPACITY.
Proof.
  rewrite index_mod. apply Z.mod_pos_bound. pose proof CAPACITY_range. lia.
Qed.

Lemma slot_index s : Z.of_nat (slot s) = index s.
Proof. unfold Queue.slot. pose proof (index_range s). lia. Qed.

Lemma slot_lt s : (slot s < Z.to_nat CAPACITY)%nat.
Proof. unfold Queue.slot. pose proof (index_range s). lia. Qed.

(** Two different sequences that share a slot are at least [CAPACITY]
    apart. *)
Lemma slot_eq_apart s s' : slot s = slot s' -> s' < s -> s' <= s - CAPACITY.
Proof.
  intros Hslot Hlt. pose proof CAPACITY_range as HC.
  assert (Hmod : s mod CAPACITY = s' mod CAPACITY).
  { rewrite <- !index_mod, <- !slot_index. congruence. }
  pose proof (Z.div_mod s CAPACITY) as Hs.
  pose proof (Z.div_mod s' CAPACITY) as Hs'.
  assert (Hd : s' / CAPACITY < s / CAPACITY) by nia.
  nia.
Qed.

Lemma slot_neq_near s s' : s' < s < s' + CAPACITY -> slot s <> slot s'.
Proof.
  intros H Heq. pose proof (slot_eq_apart s s' Heq). lia.
Qed.

End ValidCapacity.

(** C7: [capacity()] returns the template argument, and the class can be
    instantiated exactly for the powers of two: every other argument
    (0 included) fails a [static_assert]. *)
Theorem capacity_is_template_argument N :
  is_size_t N ->
  (static_assertions N = true -> capacity N = N) /\
  (~ power_of_two N -> static_assertions N = false) /\
  (power_of_two N -> static_assertions N = true).
Proof.
  intros HN. split; [|split].
  - intros _. reflexivity.
  - intros Hnp. destruct (static_assertions N) eqn:E; [|reflexivity].
    exfalso. apply Hnp. apply static_assertions_spec; assumption.
  - intros Hp. apply static_assertions_spec; assumption.
Qed.

Lemma capacity_is_template_argument_witness :
  capacity 16 = 16 /\ static_assertions 100 = false.
Proof.
  assert (Hs16 : is_size_t 16) by (unfold is_size_t, SIZE_MAX; lia).
  assert (Hs100 : is_size_t 100) by (unfold is_size_t, SIZE_MAX; lia).
  split.
  - apply (proj1 (capacity_is_template_argument 16 Hs16)). reflexivity.
  - assert (Hnp : ~ power_of_two 100).
    { intros Hp. apply (static_assertions_spec 100 Hs100) in Hp.
      vm_compute in Hp. discriminate. }
    exact (proj1 (proj2 (capacity_is_template_argument 100 Hs100)) Hnp).
Defined.

(** The statement of C10 for one capacity and one sequence: the index
    function exists for that capacity and agrees with the remainder. *)
Definition index_is_remainder (CAPACITY sequence : Z) : Prop :=
  mod_power_of_two_instantiable CAPACITY = true /\
  index_from_sequence CAPACITY sequence = sequence mod CAPACITY.

(** C10, as stated, at capacity [2 ^ 31]: the [int] template parameter
    of [mod_power_of_two] cannot hold [2 ^ 31], the index function does
    not exist for that capacity. *)
Lemma index_from_sequence_capacity_2_31 : ~ index_is_remainder (2 ^ 31) 0.
Proof.
  intros [H _]. vm_compute in H. discriminate.
Qed.

(** C10, amended: for every power-of-two capacity up to [2 ^ 30] and
    every non-negative 64-bit sequence, [index_from_sequence] is the
    remainder modulo the capacity, the narrowing of the sequence to
    [int] notwithstanding. *)
Theorem index_from_sequence_is_remainder k sequence :
  0 <= k <= 30 -> 0 <= sequence <= INT64_MAX ->
  index_is_remainder (2 ^ k) sequence.
Proof.
  intros Hk _. split.
  - apply mod_power_of_two_instantiable_pow2. assumption.
  - apply index_from_sequence_pow2. lia.
Qed.

Lemma index_from_sequence_is_remainder_witness :
  index_is_remainder (2 ^ 4) (2 ^ 40 + 21).
Proof.
  apply (index_from_sequence_is_remainder 4 (2 ^ 40 + 21)).
  - lia.
  - unfold INT64_MAX. lia.
Defined.

End CapacityFacts.

(** ** disruptor_queue.hpp: a single-threaded client (one writer, one reader) *)

Module SequentialFacts.
Import Machine BitUtils MachineFacts BitUtilsFacts Queue CapacityFacts.

Section Sequential.

Context {T : Type} (value_init : T) (CAPACITY : Z).
Hypothesis capacity_valid : valid_capacity CAPACITY = true.

Local Abbreviation index := (index_from_sequence CAPACITY).
Local Abbreviation slot := (Queue.slot CAPACITY).

Local Abbreviation CAPACITY_range := (CapacityFacts.CAPACITY_range CAPACITY capacity_valid).
Local Abbreviation index_range := (CapacityFacts.index_range CAPACITY capacity_valid).
Local Abbreviation slot_lt := (CapacityFacts.slot_lt CAPACITY capacity_valid).
Local Abbreviation slot_neq_near := (CapacityFacts.slot_neq_near CAPACITY capacity_valid).

(** *** The calls of the client *)

Lemma get_min_consumer_sequence_single (q : disruptor_queue T) c :
  _readers q = [c] -> c <= INT64_MAX -> get_min_consumer_sequence q = c.
Proof.
  intros Hr Hc. unfold get_min_consumer_sequence. rewrite Hr. simpl. lia.
Qed.

Lemma wait_for_no_wrap_loop_exits fuel (q : disruptor_queue T) wrap_point cached :
  (1 <= fuel)%nat -> wrap_point <= get_min_consumer_sequence q ->
  exists cached',
    wait_for_no_wrap_loop fuel q wrap_point cached = Some cached' /\
    (cached' = cached \/ cached' = get_min_consumer_sequence q).
Proof.
  intros Hfuel Hmin. destruct fuel as [|fuel]; [lia|]. simpl.
  destruct (Z.gtb_spec wrap_point cached).
  - destruct fuel; simpl;
      (destruct (Z.gtb_spec wrap_point (get_min_consumer_sequence q)); [lia|]);
      eauto.
  - eauto.
Qed.

Lemma write_spsc fuel (q : disruptor_queue T) values reads value :
  spsc_invariant CAPACITY q values reads ->
  (1 <= fuel)%nat ->
  Z.of_nat (length values) - reads < CAPACITY ->
  Z.of_nat (length values) < INT64_MAX ->
  exists q', write CAPACITY fuel q 0 value = Some q' /\
             spsc_invariant CAPACITY q' (values ++ [value]) reads.
Proof.
  intros (Hb & Hs & Hn & Hr & (cached & Hw & Hc) & Hreads & Hfull & Hslots & Hold)
    Hfuel Hroom Hmax.
  pose proof CAPACITY_range as HC.
  destruct q as [b st nx rs ws]. simpl in *. subst nx rs ws.
  remember (Z.of_nat (length values)) as n eqn:En.
  unfold write, claim_sequence, wait_for_no_wrap, set_next_sequence. simpl.
  rewrite (to_int64_id (n + 1)) by (unfold INT64_MIN, INT64_MAX in *; lia).
  rewrite (to_int64_id CAPACITY) by (unfold INT64_MIN, INT64_MAX; lia).
  rewrite (to_int64_id (n - CAPACITY)) by (unfold INT64_MIN, INT64_MAX in *; lia).
  assert (Hstore_b : array_store b (index n) value = Some (<[slot n := value]> b)).
  { apply array_store_in_range. pose proof (index_range n). lia. }
  assert (Hstore_s : array_store st (index n) n = Some (<[slot n := n]> st)).
  { apply array_store_in_range. pose proof (index_range n). lia. }
  assert (Hinv : forall cached', cached' <= reads - 1 ->
    spsc_invariant CAPACITY
      {| _buffer := <[slot n := value]> b; _slot_sequences := <[slot n := n]> st;
         _next_sequence := n + 1; _readers := [reads - 1];
         _writers := [cached'] |} (values ++ [value]) reads).
  { intros cached' Hc'. unfold spsc_invariant. simpl.
    rewrite !length_insert, length_app. simpl.
    repeat split; try lia; eauto.
    - destruct (Z.eq_dec s n) as [->|Hne].
      + apply list_lookup_insert_eq. pose proof (slot_lt n). lia.
      + rewrite list_lookup_insert_ne by (apply slot_neq_near; lia).
        apply Hslots. lia.
    - destruct (Z.eq_dec s n) as [->|Hne].
      + rewrite list_lookup_insert_eq by (pose proof (slot_lt n); lia).
        rewrite En, Nat2Z.id.
        rewrite lookup_app_r by lia. rewrite Nat.sub_diag. reflexivity.
      + rewrite list_lookup_insert_ne by (apply slot_neq_near; lia).
        rewrite lookup_app_l by lia. apply Hslots. lia.
    - intros i stamp Hi.
      apply list_lookup_insert_Some in Hi as [(_ & <- & _)|(_ & Hi)]; [lia|].
      specialize (Hold _ _ Hi). lia. }
  destruct (Z.leb_spec (n - CAPACITY) cached) as [Hpass|Hwait].
  - simpl. rewrite Hstore_b. simpl. unfold commit_sequence. simpl.
    rewrite Hstore_s. simpl. eexists. split; [reflexivity|]. apply Hinv. lia.
  - set (q1 := {| _buffer := b; _slot_sequences := st; _next_sequence := n + 1;
                  _readers := [reads - 1]; _writers := [cached] |}).
    assert (Hmin : get_min_consumer_sequence q1 = reads - 1).
    { apply get_min_consumer_sequence_single; [reflexivity|].
      unfold INT64_MAX in *. lia. }
    destruct (wait_for_no_wrap_loop_exits fuel q1 (n - CAPACITY) cached)
      as (cached' & Hloop & Hcached'); [assumption|lia|].
    rewrite Hloop. simpl. rewrite Hstore_b. simpl. unfold commit_sequence. simpl.
    rewrite Hstore_s. simpl. eexists. split; [reflexivity|]. apply Hinv.
    destruct Hcached' as [->| ->]; lia.
Qed.

(** A matching slot sequence ends [wait_for_data] at the first load; a
    different one (smaller or greater) keeps the lone thread spinning. *)
Lemma wait_for_data_ready fuel (q : disruptor_queue T) read_index next :
  array_load (_slot_sequences q) read_index = Some next ->
  wait_for_data fuel q read_index next = Some tt.
Proof.
  intros Hload. destruct fuel; simpl; rewrite Hload; simpl;
    rewrite Z.eqb_refl; reflexivity.
Qed.

Lemma wait_for_data_spins fuel (q : disruptor_queue T) read_index next stamp :
  array_load (_slot_sequences q) read_index = Some stamp -> stamp <> next ->
  wait_for_data fuel q read_index next = None.
Proof.
  intros Hload Hne. apply Z.eqb_neq in Hne.
  induction fuel as [|fuel IH]; simpl; rewrite Hload; simpl; rewrite Hne; simpl;
    [reflexivity|assumption].
Qed.

Lemma wait_for_data_Some fuel (q : disruptor_queue T) read_index next :
  wait_for_data fuel q read_index next = Some tt ->
  array_load (_slot_sequences q) read_index = Some next.
Proof.
  intros H.
  destruct (array_load (_slot_sequences q) read_index) as [stamp|] eqn:Hload.
  - destruct (Z.eq_dec stamp next) as [->|Hne]; [reflexivity|].
    rewrite (wait_for_data_spins fuel q read_index next stamp) in H
      by assumption. discriminate.
  - destruct fuel; simpl in H; rewrite Hload in H; discriminate.
Qed.

Lemma array_load_slot {A} (a : list A) s :
  array_load a (index s) = a !! slot s.
Proof.
  unfold array_load. pose proof (index_range s).
  destruct (Z.leb_spec 0 (index s)); [reflexivity|lia].
Qed.

Lemma read_spsc fuel (q : disruptor_queue T) values reads :
  spsc_invariant CAPACITY q values reads ->
  reads < Z.of_nat (length values) ->
  Z.of_nat (length values) <= INT64_MAX ->
  exists value q',
    values !! Z.to_nat reads = Some value /\
    read CAPACITY fuel q 0 = Some (value, q') /\
    (forall output, read_into CAPACITY fuel q 0 output = Some (value, q')) /\
    spsc_invariant CAPACITY q' values (reads + 1).
Proof.
  intros (Hb & Hs & Hn & Hr & (cached & Hw & Hc) & Hreads & Hfull & Hslots & Hold)
    Hdata Hmax.
  destruct q as [b st nx rs ws]. simpl in *. subst nx rs ws.
  destruct (Hslots reads) as [Hstamp Hval]; [lia|].
  destruct (values !! Z.to_nat reads) as [value|] eqn:Hvalue.
  2:{ apply lookup_ge_None in Hvalue. lia. }
  assert (Hnext : to_int64 (reads - 1 + 1) = reads).
  { replace (reads - 1 + 1) with reads by lia.
    apply to_int64_id. unfold INT64_MIN, INT64_MAX in *. lia. }
  exists value. eexists. split; [reflexivity|].
  unfold read, read_into, get_next_read_sequence. simpl. rewrite Hnext.
  rewrite wait_for_data_ready by (rewrite array_load_slot; exact Hstamp).
  simpl. rewrite array_load_slot, Hval. simpl.
  split; [reflexivity|]. split; [reflexivity|].
  unfold spsc_invariant, update_consumer_sequence. simpl.
  replace (reads + 1 - 1) with reads by lia.
  repeat split; try lia; eauto.
  - exists cached. split; [reflexivity|lia].
  - apply Hslots. lia.
  - apply Hslots. lia.
Qed.

(** With the ring full the wrap check fails and the scan keeps
    returning the same minimum: the call does not return. *)
Lemma wait_for_no_wrap_loop_spins fuel (q : disruptor_queue T) wrap_point cached :
  cached < wrap_point -> get_min_consumer_sequence q < wrap_point ->
  wait_for_no_wrap_loop fuel q wrap_point cached = None.
Proof.
  intros Hc Hmin. revert cached Hc.
  induction fuel as [|fuel IH]; intros cached Hc; simpl;
    (destruct (Z.gtb_spec wrap_point cached); [|lia]).
  - reflexivity.
  - apply IH. exact Hmin.
Qed.

Lemma write_spsc_full fuel (q : disruptor_queue T) values reads value :
  spsc_invariant CAPACITY q values reads ->
  Z.of_nat (length values) - reads = CAPACITY ->
  Z.of_nat (length values) < INT64_MAX ->
  write CAPACITY fuel q 0 value = None.
Proof.
  intros (Hb & Hs & Hn & Hr & (cached & Hw & Hc) & Hreads & Hfull & Hslots & Hold)
    Hroom Hmax.
  pose proof CAPACITY_range as HC.
  destruct q as [b st nx rs ws]. simpl in *. subst nx rs ws.
  remember (Z.of_nat (length values)) as n eqn:En.
  unfold write, claim_sequence, wait_for_no_wrap, set_next_sequence. simpl.
  rewrite (to_int64_id CAPACITY) by (unfold INT64_MIN, INT64_MAX; lia).
  rewrite (to_int64_id (n - CAPACITY)) by (unfold INT64_MIN, INT64_MAX in *; lia).
  destruct (Z.leb_spec (n - CAPACITY) cached) as [Hpass|Hwait]; [lia|].
  rewrite wait_for_no_wrap_loop_spins; [reflexivity|lia|].
  erewrite get_min_consumer_sequence_single; [|reflexivity|];
    unfold INT64_MAX in *; lia.
Qed.

(** With nothing unread the awaited slot sequence is not there yet. *)
Lemma read_spsc_empty fuel (q : disruptor_queue T) values reads :
  spsc_invariant CAPACITY q values reads ->
  reads = Z.of_nat (length values) ->
  Z.of_nat (length values) <= INT64_MAX ->
  read CAPACITY fuel q 0 = None /\
  forall output, read_into CAPACITY fuel q 0 output = None.
Proof.
  intros (Hb & Hs & Hn & Hr & (cached & Hw & Hc) & Hreads & Hfull & Hslots & Hold)
    Hempty Hmax.
  pose proof CAPACITY_range as HC.
  destruct q as [b st nx rs ws]. simpl in *. subst nx rs ws.
  assert (Hnext : to_int64 (reads - 1 + 1) = reads).
  { replace (reads - 1 + 1) with reads by lia.
    apply to_int64_id. unfold INT64_MIN, INT64_MAX in *. lia. }
  assert (Hnone : read CAPACITY fuel
            {| _buffer := b; _slot_sequences := st;
               _next_sequence := Z.of_nat (length values);
               _readers := [reads - 1]; _writers := [cached] |} 0 = None).
  { unfold read, get_next_read_sequence. simpl. rewrite Hnext.
    destruct (st !! slot reads) as [stamp|] eqn:Hstamp.
    - rewrite (wait_for_data_spins fuel _ _ _ stamp); [reflexivity| |].
      + rewrite array_load_slot. exact Hstamp.
      + specialize (Hold _ _ Hstamp). lia.
    - apply lookup_ge_None in Hstamp. pose proof (slot_lt reads). lia. }
  split; [exact Hnone|]. intros output. exact Hnone.
Qed.

Lemma setup_spsc :
  spsc_invariant CAPACITY (setup value_init CAPACITY 1 1) [] 0.
Proof.
  pose proof CAPACITY_range.
  unfold spsc_invariant, setup. simpl.
  rewrite length_fmap, !length_replicate.
  repeat split; try lia.
  - exists INITIAL_SEQUENCE. split; [reflexivity|]. unfold INITIAL_SEQUENCE. lia.
  - intros i stamp Hi. rewrite list_lookup_fmap in Hi.
    destruct (replicate (Z.to_nat CAPACITY) 0 !! i); simplify_eq/=.
    unfold INITIAL_SEQUENCE. lia.
Qed.

Lemma run_spsc fuel ops :
  (1 <= fuel)%nat ->
  forall (q : disruptor_queue T) values reads,
    spsc_invariant CAPACITY q values reads ->
    admissible CAPACITY (Z.of_nat (length values) - reads) ops = true ->
    Z.of_nat (length values) + Z.of_nat (length ops) <= INT64_MAX ->
    exists delivered q',
      run CAPACITY fuel q ops = Some (delivered, q') /\
      delivered =
        take (read_count ops) (drop (Z.to_nat reads) (values ++ written ops)) /\
      length delivered = read_count ops.
Proof.
  intros Hfuel. induction ops as [|o ops IH]; intros q values reads Hinv Hadm Hmax.
  - exists [], q. simpl. auto.
  - assert (Hread : o <> OpWrite match o with OpWrite v => v | _ => value_init end ->
      exists delivered q',
        run CAPACITY fuel q (o :: ops) = Some (delivered, q') /\
        delivered =
          take (S (read_count ops))
            (drop (Z.to_nat reads) (values ++ written ops)) /\
        length delivered = S (read_count ops)).
    { intros Ho.
      assert (Hadm' : (0 <? Z.of_nat (length values) - reads) &&
                      admissible CAPACITY (Z.of_nat (length values) - reads - 1) ops
                      = true).
      { destruct o; [congruence|exact Hadm|exact Hadm]. }
      apply andb_true_iff in Hadm' as [Hdata Hrest]. apply Z.ltb_lt in Hdata.
      simpl in Hmax.
      destruct (read_spsc fuel q values reads Hinv) as
        (value & q' & Hvalue & Hrd & Hinto & Hinv'); [lia|lia|].
      destruct (IH q' values (reads + 1) Hinv') as (delivered & q'' & Hrun & Hd & Hlen).
      { replace (Z.of_nat (length values) - (reads + 1))
          with (Z.of_nat (length values) - reads - 1) by lia. exact Hrest. }
      { lia. }
      exists (value :: delivered), q''. split; [|split].
      - destruct o; [congruence| |]; simpl.
        + rewrite Hrd, Hrun. reflexivity.
        + rewrite Hinto, Hrun. reflexivity.
      - assert (Hl : (values ++ written ops) !! Z.to_nat reads = Some value).
        { rewrite lookup_app_l; [assumption|].
          apply lookup_lt_Some in Hvalue. assumption. }
        rewrite (drop_S _ _ _ Hl). simpl. f_equal.
        rewrite Hd. f_equal. f_equal.
        destruct Hinv as (_ & _ & _ & _ & _ & Hreads & _). lia.
      - simpl. rewrite Hlen. reflexivity. }
    destruct o as [value| |output].
    + simpl in Hadm, Hmax. apply andb_true_iff in Hadm as [Hroom Hrest].
      apply Z.ltb_lt in Hroom.
      destruct (write_spsc fuel q values reads value Hinv) as (q' & Hwr & Hinv');
        [assumption|lia|lia|].
      destruct (IH q' (values ++ [value]) reads Hinv') as
        (delivered & q'' & Hrun & Hd & Hlen).
      { rewrite length_app. simpl.
        replace (Z.of_nat (length values + 1) - reads)
          with (Z.of_nat (length values) - reads + 1) by lia. exact Hrest. }
      { rewrite length_app. simpl. lia. }
      exists delivered, q''. split; [|split].
      * simpl. rewrite Hwr. simpl. exact Hrun.
      * simpl. rewrite Hd, <- app_assoc. reflexivity.
      * simpl. exact Hlen.
    + apply Hread. discriminate.
    + apply Hread. discriminate.
Qed.

(** A client that is not admissible does not get through: the first
    call that would have to wait for another thread never returns. *)
Lemma run_spsc_blocks fuel ops :
  (1 <= fuel)%nat ->
  forall (q : disruptor_queue T) values reads,
    spsc_invariant CAPACITY q values reads ->
    admissible CAPACITY (Z.of_nat (length values) - reads) ops = false ->
    Z.of_nat (length values) + Z.of_nat (length ops) <= INT64_MAX ->
    run CAPACITY fuel q ops = None.
Proof.
  intros Hfuel. induction ops as [|o ops IH]; intros q values reads Hinv Hadm Hmax.
  - discriminate.
  - pose proof Hinv as (_ & _ & _ & _ & _ & Hreads & Hfull & _).
    assert (Hread : o <> OpWrite match o with OpWrite v => v | _ => value_init end ->
                    run CAPACITY fuel q (o :: ops) = None).
    { intros Ho.
      assert (Hadm' : (0 <? Z.of_nat (length values) - reads) &&
                      admissible CAPACITY (Z.of_nat (length values) - reads - 1) ops
                      = false).
      { destruct o; [congruence|exact Hadm|exact Hadm]. }
      simpl in Hmax.
      destruct (Z.ltb_spec 0 (Z.of_nat (length values) - reads)) as [Hdata|Hempty].
      - simpl in Hadm'.
        destruct (read_spsc fuel q values reads Hinv) as
          (value & q' & Hvalue & Hrd & Hinto & Hinv'); [lia|lia|].
        assert (Hrest : run CAPACITY fuel q' ops = None).
        { apply (IH q' values (reads + 1) Hinv'); [|lia].
          replace (Z.of_nat (length values) - (reads + 1))
            with (Z.of_nat (length values) - reads - 1) by lia. exact Hadm'. }
        destruct o; [congruence| |]; simpl.
        + rewrite Hrd, Hrest. reflexivity.
        + rewrite Hinto, Hrest. reflexivity.
      - destruct (read_spsc_empty fuel q values reads Hinv) as [Hrd Hinto];
          [lia|lia|].
        destruct o; [congruence| |]; simpl.
        + rewrite Hrd. reflexivity.
        + rewrite Hinto. reflexivity. }
    destruct o as [value| |output].
    + simpl in Hadm, Hmax. simpl.
      destruct (Z.ltb_spec (Z.of_nat (length values) - reads) CAPACITY)
        as [Hroom|Hfull'].
      * simpl in Hadm.
        destruct (write_spsc fuel q values reads value Hinv) as (q' & Hwr & Hinv');
          [assumption|lia|lia|].
        rewrite Hwr. simpl.
        apply (IH q' (values ++ [value]) reads Hinv').
        -- rewrite length_app. simpl.
           replace (Z.of_nat (length values + 1) - reads)
             with (Z.of_nat (length values) - reads + 1) by lia. exact Hadm.
        -- rewrite length_app. simpl. lia.
      * rewrite (write_spsc_full fuel q values reads value Hinv); [reflexivity| |];
          lia.
    + apply Hread. discriminate.
    + apply Hread. discriminate.
Qed.

(** C1: a client of one writer and one reader, created before any
    traffic, whose calls never have to wait for another thread: every
    call returns, and the k-th read delivers the k-th value written,
    by [read()] as the returned value and by [read(output)] as the new
    content of the destination, whatever it held before. *)
Theorem spsc_reads_in_write_order fuel ops :
  (1 <= fuel)%nat ->
  admissible CAPACITY 0 ops = true ->
  Z.of_nat (length ops) <= INT64_MAX ->
  exists delivered q',
    run CAPACITY fuel (setup value_init CAPACITY 1 1) ops = Some (delivered, q') /\
    length delivered = read_count ops /\
    forall k, (k < read_count ops)%nat ->
      exists value, delivered !! k = Some value /\ written ops !! k = Some value.
Proof.
  intros Hfuel Hadm Hmax.
  destruct (run_spsc fuel ops Hfuel _ [] 0 setup_spsc) as
    (delivered & q' & Hrun & Hd & Hlen); [exact Hadm|simpl; lia|].
  exists delivered, q'. split; [exact Hrun|]. split; [exact Hlen|].
  intros k Hk. simpl in Hd.
  destruct (delivered !! k) as [value|] eqn:Hv.
  2:{ apply lookup_ge_None in Hv. lia. }
  exists value. split; [reflexivity|].
  rewrite Hd in Hv. apply lookup_take_Some in Hv as [Hv _]. exact Hv.
Qed.

End Sequential.

End SequentialFacts.

(** ** disruptor_queue.hpp: the running queue *)

Module RunningFacts.
Import Machine BitUtils MachineFacts BitUtilsFacts Queue CapacityFacts.
Import SequentialFacts.

Section Running.

Context {T : Type} (value_init : T) (CAPACITY : Z).
Hypothesis capacity_valid : valid_capacity CAPACITY = true.

Local Abbreviation index := (index_from_sequence CAPACITY).
Local Abbreviation slot := (Queue.slot CAPACITY).
Local Abbreviation step := (@Queue.step T CAPACITY).
Local Abbreviation exec := (@Queue.exec T CAPACITY).
Local Abbreviation invariant := (@Queue.invariant T CAPACITY).
Local Abbreviation shared_invariant := (@Queue.shared_invariant T CAPACITY).
Local Abbreviation writer_inv := (@Queue.writer_inv T CAPACITY).
Local Abbreviation writers_invariant := (@Queue.writers_invariant T CAPACITY).
Local Abbreviation readers_invariant := (@Queue.readers_invariant T CAPACITY).
Local Abbreviation reader_inv := (@Queue.reader_inv T CAPACITY).
Local Abbreviation passed := (@Queue.passed T CAPACITY).

(** *** The set-up phase *)

Lemma setup_readers_only nr :
  Nat.iter nr (fun q => snd (create_reader q))
    (disruptor_queue_ctor value_init CAPACITY) =
  set_readers (disruptor_queue_ctor value_init CAPACITY)
    (replicate nr INITIAL_SEQUENCE).
Proof.
  induction nr as [|nr IH]; [reflexivity|].
  rewrite Nat.iter_succ, IH. unfold create_reader, set_readers. simpl.
  rewrite <- replicate_S_end. reflexivity.
Qed.

Lemma setup_eq nr nw :
  setup value_init CAPACITY nr nw =
  {| _buffer := replicate (Z.to_nat CAPACITY) value_init;
     _slot_sequences :=
       (fun _ => INITIAL_SEQUENCE) <$> replicate (Z.to_nat CAPACITY) 0;
     _next_sequence := 0;
     _readers := replicate nr INITIAL_SEQUENCE;
     _writers := replicate nw INITIAL_SEQUENCE |}.
Proof.
  unfold setup. rewrite setup_readers_only.
  induction nw as [|nw IH]; [reflexivity|].
  rewrite Nat.iter_succ, IH. unfold create_writer, set_writers. simpl.
  rewrite <- replicate_S_end. reflexivity.
Qed.

Lemma boot_invariant nr nw :
  invariant (boot value_init CAPACITY nr nw) [].
Proof.
  unfold boot. rewrite setup_eq. split; simpl.
  - split; simpl.
    + apply length_replicate.
    + rewrite length_fmap. apply length_replicate.
    + reflexivity.
    + reflexivity.
    + intros i stamp H. rewrite list_lookup_fmap in H.
      destruct (replicate (Z.to_nat CAPACITY) 0 !! i); simplify_eq/=. reflexivity.
    + intros i stamp H Hne. rewrite list_lookup_fmap in H.
      destruct (replicate (Z.to_nat CAPACITY) 0 !! i); simplify_eq/=.
    + intros s [=].
    + intros r c H. apply lookup_replicate in H as [-> _].
      unfold claims, INITIAL_SEQUENCE. simpl. split; [lia|]. intros s Hs. lia.
    + intros w cached H. apply lookup_replicate in H as [-> _].
      unfold INITIAL_SEQUENCE, INT64_MAX. split; [lia|].
      intros r c H. apply lookup_replicate in H as [-> _]. lia.
    + intros r c s _ [=].
    + intros r c H. apply lookup_replicate in H as [-> _]. split; reflexivity.
  - split; simpl.
    + rewrite !length_replicate. reflexivity.
    + intros w pc H. apply lookup_replicate in H as [-> _]. exact I.
    + intros w w' pc pc' s H. apply lookup_replicate in H as [-> _].
      intros _ [=].
  - split; simpl.
    + rewrite !length_replicate. reflexivity.
    + intros r c pc _ H. apply lookup_replicate in H as [-> _]. exact I.
Qed.

(** *** Traces grow at the front *)

Lemma published_mono (evs tr : list (event T)) s :
  published tr s = true -> published (evs ++ tr) s = true.
Proof.
  intros H. induction evs as [|e evs IH]; [assumption|].
  destruct e; simpl; try assumption. rewrite IH. apply orb_true_r.
Qed.

Lemma claims_nonneg (tr : list (event T)) : 0 <= claims tr.
Proof. unfold claims. lia. Qed.

(** *** Updating the program counters *)

Lemma writers_invariant_update (q : disruptor_queue T) tr pcs w pc' :
  writers_invariant q tr pcs ->
  writer_inv q tr w pc' ->
  (forall s w' pc'', claimed_of pc' = Some s -> pcs !! w' = Some pc'' ->
     claimed_of pc'' = Some s -> w' = w) ->
  writers_invariant q tr (<[w := pc']> pcs).
Proof.
  intros [Hlen Hw Hd] Hpc' Hfresh. split.
  - rewrite length_insert. exact Hlen.
  - intros w0 pc0 H.
    apply list_lookup_insert_Some in H as [(-> & <- & _)|(_ & H)];
      [exact Hpc'|apply Hw; exact H].
  - intros w1 w2 pc1 pc2 s H1 H2 Hc1 Hc2.
    apply list_lookup_insert_Some in H1 as [(<- & <- & _)|(Hne1 & H1)];
      apply list_lookup_insert_Some in H2 as [(<- & <- & _)|(Hne2 & H2)].
    + reflexivity.
    + symmetry. eapply Hfresh; eassumption.
    + eapply Hfresh; eassumption.
    + eapply Hd; eassumption.
Qed.

(** The common case: the thread keeps its claimed sequence or gives it
    up. *)
Lemma writers_invariant_advance (q : disruptor_queue T) tr pcs w pc pc' :
  writers_invariant q tr pcs ->
  pcs !! w = Some pc ->
  writer_inv q tr w pc' ->
  (forall s, claimed_of pc' = Some s -> claimed_of pc = Some s) ->
  writers_invariant q tr (<[w := pc']> pcs).
Proof.
  intros Hinv Hpc Hpc' Hkeep. apply writers_invariant_update; try assumption.
  intros s w' pc'' Hs Hw' Hs'.
  eapply inv_distinct; eauto.
Qed.

Lemma writers_invariant_frame (q q' : disruptor_queue T) tr tr' pcs :
  writers_invariant q tr pcs ->
  length (_writers q') = length (_writers q) ->
  (forall w pc, pcs !! w = Some pc -> writer_inv q tr w pc ->
     writer_inv q' tr' w pc) ->
  writers_invariant q' tr' pcs.
Proof.
  intros [Hlen Hw Hd] Hlen' Hframe. split.
  - congruence.
  - intros w pc H. apply Hframe; [exact H|apply Hw; exact H].
  - exact Hd.
Qed.

Lemma readers_invariant_update (q : disruptor_queue T) tr pcs r pc' :
  readers_invariant q tr pcs ->
  (forall c, _readers q !! r = Some c -> reader_inv tr c pc') ->
  readers_invariant q tr (<[r := pc']> pcs).
Proof.
  intros [Hlen Hr] Hpc'. split.
  - rewrite length_insert. exact Hlen.
  - intros r0 c pc Hc H.
    apply list_lookup_insert_Some in H as [(-> & <- & _)|(_ & H)];
      [apply Hpc'; exact Hc|eapply Hr; eassumption].
Qed.

Lemma readers_invariant_frame (q q' : disruptor_queue T) tr tr' pcs :
  readers_invariant q tr pcs ->
  length (_readers q') = length (_readers q) ->
  (forall r c c' pc, _readers q !! r = Some c -> _readers q' !! r = Some c' ->
     pcs !! r = Some pc -> reader_inv tr c pc -> reader_inv tr' c' pc) ->
  readers_invariant q' tr' pcs.
Proof.
  intros [Hlen Hr] Hlen' Hframe. split.
  - congruence.
  - intros r c' pc Hc' Hpc.
    destruct (_readers q !! r) as [c|] eqn:Hc.
    + eapply Hframe; try eassumption. eapply Hr; eassumption.
    + apply lookup_ge_None in Hc. apply lookup_lt_Some in Hc'. lia.
Qed.

(** *** The claim: [_next_sequence.fetch_add(1)] *)

Lemma claims_claim (tr : list (event T)) w s v :
  claims (EvClaim w s v :: tr) = claims tr + 1.
Proof. unfold claims. simpl. rewrite length_app. simpl. lia. Qed.

Lemma sequences_upto_S n :
  sequences_upto (S n) = sequences_upto n ++ [Z.of_nat n].
Proof. unfold sequences_upto. rewrite seq_S, fmap_app. reflexivity. Qed.

Lemma lookup_snoc_old {A} (l : list A) x i y :
  l !! i = Some y -> (l ++ [x]) !! i = Some y.
Proof.
  intros H. rewrite lookup_app_l; [exact H|].
  apply lookup_lt_Some in H. exact H.
Qed.

Lemma in_flight_claim (tr : list (event T)) w s v s' :
  in_flight tr s' -> in_flight (EvClaim w s v :: tr) s'.
Proof.
  intros [Hr Hp]. split; [|exact Hp]. rewrite claims_claim. lia.
Qed.

Lemma claim_shared_invariant (q : disruptor_queue T) tr w v :
  shared_invariant q tr ->
  no_wrap (EvClaim w (_next_sequence q) v :: tr) ->
  shared_invariant
    (set_next_sequence q (to_int64 (_next_sequence q + 1)))
    (EvClaim w (_next_sequence q) v :: tr).
Proof.
  intros [Hb Hs Hn Hcl Hlast Hstamp Hpub Hrd Hca Hslot Hrecv] Hnw.
  unfold no_wrap in Hnw. rewrite claims_claim in Hnw.
  pose proof (claims_nonneg tr) as Hnn.
  split; simpl; try assumption.
  - rewrite claims_claim, Hn.
    apply to_int64_id. unfold INT64_MIN, INT64_MAX in *. lia.
  - rewrite Hcl, length_app. simpl. rewrite Nat.add_1_r, sequences_upto_S.
    rewrite Hn. reflexivity.
  - intros s H. destruct (Hpub s H) as [Hr Hc]. rewrite claims_claim.
    split; [lia|exact Hc].
  - intros r c H. destruct (Hrd r c H) as [Hr Hc]. rewrite claims_claim.
    split; [lia|exact Hc].
  - intros r c s Hc Hp Hlt. destruct (Hslot r c s Hc Hp Hlt) as [H1 (v' & H2 & H3)].
    split; [exact H1|]. exists v'. split; [exact H2|].
    apply lookup_snoc_old; exact H3.
  - intros r c Hc. destruct (Hrecv r c Hc) as [H1 H2]. split; [|exact H2].
    rewrite take_app_le; [exact H1|].
    destruct (Hrd r c Hc) as [Hr _]. unfold claims in Hr. lia.
Qed.

Lemma writer_inv_claim (q : disruptor_queue T) tr w0 v0 n w pc :
  writer_inv q tr w pc ->
  writer_inv (set_next_sequence q n) (EvClaim w0 (_next_sequence q) v0 :: tr) w pc.
Proof.
  destruct pc as [|s v|s v|s v j m|s v|s i]; simpl; try tauto.
  - intros [H1 H2]. split; [apply in_flight_claim; exact H1|].
    apply lookup_snoc_old; exact H2.
  - intros [H1 H2]. split; [apply in_flight_claim; exact H1|].
    apply lookup_snoc_old; exact H2.
  - intros (H1 & H2 & H3 & H4). split; [apply in_flight_claim; exact H1|].
    split; [apply lookup_snoc_old; exact H2|]. split; assumption.
  - intros (H1 & H2 & H3). split; [apply in_flight_claim; exact H1|].
    split; [apply lookup_snoc_old; exact H2|exact H3].
  - intros (H1 & H2 & H3 & H4). split; [apply in_flight_claim; exact H1|].
    split; [exact H2|]. split; [exact H3|].
    intros Hne. destruct (H4 Hne) as (v' & H5 & H6). exists v'.
    split; [exact H5|]. apply lookup_snoc_old; exact H6.
Qed.

Lemma reader_inv_claim (tr : list (event T)) w s v c pc :
  reader_inv tr c pc -> reader_inv (EvClaim w s v :: tr) c pc.
Proof.
  destruct pc as [|next i o|next i o|next v']; simpl; try tauto.
  intros (H1 & H2 & H3). split; [exact H1|]. split; [exact H2|].
  apply lookup_snoc_old; exact H3.
Qed.

Lemma claim_invariant σ tr w v :
  invariant σ tr ->
  writer_pcs σ !! w = Some WIdle ->
  no_wrap (EvClaim w (_next_sequence (shared σ)) v :: tr) ->
  invariant
    {| shared := set_next_sequence (shared σ)
                   (to_int64 (_next_sequence (shared σ) + 1));
       writer_pcs := <[w := WWrapCheck (_next_sequence (shared σ)) v]>
                       (writer_pcs σ);
       reader_pcs := reader_pcs σ |}
    (EvClaim w (_next_sequence (shared σ)) v :: tr).
Proof.
  intros [Hsh Hws Hrs] Hidle Hnw. pose proof (claims_nonneg tr) as Hnn.
  pose proof (inv_next _ _ _ Hsh) as Hn.
  split; simpl.
  - apply claim_shared_invariant; assumption.
  - apply writers_invariant_update.
    + eapply writers_invariant_frame; [exact Hws|reflexivity|].
      intros w0 pc0 _ H. apply writer_inv_claim. exact H.
    + simpl. split.
      * split; [rewrite claims_claim; lia|]. simpl.
        destruct (published tr (_next_sequence (shared σ))) eqn:Hp; [|reflexivity].
        destruct (inv_published _ _ _ Hsh _ Hp) as [Hr _]. lia.
      * rewrite Hn. unfold claims. rewrite Nat2Z.id.
        rewrite lookup_app_r by lia. rewrite Nat.sub_diag. reflexivity.
    + simpl. intros s w' pc'' [= <-] Hw' Hs'.
      pose proof (inv_writer _ _ _ _ Hws _ _ Hw') as Hpc''.
      assert (Hfl : in_flight tr (_next_sequence (shared σ))).
      { destruct pc''; simpl in Hs'; simplify_eq; simpl in Hpc''; tauto. }
      destruct Hfl as [Hr _]. lia.
  - eapply readers_invariant_frame; [exact Hrs|reflexivity|].
    intros r c c' pc Hc Hc' _ H. simpl in Hc'.
    assert (c' = c) as -> by congruence. apply reader_inv_claim. exact H.
Qed.

(** *** Refreshing the cache: the end of [get_min_consumer_sequence] *)

Lemma writer_inv_set_writers (q : disruptor_queue T) tr w m w0 pc :
  w0 <> w ->
  writer_inv q tr w0 pc ->
  writer_inv (set_writers q (<[w := m]> (_writers q))) tr w0 pc.
Proof.
  intros Hne.
  destruct pc as [|s v|s v|s v j k|s v|s i]; simpl; unfold Queue.passed; simpl;
    try tauto.
  - intros (H1 & H2 & cached & H3 & H4). split; [exact H1|]. split; [exact H2|].
    exists cached. rewrite list_lookup_insert_ne by congruence. auto.
  - intros (H1 & (cached & H3 & H4) & H5). split; [exact H1|]. split; [|exact H5].
    exists cached. rewrite list_lookup_insert_ne by congruence. auto.
Qed.

Lemma refresh_invariant σ tr w pc s v m :
  invariant σ tr ->
  writer_pcs σ !! w = Some pc ->
  claimed_of pc = Some s ->
  in_flight tr s ->
  claimed_values tr !! Z.to_nat s = Some v ->
  -1 <= m <= INT64_MAX ->
  (forall r c, _readers (shared σ) !! r = Some c -> m <= c) ->
  invariant
    {| shared := set_writers (shared σ) (<[w := m]> (_writers (shared σ)));
       writer_pcs := <[w := WWrapLoop s v]> (writer_pcs σ);
       reader_pcs := reader_pcs σ |} tr.
Proof.
  intros [Hsh Hws Hrs] Hpc Hs Hfl Hv Hm Hmin. split; simpl.
  - destruct Hsh as [Hb Hsl Hn Hcl Hlast Hstamp Hpub Hrd Hca Hslot Hrecv].
    split; simpl; try assumption.
    intros w0 cached H.
    apply list_lookup_insert_Some in H as [(-> & <- & _)|(_ & H)].
    + split; [exact Hm|exact Hmin].
    + apply Hca with w0. exact H.
  - assert (Hadv : writers_invariant (shared σ) tr
                     (<[w := WWrapLoop s v]> (writer_pcs σ))).
    { eapply writers_invariant_advance; [exact Hws|exact Hpc| |].
      - simpl. split; assumption.
      - simpl. intros s' [= <-]. exact Hs. }
    eapply writers_invariant_frame; [exact Hadv| |].
    + simpl. apply length_insert.
    + intros w0 pc0 H Hinv.
      apply list_lookup_insert_Some in H as [(-> & <- & _)|(Hne & H)].
      * exact Hinv.
      * apply writer_inv_set_writers; [congruence|exact Hinv].
  - eapply readers_invariant_frame; [exact Hrs|reflexivity|].
    intros r c c' pc0 Hc Hc' _ H. simpl in Hc'. congruence.
Qed.

(** *** No two owners of a slot

    A writer that has passed the wrap check owns its slot: whatever is
    published there has been consumed by every reader, and no other
    writer that has passed the check maps to the same slot. *)

Lemma passed_slot_consumed (q : disruptor_queue T) tr w s r c x :
  shared_invariant q tr ->
  in_flight tr s -> passed q w s ->
  _readers q !! r = Some c ->
  published tr x = true -> slot x = slot s ->
  x <= c.
Proof.
  intros Hsh [Hs Hunpub] (cached & Hcached & Hpass) Hc Hx Hslot.
  destruct (inv_cache _ _ _ Hsh _ _ Hcached) as [_ Hle].
  specialize (Hle _ _ Hc).
  destruct (Z.lt_trichotomy x s) as [Hlt|[->|Hgt]].
  - pose proof (slot_eq_apart CAPACITY capacity_valid s x (eq_sym Hslot) Hlt). lia.
  - congruence.
  - pose proof (slot_eq_apart CAPACITY capacity_valid x s Hslot Hgt) as Hfar.
    destruct (inv_published _ _ _ Hsh _ Hx) as [_ Hback].
    specialize (Hback _ _ Hc).
    destruct (inv_reader _ _ _ Hsh _ _ Hc) as [_ Hseen].
    rewrite Hseen in Hunpub by lia. discriminate.
Qed.

Lemma passed_slots_differ (q : disruptor_queue T) tr w s w' s' :
  shared_invariant q tr ->
  in_flight tr s -> passed q w s ->
  in_flight tr s' -> passed q w' s' ->
  s <> s' -> _readers q <> [] ->
  slot s <> slot s'.
Proof.
  intros Hsh [Hs Hunpub] (cached & Hcached & Hpass)
    [Hs' Hunpub'] (cached' & Hcached' & Hpass') Hne Hreaders Hslot.
  destruct (_readers q) as [|c rs] eqn:Hrs; [congruence|].
  assert (Hc : _readers q !! 0%nat = Some c) by (rewrite Hrs; reflexivity).
  destruct (inv_cache _ _ _ Hsh _ _ Hcached) as [_ Hle].
  destruct (inv_cache _ _ _ Hsh _ _ Hcached') as [_ Hle'].
  specialize (Hle _ _ Hc). specialize (Hle' _ _ Hc).
  destruct (inv_reader _ _ _ Hsh _ _ Hc) as [_ Hseen].
  destruct (Z.lt_trichotomy s s') as [Hlt|[->|Hgt]]; [|congruence|].
  - pose proof (slot_eq_apart CAPACITY capacity_valid s' s (eq_sym Hslot) Hlt).
    rewrite Hseen in Hunpub by lia. discriminate.
  - pose proof (slot_eq_apart CAPACITY capacity_valid s s' Hslot Hgt).
    rewrite Hseen in Hunpub' by lia. discriminate.
Qed.

(** *** The payload store *)

Lemma store_event_invariant σ tr w s i :
  invariant σ tr -> invariant σ (EvStore w s i :: tr).
Proof.
  intros [[Hb Hsl Hn Hcl Hlast Hstamp Hpub Hrd Hca Hslot Hrecv]
          [Hwl Hw Hd] [Hrl Hr]].
  split; split; assumption.
Qed.

Lemma store_invariant σ tr w s v :
  invariant σ tr ->
  writer_pcs σ !! w = Some (WStore s v) ->
  invariant
    {| shared := set_buffer (shared σ) (<[slot s := v]> (_buffer (shared σ)));
       writer_pcs := <[w := WCommit s (index s)]> (writer_pcs σ);
       reader_pcs := reader_pcs σ |} tr.
Proof.
  intros [Hsh Hws Hrs] Hpc.
  destruct (inv_writer _ _ _ _ Hws _ _ Hpc) as (Hfl & Hv & Hpass).
  split; simpl.
  - pose proof Hsh as [Hb Hsl Hn Hcl Hlast Hstamp Hpub Hrd Hca Hslot Hrecv].
    split; simpl; try assumption.
    + rewrite length_insert. exact Hb.
    + intros r c x Hc Hx Hlt.
      destruct (Hslot r c x Hc Hx Hlt) as [H1 (v' & H2 & H3)].
      split; [exact H1|]. exists v'. split; [|exact H3].
      rewrite list_lookup_insert_ne; [exact H2|].
      intros Heq.
      pose proof (passed_slot_consumed _ _ _ _ _ _ _ Hsh Hfl Hpass Hc Hx
                    (eq_sym Heq)). lia.
  - apply writers_invariant_update.
    + eapply writers_invariant_frame; [exact Hws|reflexivity|].
      intros w0 pc0 Hpc0 Hinv0.
      destruct pc0 as [|s0 v0|s0 v0|s0 v0 j k|s0 v0|s0 i0]; try exact Hinv0.
      destruct Hinv0 as (Hfl0 & Hpass0 & Hi0 & Hbuf0).
      split; [exact Hfl0|]. split; [exact Hpass0|]. split; [exact Hi0|].
      simpl. intros Hne. destruct (Hbuf0 Hne) as (v' & H1 & H2).
      exists v'. split; [|exact H2].
      rewrite list_lookup_insert_ne; [exact H1|].
      assert (Hs0 : s <> s0).
      { intros ->.
        pose proof (inv_distinct _ _ _ _ Hws _ _ _ _ s0 Hpc Hpc0 eq_refl eq_refl).
        congruence. }
      eapply passed_slots_differ; eauto.
    + simpl. split; [exact Hfl|]. split; [exact Hpass|]. split; [reflexivity|].
      intros _. exists v. split; [|exact Hv].
      apply list_lookup_insert_eq.
      rewrite (inv_buffer_length _ _ _ Hsh).
      apply (slot_lt CAPACITY capacity_valid).
    + simpl. intros s' w' pc'' [= <-] Hw' Hs'.
      eapply inv_distinct; eauto.
  - eapply readers_invariant_frame; [exact Hrs|reflexivity|].
    intros r c c' pc0 Hc Hc' _ H. simpl in Hc'. congruence.
Qed.

(** *** The publication: the store of the slot sequence *)

Lemma in_flight_publish (tr : list (event T)) w s i s' :
  s <> s' -> in_flight tr s' -> in_flight (EvPublish w s i :: tr) s'.
Proof.
  intros Hne [Hr Hp]. split; [exact Hr|]. simpl.
  apply Z.eqb_neq in Hne. rewrite Hne, Hp. reflexivity.
Qed.

Lemma published_publish (tr : list (event T)) w s i s' :
  published tr s' = true -> published (EvPublish w s i :: tr) s' = true.
Proof. intros H. simpl. rewrite H. apply orb_true_r. Qed.

Lemma reader_inv_publish (tr : list (event T)) w s i c pc :
  reader_inv tr c pc -> reader_inv (EvPublish w s i :: tr) c pc.
Proof.
  destruct pc as [|next k o|next k o|next v']; simpl; try tauto.
  - intros (H1 & H2 & H3). rewrite H3, orb_true_r. auto.
  - intros (H1 & H2 & H3). rewrite H2, orb_true_r. auto.
Qed.

Lemma commit_invariant σ tr w s i :
  invariant σ tr ->
  writer_pcs σ !! w = Some (WCommit s i) ->
  invariant
    {| shared := set_slot_sequences (shared σ)
                   (<[Z.to_nat i := s]> (_slot_sequences (shared σ)));
       writer_pcs := <[w := WIdle]> (writer_pcs σ);
       reader_pcs := reader_pcs σ |}
    (EvPublish w s i :: tr).
Proof.
  intros [Hsh Hws Hrs] Hpc.
  destruct (inv_writer _ _ _ _ Hws _ _ Hpc) as (Hfl & Hpass & -> & Hbuf).
  fold (slot s).
  pose proof (slot_lt CAPACITY capacity_valid s) as Hslt.
  pose proof (slot_index CAPACITY capacity_valid s) as Hsi.
  pose proof Hsh as [Hb Hsl Hn Hcl Hlast Hstamp Hpub Hrd Hca Hslot Hrecv].
  split; simpl.
  - split; simpl; try assumption.
    + rewrite length_insert. exact Hsl.
    + intros k stamp H.
      apply list_lookup_insert_Some in H as [(<- & <- & _)|(Hne & H)].
      * rewrite Hsi, Z.eqb_refl. reflexivity.
      * destruct (Z.eqb_spec (index s) (Z.of_nat k)) as [Heq|_]; [|auto].
        exfalso. apply Hne. unfold Queue.slot. rewrite Heq. apply Nat2Z.id.
    + intros k stamp H Hinit.
      apply list_lookup_insert_Some in H as [(<- & <- & _)|(Hne & H)].
      * rewrite Z.eqb_refl. auto.
      * destruct (Hstamp k stamp H Hinit) as [H1 H2]. rewrite H1, orb_true_r. auto.
    + intros x Hx.
      destruct (Z.eqb_spec s x) as [Heq|Hne]; [subst x|].
      * split; [apply Hfl|].
        destruct Hpass as (cached & Hcached & Hle).
        intros r c Hc. destruct (Hca _ _ Hcached) as [_ Hmin].
        specialize (Hmin _ _ Hc). lia.
      * apply Hpub. exact Hx.
    + intros r c Hc. destruct (Hrd r c Hc) as [H1 H2]. split; [exact H1|].
      intros x Hx. rewrite (H2 x Hx). apply orb_true_r.
    + intros r c x Hc Hx Hlt.
      destruct (Z.eqb_spec s x) as [Heq|Hne]; [subst x|].
      * split; [apply list_lookup_insert_eq; lia|].
        apply Hbuf. intros Hnil. rewrite Hnil in Hc. discriminate.
      * simpl in Hx. destruct (Hslot r c x Hc Hx Hlt) as [H1 H2].
        split; [|exact H2].
        rewrite list_lookup_insert_ne; [exact H1|].
        intros Heq.
        pose proof (passed_slot_consumed _ _ _ _ _ _ _ Hsh Hfl Hpass Hc Hx
                      (eq_sym Heq)). lia.
  - assert (Hidle : writers_invariant (shared σ) tr
                      (<[w := WIdle]> (writer_pcs σ))).
    { eapply writers_invariant_advance; [exact Hws|exact Hpc|exact I|].
      simpl. intros s' [=]. }
    eapply writers_invariant_frame; [exact Hidle|reflexivity|].
    intros w0 pc0 Hpc0 Hinv0.
    apply list_lookup_insert_Some in Hpc0 as [(-> & <- & _)|(Hw0 & Hpc0)];
      [exact I|].
    assert (Hother : forall s0, claimed_of pc0 = Some s0 -> s <> s0).
    { intros s0 Hs0 ->. apply Hw0.
      eapply (inv_distinct _ _ _ _ Hws w w0); eauto. }
    destruct pc0 as [|s0 v0|s0 v0|s0 v0 j k|s0 v0|s0 i0]; simpl in *.
    + exact I.
    + destruct Hinv0 as [H1 H2]. split; [|exact H2].
      apply in_flight_publish; auto.
    + destruct Hinv0 as [H1 H2]. split; [|exact H2].
      apply in_flight_publish; auto.
    + destruct Hinv0 as (H1 & H2 & H3). split; [|split; assumption].
      apply in_flight_publish; auto.
    + destruct Hinv0 as (H1 & H2 & H3). split; [|split; assumption].
      apply in_flight_publish; auto.
    + destruct Hinv0 as (H1 & H2 & H3 & H4). split; [|repeat split; assumption].
      apply in_flight_publish; auto.
  - eapply readers_invariant_frame; [exact Hrs|reflexivity|].
    intros r c c' pc0 Hc Hc' _ H. simpl in Hc'.
    assert (c' = c) as -> by congruence. apply reader_inv_publish. exact H.
Qed.

(** *** The end of a read: the store of the consumer sequence *)

Lemma writer_inv_update_reader (q : disruptor_queue T) tr r c w0 v0 x pc :
  _readers q !! r = Some c ->
  writer_inv q tr w0 pc ->
  writer_inv (update_consumer_sequence q r (c + 1))
    (EvRead r x v0 :: tr) w0 pc.
Proof.
  intros Hc.
  assert (Hne : _readers q <> [] -> <[r := c + 1]> (_readers q) <> []).
  { intros _ Hnil. apply (f_equal length) in Hnil.
    rewrite length_insert in Hnil. apply lookup_lt_Some in Hc.
    simpl in Hnil. lia. }
  destruct pc as [|s v|s v|s v j k|s v|s i]; simpl; try tauto.
  - intros (H1 & H2 & H3 & H4).
    split; [exact H1|]. split; [exact H2|]. split; [exact H3|].
    intros r0 c0 Hlt H0.
    apply list_lookup_insert_Some in H0 as [(-> & <- & _)|(_ & H0)].
    + specialize (H4 _ _ Hlt Hc). lia.
    + eapply H4; eassumption.
  - intros (H1 & H2 & H3 & H4).
    split; [exact H1|]. split; [exact H2|]. split; [exact H3|].
    intros _. apply H4. intros Hnil. rewrite Hnil in Hc. discriminate.
Qed.

Lemma claims_read (tr : list (event T)) r s v :
  claims (EvRead r s v :: tr) = claims tr.
Proof. reflexivity. Qed.

Lemma update_invariant σ tr r next v :
  invariant σ tr ->
  reader_pcs σ !! r = Some (RUpdate next v) ->
  is_Some (_readers (shared σ) !! r) ->
  invariant
    {| shared := update_consumer_sequence (shared σ) r next;
       writer_pcs := writer_pcs σ;
       reader_pcs := <[r := RIdle]> (reader_pcs σ) |}
    (EvRead r next v :: tr).
Proof.
  intros [Hsh Hws Hrs] Hpc [c Hc].
  destruct (inv_reader_pc _ _ _ _ Hrs _ _ _ Hc Hpc) as (-> & Hnext & Hv).
  pose proof Hsh as [Hb Hsl Hn Hcl Hlast Hstamp Hpub Hrd Hca Hslot Hrecv].
  destruct (Hrd _ _ Hc) as [Hcr Hseen].
  destruct (Hpub _ Hnext) as [Hnr _].
  split; simpl.
  - split; simpl; rewrite ?claims_read; try assumption.
    + intros x Hx. destruct (Hpub x Hx) as [H1 H2]. split; [exact H1|].
      intros r0 c0 H0.
      apply list_lookup_insert_Some in H0 as [(-> & <- & _)|(_ & H0)].
      * specialize (H2 _ _ Hc). lia.
      * eapply H2; eassumption.
    + intros r0 c0 H0.
      apply list_lookup_insert_Some in H0 as [(-> & <- & _)|(_ & H0)].
      * split; [lia|]. intros x Hx.
        destruct (Z.eq_dec x (c + 1)) as [->|Hne]; [exact Hnext|].
        apply Hseen. lia.
      * apply Hrd with r0. exact H0.
    + intros w cached Hcached. destruct (Hca _ _ Hcached) as [H1 H2].
      split; [exact H1|]. intros r0 c0 H0.
      apply list_lookup_insert_Some in H0 as [(-> & <- & _)|(_ & H0)].
      * specialize (H2 _ _ Hc). lia.
      * eapply H2; eassumption.
    + intros r0 c0 x H0 Hx Hlt.
      apply list_lookup_insert_Some in H0 as [(-> & <- & _)|(_ & H0)].
      * apply (Hslot _ _ x Hc Hx). lia.
      * apply (Hslot _ _ x H0 Hx Hlt).
    + intros r0 c0 H0.
      apply list_lookup_insert_Some in H0 as [(-> & <- & _)|(Hne & H0)].
      * rewrite Nat.eqb_refl. destruct (Hrecv _ _ Hc) as [H1 H2].
        replace (Z.to_nat (c + 1 + 1)) with (S (Z.to_nat (c + 1))) by lia.
        rewrite (take_S_r _ _ _ Hv), sequences_upto_S, H1, H2.
        rewrite Z2Nat.id by lia. auto.
      * destruct (Nat.eqb_spec r r0) as [Heq|_]; [congruence|].
        apply Hrecv. exact H0.
  - eapply writers_invariant_frame; [exact Hws|reflexivity|].
    intros w0 pc0 _ H. apply writer_inv_update_reader; assumption.
  - assert (Hidle : readers_invariant (shared σ) tr
                      (<[r := RIdle]> (reader_pcs σ))).
    { apply readers_invariant_update; [exact Hrs|]. intros c0 _. exact I. }
    eapply readers_invariant_frame; [exact Hidle| |].
    + simpl. apply length_insert.
    + intros r0 c0 c0' pc0 H0 H0' Hpc0 Hinv0. simpl in H0'.
      apply list_lookup_insert_Some in Hpc0 as [(-> & <- & _)|(Hne & Hpc0)];
        [exact I|].
      rewrite list_lookup_insert_ne in H0' by congruence.
      assert (c0' = c0) as -> by congruence.
      destruct pc0 as [|nx k o|nx k o|nx v']; simpl in *; try tauto.
Qed.

(** *** Steps that move one program counter only *)

Lemma writer_advance_invariant σ tr w pc pc' :
  invariant σ tr ->
  writer_pcs σ !! w = Some pc ->
  writer_inv (shared σ) tr w pc' ->
  (forall s, claimed_of pc' = Some s -> claimed_of pc = Some s) ->
  invariant
    {| shared := shared σ; writer_pcs := <[w := pc']> (writer_pcs σ);
       reader_pcs := reader_pcs σ |} tr.
Proof.
  intros [Hsh Hws Hrs] Hpc Hpc' Hkeep. split; simpl; try assumption.
  eapply writers_invariant_advance; eassumption.
Qed.

Lemma reader_advance_invariant σ tr r pc' :
  invariant σ tr ->
  (forall c, _readers (shared σ) !! r = Some c -> reader_inv tr c pc') ->
  invariant
    {| shared := shared σ; writer_pcs := writer_pcs σ;
       reader_pcs := <[r := pc']> (reader_pcs σ) |} tr.
Proof.
  intros [Hsh Hws Hrs] Hpc'. split; simpl; try assumption.
  apply readers_invariant_update; assumption.
Qed.

Lemma wrap_point_exact (tr : list (event T)) s :
  no_wrap tr -> in_flight tr s ->
  to_int64 (s - to_int64 CAPACITY) = s - CAPACITY.
Proof.
  intros Hnw [Hs _]. pose proof CAPACITY_range CAPACITY capacity_valid as HC.
  unfold no_wrap in Hnw.
  rewrite (to_int64_id CAPACITY) by (unfold INT64_MIN, INT64_MAX; lia).
  apply to_int64_id. unfold INT64_MIN, INT64_MAX in *. lia.
Qed.

(** *** Every step preserves the invariant *)

Lemma step_no_wrap σ (tr : list (event T)) a σ' evs :
  step σ a = Some (σ', evs) -> no_wrap (evs ++ tr) -> no_wrap tr.
Proof.
  unfold no_wrap. intros Hstep H.
  enough (claims tr <= claims (evs ++ tr)) by lia.
  clear H Hstep. induction evs as [|e evs IH]; [simpl; lia|].
  destruct e; simpl; try exact IH.
  change (claims tr <= claims (EvClaim w claimed_sequence value :: (evs ++ tr))).
  rewrite claims_claim. lia.
Qed.

Lemma step_invariant σ tr a σ' evs :
  invariant σ tr ->
  step σ a = Some (σ', evs) ->
  no_wrap (evs ++ tr) ->
  invariant σ' (evs ++ tr).
Proof.
  intros Hinv Hstep Hnw'.
  pose proof (step_no_wrap _ _ _ _ _ Hstep Hnw') as Hnw.
  pose proof Hinv as [Hsh Hws Hrs].
  unfold Queue.step, writer_moves, reader_moves in Hstep.
  destruct a as [w value|w|r output|r].
  - (* write(value) is entered *)
    destruct (writer_pcs σ !! w) as [pc|] eqn:Hpc; simpl in Hstep; [|discriminate].
    destruct (_writers (shared σ) !! w) as [cached|] eqn:Hcached;
      simpl in Hstep; [|discriminate].
    destruct pc; try discriminate. injection Hstep as <- <-.
    apply claim_invariant; assumption.
  - (* writer w runs *)
    destruct (writer_pcs σ !! w) as [pc|] eqn:Hpc; simpl in Hstep; [|discriminate].
    destruct (_writers (shared σ) !! w) as [cached|] eqn:Hcached;
      simpl in Hstep; [|discriminate].
    pose proof (inv_writer _ _ _ _ Hws _ _ Hpc) as Hpcinv.
    destruct pc as [|s v|s v|s v j m|s v|s i]; [discriminate| | | | |].
    + destruct Hpcinv as [Hfl Hv].
      rewrite (wrap_point_exact tr s Hnw Hfl) in Hstep.
      destruct (Z.leb_spec (s - CAPACITY) cached) as [Hle|Hgt];
        injection Hstep as <- <-; simpl;
        (eapply writer_advance_invariant; [exact Hinv|exact Hpc| |]);
        simpl; auto.
      split; [exact Hfl|]. split; [exact Hv|]. exists cached. auto.
    + destruct Hpcinv as [Hfl Hv].
      rewrite (wrap_point_exact tr s Hnw Hfl) in Hstep.
      destruct (Z.gtb_spec (s - CAPACITY) cached) as [Hgt|Hle].
      * destruct (_readers (shared σ)) as [|c0 rs] eqn:Hreaders;
          injection Hstep as <- <-; simpl.
        -- eapply refresh_invariant; eauto.
           ++ unfold INT64_MAX. lia.
           ++ intros r c H. rewrite Hreaders in H. discriminate.
        -- eapply writer_advance_invariant; [exact Hinv|exact Hpc| |]; simpl; auto.
           split; [exact Hfl|]. split; [exact Hv|].
           split; [unfold INT64_MAX; lia|]. intros r c Hlt. lia.
      * injection Hstep as <- <-; simpl.
        eapply writer_advance_invariant; [exact Hinv|exact Hpc| |]; simpl; auto.
        split; [exact Hfl|]. split; [exact Hv|]. exists cached. auto.
    + destruct Hpcinv as (Hfl & Hv & Hm & Hscan).
      destruct (_readers (shared σ) !! j) as [reader_seq|] eqn:Hj;
        injection Hstep as <- <-; simpl.
      * eapply writer_advance_invariant; [exact Hinv|exact Hpc| |]; simpl; auto.
        split; [exact Hfl|]. split; [exact Hv|].
        destruct (inv_reader _ _ _ Hsh _ _ Hj) as [Hrj _].
        split; [lia|]. intros r c Hlt Hc.
        destruct (decide (r = j)) as [->|Hne].
        -- assert (c = reader_seq) as -> by congruence. lia.
        -- assert (m <= c) by (apply (Hscan r c); [lia|exact Hc]). lia.
      * eapply refresh_invariant; eauto.
        intros r c Hc. apply (Hscan r c); [|exact Hc].
        apply lookup_ge_None in Hj. apply lookup_lt_Some in Hc. lia.
    + destruct (array_store (_buffer (shared σ)) (index s) v) as [b|] eqn:Hstore;
        simpl in Hstep; [|discriminate].
      injection Hstep as <- <-.
      apply array_store_Some in Hstore as (_ & _ & ->).
      apply store_event_invariant. apply store_invariant; assumption.
    + destruct (array_store (_slot_sequences (shared σ)) i s) as [st|] eqn:Hstore;
        simpl in Hstep; [|discriminate].
      injection Hstep as <- <-.
      apply array_store_Some in Hstore as (_ & _ & ->).
      apply commit_invariant; assumption.
  - (* read() or read(output) is entered *)
    destruct (reader_pcs σ !! r) as [pc|] eqn:Hpc; simpl in Hstep; [|discriminate].
    destruct (_readers (shared σ) !! r) as [c|] eqn:Hc;
      simpl in Hstep; [|discriminate].
    destruct pc; try discriminate. injection Hstep as <- <-. simpl.
    apply reader_advance_invariant; [exact Hinv|].
    intros c0 Hc0. assert (c0 = c) as -> by congruence. simpl.
    destruct (inv_reader _ _ _ Hsh _ _ Hc) as [Hcr _].
    unfold no_wrap in Hnw.
    rewrite (to_int64_id (c + 1)) by (unfold INT64_MIN, INT64_MAX in *; lia).
    auto.
  - (* reader r runs *)
    destruct (reader_pcs σ !! r) as [pc|] eqn:Hpc; simpl in Hstep; [|discriminate].
    destruct (_readers (shared σ) !! r) as [c|] eqn:Hc;
      simpl in Hstep; [|discriminate].
    pose proof (inv_reader_pc _ _ _ _ Hrs _ _ _ Hc Hpc) as Hpcinv.
    destruct (inv_reader _ _ _ Hsh _ _ Hc) as [Hcr _].
    destruct pc as [|next i o|next i o|next v]; [discriminate| | |].
    + destruct Hpcinv as [-> ->].
      destruct (array_load (_slot_sequences (shared σ)) (index (c + 1)))
        as [stamp|] eqn:Hload; simpl in Hstep; [|discriminate].
      destruct (Z.eqb_spec stamp (c + 1)) as [->|Hne];
        injection Hstep as <- <-; simpl;
        (apply reader_advance_invariant; [exact Hinv|]);
        intros c0 Hc0; (assert (c0 = c) as -> by congruence); simpl; auto.
      split; [reflexivity|]. split; [reflexivity|].
      apply array_load_Some in Hload as [_ Hload].
      apply (inv_stamp_published _ _ _ Hsh _ _ Hload).
      unfold INITIAL_SEQUENCE. lia.
    + destruct Hpcinv as (-> & -> & Hpubl).
      destruct (array_load (_buffer (shared σ)) (index (c + 1)))
        as [value|] eqn:Hload; simpl in Hstep; [|discriminate].
      injection Hstep as <- <-; simpl.
      apply reader_advance_invariant; [exact Hinv|].
      intros c0 Hc0. assert (c0 = c) as -> by congruence. simpl.
      split; [reflexivity|]. split; [exact Hpubl|].
      apply array_load_Some in Hload as [_ Hload].
      destruct (inv_slot _ _ _ Hsh r c (c + 1) Hc Hpubl) as [_ (v' & H1 & H2)];
        [lia|].
      unfold Queue.slot in H1. congruence.
    + injection Hstep as <- <-.
      apply update_invariant; [exact Hinv|exact Hpc|eauto].
Qed.

Lemma exec_invariant sched : forall σ tr σ' tr',
  invariant σ tr ->
  exec σ tr sched = Some (σ', tr') ->
  no_wrap tr' ->
  invariant σ' tr'.
Proof.
  induction sched as [|a sched IH]; intros σ tr σ' tr' Hinv Hexec Hnw.
  - simpl in Hexec. injection Hexec as <- <-. exact Hinv.
  - simpl in Hexec. destruct (step σ a) as [[σ1 evs]|] eqn:Hstep; [|discriminate].
    assert (Hnw1 : no_wrap (evs ++ tr)).
    { clear IH Hinv Hstep. revert σ1 tr evs Hexec.
      induction sched as [|b sched IH]; intros σ1 tr evs Hexec.
      - simpl in Hexec. injection Hexec as <- <-. exact Hnw.
      - simpl in Hexec.
        destruct (step σ1 b) as [[σ2 evs']|] eqn:Hstep; [|discriminate].
        eapply step_no_wrap; [exact Hstep|]. eapply IH. exact Hexec. }
    eapply IH; [|exact Hexec|exact Hnw].
    eapply step_invariant; eassumption.
Qed.

Lemma reachable_invariant nr nw σ tr :
  reachable value_init CAPACITY nr nw σ tr -> no_wrap tr -> invariant σ tr.
Proof.
  intros [sched Hexec] Hnw.
  eapply exec_invariant; [apply boot_invariant|exact Hexec|exact Hnw].
Qed.

(** *** Runs of any length *)

Lemma to_int64_succ z : to_int64 (to_int64 z + 1) = to_int64 (z + 1).
Proof.
  unfold to_int64.
  replace ((z + 2 ^ 63) mod 2 ^ 64 - 2 ^ 63 + 1 + 2 ^ 63)
    with ((z + 2 ^ 63) mod 2 ^ 64 + 1) by lia.
  rewrite Zplus_mod_idemp_l. f_equal. f_equal. lia.
Qed.

Lemma boot_basic_invariant nr nw :
  basic_invariant CAPACITY (boot value_init CAPACITY nr nw) [].
Proof.
  unfold boot. rewrite setup_eq. split; simpl.
  - rewrite length_fmap. apply length_replicate.
  - reflexivity.
  - reflexivity.
  - intros i stamp H. rewrite list_lookup_fmap in H.
    destruct (replicate (Z.to_nat CAPACITY) 0 !! i); simplify_eq/=. reflexivity.
  - intros i s [=].
  - intros w s i H. apply lookup_replicate in H as [[=] _].
Qed.

Lemma step_basic_invariant σ tr a σ' evs :
  basic_invariant CAPACITY σ tr ->
  step σ a = Some (σ', evs) ->
  basic_invariant CAPACITY σ' (evs ++ tr).
Proof.
  intros [Hlen Hn Hcl Hst Hpub Hco] Hstep.
  unfold Queue.step, writer_moves, reader_moves in Hstep.
  assert (Hkeep : forall w pc',
    (forall s i, pc' <> WCommit s i) ->
    basic_invariant CAPACITY
      {| shared := shared σ; writer_pcs := <[w := pc']> (writer_pcs σ);
         reader_pcs := reader_pcs σ |} tr).
  { intros w pc' Hpc'. split; simpl; try assumption.
    intros w0 s i H.
    apply list_lookup_insert_Some in H as [(_ & -> & _)|(_ & H)];
      [exfalso; eapply Hpc'; reflexivity|eapply Hco; exact H]. }
  destruct a as [w value|w|r output|r].
  - destruct (writer_pcs σ !! w) as [pc|] eqn:Hpc; simpl in Hstep; [|discriminate].
    destruct (_writers (shared σ) !! w) as [cached|] eqn:Hcached;
      simpl in Hstep; [|discriminate].
    destruct pc; try discriminate. injection Hstep as <- <-.
    split; simpl; try assumption.
    + rewrite Hn, to_int64_succ, claims_claim. reflexivity.
    + rewrite Hcl, length_app. simpl.
      rewrite Nat.add_1_r, sequences_upto_S, fmap_app. simpl.
      rewrite Hn. reflexivity.
    + intros w0 s i H.
      apply list_lookup_insert_Some in H as [(_ & [=] & _)|(_ & H)].
      eapply Hco; exact H.
  - destruct (writer_pcs σ !! w) as [pc|] eqn:Hpc; simpl in Hstep; [|discriminate].
    destruct (_writers (shared σ) !! w) as [cached|] eqn:Hcached;
      simpl in Hstep; [|discriminate].
    destruct pc as [|s v|s v|s v j m|s v|s i]; [discriminate| | | | |].
    + destruct (_ <=? _); injection Hstep as <- <-; apply Hkeep; congruence.
    + destruct (_ >? _); [destruct (_readers (shared σ))|];
        injection Hstep as <- <-; try (apply Hkeep; congruence).
      split; simpl; try assumption.
      intros w0 s0 i H.
      apply list_lookup_insert_Some in H as [(_ & [=] & _)|(_ & H)].
      eapply Hco; exact H.
    + destruct (_readers (shared σ) !! j); injection Hstep as <- <-;
        try (apply Hkeep; congruence).
      split; simpl; try assumption.
      intros w0 s0 i H.
      apply list_lookup_insert_Some in H as [(_ & [=] & _)|(_ & H)].
      eapply Hco; exact H.
    + destruct (array_store (_buffer (shared σ)) (index s) v) as [b|] eqn:Hstore;
        simpl in Hstep; [|discriminate].
      injection Hstep as <- <-. split; simpl; try assumption.
      intros w0 s0 i H.
      apply list_lookup_insert_Some in H as [(_ & [= <- <-] & _)|(_ & H)];
        [reflexivity|eapply Hco; exact H].
    + destruct (array_store (_slot_sequences (shared σ)) i s) as [st|] eqn:Hstore;
        simpl in Hstep; [|discriminate].
      injection Hstep as <- <-.
      apply array_store_Some in Hstore as (Hi & _ & ->).
      pose proof (Hco _ _ _ Hpc) as Hidx.
      split; simpl; try assumption.
      * rewrite length_insert. exact Hlen.
      * intros k stamp H.
        apply list_lookup_insert_Some in H as [(<- & <- & _)|(Hne & H)].
        -- rewrite Z2Nat.id by exact Hi. rewrite Z.eqb_refl. reflexivity.
        -- destruct (Z.eqb_spec i (Z.of_nat k)) as [Heq|_]; [|auto].
           exfalso. apply Hne. rewrite Heq. apply Nat2Z.id.
      * intros k s0 H. destruct (Z.eqb_spec i k) as [<-|_]; [|auto].
        injection H as <-. symmetry. exact Hidx.
      * intros w0 s0 i0 H.
        apply list_lookup_insert_Some in H as [(_ & [=] & _)|(_ & H)].
        eapply Hco; exact H.
  - destruct (reader_pcs σ !! r) as [pc|] eqn:Hpc; simpl in Hstep; [|discriminate].
    destruct (_readers (shared σ) !! r) as [c|] eqn:Hc;
      simpl in Hstep; [|discriminate].
    destruct pc; try discriminate. injection Hstep as <- <-.
    split; simpl; assumption.
  - destruct (reader_pcs σ !! r) as [pc|] eqn:Hpc; simpl in Hstep; [|discriminate].
    destruct (_readers (shared σ) !! r) as [c|] eqn:Hc;
      simpl in Hstep; [|discriminate].
    destruct pc as [|next i o|next i o|next v]; [discriminate| | |].
    + destruct (array_load _ _) as [stamp|]; simpl in Hstep; [|discriminate].
      destruct (negb _); injection Hstep as <- <-; split; simpl; assumption.
    + destruct (array_load _ _) as [value|]; simpl in Hstep; [|discriminate].
      injection Hstep as <- <-; split; simpl; assumption.
    + injection Hstep as <- <-; split; simpl; assumption.
Qed.

Lemma reachable_basic_invariant nr nw σ tr :
  reachable value_init CAPACITY nr nw σ tr -> basic_invariant CAPACITY σ tr.
Proof.
  intros [sched Hexec]. revert Hexec.
  generalize (boot_basic_invariant nr nw).
  generalize (boot value_init CAPACITY nr nw) ([] : list (event T)).
  induction sched as [|a sched IH]; intros σ0 tr0 Hinv Hexec.
  - simpl in Hexec. injection Hexec as <- <-. exact Hinv.
  - simpl in Hexec. destruct (step σ0 a) as [[σ1 evs]|] eqn:Hstep; [|discriminate].
    eapply IH; [|exact Hexec]. eapply step_basic_invariant; eassumption.
Qed.

(** *** The minimum over the readers *)

Lemma fold_min_lower_bound (l : list Z) init x :
  x <= init -> (forall c, c ∈ l -> x <= c) ->
  x <= fold_left (fun m c => Z.min m c) l init.
Proof.
  revert init. induction l as [|c l IH]; intros init Hinit Hl; simpl.
  - exact Hinit.
  - apply IH.
    + assert (x <= c) by (apply Hl; left). lia.
    + intros c' Hc'. apply Hl. right. exact Hc'.
Qed.

Lemma fold_min_le (l : list Z) init :
  fold_left (fun m c => Z.min m c) l init <= init /\
  forall c, c ∈ l -> fold_left (fun m c => Z.min m c) l init <= c.
Proof.
  revert init. induction l as [|c l IH]; intros init; simpl.
  - split; [lia|]. intros c Hc. inversion Hc.
  - destruct (IH (Z.min init c)) as [H1 H2]. split; [lia|].
    intros c' Hc'. inversion Hc'; subst; [lia|]. apply H2. assumption.
Qed.

(** [get_min_consumer_sequence], evaluated on one state, is the least
    consumer sequence ([INT64_MAX] without readers). *)
Lemma get_min_consumer_sequence_le (q : disruptor_queue T) r c :
  _readers q !! r = Some c -> get_min_consumer_sequence q <= c.
Proof.
  intros Hc. unfold get_min_consumer_sequence.
  destruct (_readers q) as [|c0 rs]; [discriminate|].
  apply (proj2 (fold_min_le (c0 :: rs) INT64_MAX)).
  apply list_elem_of_lookup. exists r. exact Hc.
Qed.

Lemma get_min_consumer_sequence_lower_bound (q : disruptor_queue T) x :
  x <= INT64_MAX ->
  (forall r c, _readers q !! r = Some c -> x <= c) ->
  x <= get_min_consumer_sequence q.
Proof.
  intros Hmax Hall. unfold get_min_consumer_sequence.
  destruct (_readers q) as [|c0 rs]; [exact Hmax|].
  apply (fold_min_lower_bound (c0 :: rs)); [exact Hmax|].
  intros c Hc. apply list_elem_of_lookup in Hc as [r Hr].
  apply (Hall r). exact Hr.
Qed.

(** *** The properties of the running queue *)

(** C5: the counter equals the number of claims made so far, published
    or not (as long as that number fits [int64_t]; beyond, it is the
    number reduced to 64 bits).  It is 0 before any write, and the
    first claim returns 0. *)
Theorem next_sequence_counts_claims nr nw σ tr :
  reachable value_init CAPACITY nr nw σ tr ->
  no_wrap tr ->
  _next_sequence (shared σ) = claims tr /\
  claimed_sequences tr = sequences_upto (Z.to_nat (claims tr)) /\
  _next_sequence (shared (boot value_init CAPACITY nr nw)) = 0 /\
  (forall s, claimed_sequences tr !! 0%nat = Some s -> s = 0).
Proof.
  intros Hreach Hnw.
  pose proof (reachable_invariant _ _ _ _ Hreach Hnw) as [Hsh _ _].
  split; [apply (inv_next _ _ _ Hsh)|].
  split; [|split].
  - rewrite (inv_claimed _ _ _ Hsh). unfold claims. rewrite Nat2Z.id. reflexivity.
  - unfold boot. rewrite setup_eq. reflexivity.
  - intros s Hs. rewrite (inv_claimed _ _ _ Hsh) in Hs.
    unfold sequences_upto in Hs. rewrite list_lookup_fmap in Hs.
    destruct (seq 0 (length (claimed_values tr)) !! 0%nat) as [k|] eqn:Hk;
      [|discriminate].
    apply lookup_seq in Hk as [-> _]. simpl in Hs. injection Hs as <-. reflexivity.
Qed.

(** Without the bound on the number of claims the counter is that
    number modulo [2 ^ 64]. *)
Lemma next_sequence_counts_claims_mod nr nw σ tr :
  reachable value_init CAPACITY nr nw σ tr ->
  _next_sequence (shared σ) = to_int64 (claims tr).
Proof.
  intros Hreach. apply (basic_next _ _ _ (reachable_basic_invariant _ _ _ _ Hreach)).
Qed.

Lemma last_publication_published (tr : list (event T)) i s :
  last_publication tr i = Some s -> published tr s = true.
Proof.
  induction tr as [|e tr IH]; [discriminate|].
  destruct e; simpl; try exact IH.
  destruct (Z.eqb_spec write_index i) as [_|_].
  - intros [= ->]. rewrite Z.eqb_refl. reflexivity.
  - intros H. rewrite (IH H). apply orb_true_r.
Qed.

(** C4: every slot sequence is the sentinel -1, which is what the
    constructor stores in every slot, or the sequence of the latest
    completed publication to that slot, and then congruent to the slot
    index modulo the capacity.  It holds after the set-up and after
    every step of every endpoint. *)
Theorem slot_sequence_is_last_publication nr nw σ tr i :
  reachable value_init CAPACITY nr nw σ tr ->
  (i < Z.to_nat CAPACITY)%nat ->
  _slot_sequences (disruptor_queue_ctor value_init CAPACITY) !! i =
    Some INITIAL_SEQUENCE /\
  exists stamp,
    _slot_sequences (shared σ) !! i = Some stamp /\
    match last_publication tr (Z.of_nat i) with
    | None => stamp = INITIAL_SEQUENCE
    | Some s =>
        stamp = s /\ s mod CAPACITY = Z.of_nat i /\
        (no_wrap tr -> 0 <= s < claims tr)
    end.
Proof.
  intros Hreach Hi.
  pose proof (reachable_basic_invariant _ _ _ _ Hreach) as [Hlen _ _ Hst Hpub _].
  split.
  - simpl. rewrite list_lookup_fmap, lookup_replicate_2 by exact Hi. reflexivity.
  - destruct (_slot_sequences (shared σ) !! i) as [stamp|] eqn:Hstamp.
    2:{ apply lookup_ge_None in Hstamp. lia. }
    exists stamp. split; [reflexivity|].
    pose proof (Hst _ _ Hstamp) as Hlast.
    destruct (last_publication tr (Z.of_nat i)) as [s|] eqn:Hs; simpl in Hlast.
    + split; [exact Hlast|]. split.
      * rewrite <- (index_mod CAPACITY capacity_valid). apply Hpub. exact Hs.
      * intros Hnw.
        pose proof (reachable_invariant _ _ _ _ Hreach Hnw) as [Hsh _ _].
        apply (inv_published _ _ _ Hsh).
        eapply last_publication_published. exact Hs.
    + exact Hlast.
Qed.

(** C6: a writer's cached minimum never exceeds the least consumer
    sequence of the state it is in, whatever the endpoints have done so
    far, and the only steps that assign the cache are steps inside
    [wait_for_no_wrap] (its loop and the scan of the readers it
    calls). *)
Theorem cached_minimum_is_lower_bound nr nw σ tr w cached :
  reachable value_init CAPACITY nr nw σ tr ->
  no_wrap tr ->
  _writers (shared σ) !! w = Some cached ->
  cached <= get_min_consumer_sequence (shared σ) /\
  (forall r c, _readers (shared σ) !! r = Some c -> cached <= c) /\
  (forall a σ' evs,
     step σ a = Some (σ', evs) ->
     _writers (shared σ') <> _writers (shared σ) ->
     exists w' s v,
       a = StepWriter w' /\
       (writer_pcs σ !! w' = Some (WWrapLoop s v) \/
        exists j m, writer_pcs σ !! w' = Some (WMinScan s v j m))).
Proof.
  intros Hreach Hnw Hcached.
  pose proof (reachable_invariant _ _ _ _ Hreach Hnw) as [Hsh _ _].
  destruct (inv_cache _ _ _ Hsh _ _ Hcached) as [Hrange Hle].
  split; [|split].
  - apply get_min_consumer_sequence_lower_bound; [lia|exact Hle].
  - exact Hle.
  - intros a σ' evs Hstep Hchanged.
    unfold Queue.step, writer_moves, reader_moves in Hstep.
    destruct a as [w' value|w'|r output|r].
    + destruct (writer_pcs σ !! w') as [pc|]; simpl in Hstep; [|discriminate].
      destruct (_writers (shared σ) !! w'); simpl in Hstep; [|discriminate].
      destruct pc; try discriminate. injection Hstep as <- <-.
      simpl in Hchanged. congruence.
    + destruct (writer_pcs σ !! w') as [pc|] eqn:Hpc; simpl in Hstep;
        [|discriminate].
      destruct (_writers (shared σ) !! w'); simpl in Hstep; [|discriminate].
      destruct pc as [|s v|s v|s v j m|s v|s i]; [discriminate| | | | |].
      * destruct (_ <=? _); injection Hstep as <- <-; simpl in Hchanged;
          congruence.
      * exists w', s, v. auto.
      * exists w', s, v. split; [reflexivity|]. right. eauto.
      * destruct (array_store _ _ _); simpl in Hstep; [|discriminate].
        injection Hstep as <- <-. simpl in Hchanged. congruence.
      * destruct (array_store _ _ _); simpl in Hstep; [|discriminate].
        injection Hstep as <- <-. simpl in Hchanged. congruence.
    + destruct (reader_pcs σ !! r) as [pc|]; simpl in Hstep; [|discriminate].
      destruct (_readers (shared σ) !! r); simpl in Hstep; [|discriminate].
      destruct pc; try discriminate. injection Hstep as <- <-.
      simpl in Hchanged. congruence.
    + destruct (reader_pcs σ !! r) as [pc|]; simpl in Hstep; [|discriminate].
      destruct (_readers (shared σ) !! r); simpl in Hstep; [|discriminate].
      destruct pc as [|next i o|next i o|next v]; [discriminate| | |].
      * destruct (array_load _ _); simpl in Hstep; [|discriminate].
        destruct (negb _); injection Hstep as <- <-; simpl in Hchanged;
          congruence.
      * destruct (array_load _ _); simpl in Hstep; [|discriminate].
        injection Hstep as <- <-. simpl in Hchanged. congruence.
      * injection Hstep as <- <-. simpl in Hchanged. congruence.
Qed.

(** C2: a writer that has reached the payload store of its claimed
    sequence s (it is about to store, or has stored and is about to
    publish) holds a cache that has let s pass
    ([s - CAPACITY <= cached]) and is a lower bound of the least
    consumer sequence, so [s - min <= CAPACITY]; the storing step
    assigns slot [s mod CAPACITY], and whatever sequence that slot holds
    at that moment has been consumed by every reader. *)
Theorem payload_store_respects_readers nr nw σ tr w pc s :
  reachable value_init CAPACITY nr nw σ tr ->
  no_wrap tr ->
  writer_pcs σ !! w = Some pc ->
  storing pc = Some s ->
  (exists cached,
     _writers (shared σ) !! w = Some cached /\
     s - CAPACITY <= cached /\
     cached <= get_min_consumer_sequence (shared σ)) /\
  s - get_min_consumer_sequence (shared σ) <= CAPACITY /\
  (forall v,
     pc = WStore s v ->
     step σ (StepWriter w) =
       Some ({| shared :=
                  set_buffer (shared σ)
                    (<[Z.to_nat (s mod CAPACITY) := v]> (_buffer (shared σ)));
                writer_pcs :=
                  <[w := WCommit s (s mod CAPACITY)]> (writer_pcs σ);
                reader_pcs := reader_pcs σ |},
             [EvStore w s (s mod CAPACITY)]) /\
     forall r c stamp,
       _readers (shared σ) !! r = Some c ->
       _slot_sequences (shared σ) !! Z.to_nat (s mod CAPACITY) = Some stamp ->
       stamp <= c).
Proof.
  intros Hreach Hnw Hpc Hs.
  pose proof (reachable_invariant _ _ _ _ Hreach Hnw) as [Hsh Hws _].
  pose proof (inv_writer _ _ _ _ Hws _ _ Hpc) as Hinv.
  assert (Hfl : in_flight tr s /\ passed (shared σ) w s).
  { destruct pc; simpl in Hs; try discriminate; injection Hs as ->;
      simpl in Hinv; tauto. }
  destruct Hfl as [Hfl Hpass].
  pose proof Hpass as (cached & Hcached & Hle).
  destruct (inv_cache _ _ _ Hsh _ _ Hcached) as [Hrange Hmin].
  assert (Hbound : cached <= get_min_consumer_sequence (shared σ)).
  { apply get_min_consumer_sequence_lower_bound; [lia|exact Hmin]. }
  rewrite <- (index_mod CAPACITY capacity_valid s).
  split; [eauto|]. split; [lia|]. intros v ->. split.
  - unfold Queue.step. rewrite Hpc, Hcached. simpl.
    rewrite array_store_in_range; [reflexivity|].
    pose proof (index_range CAPACITY capacity_valid s).
    rewrite (inv_buffer_length _ _ _ Hsh).
    pose proof (CAPACITY_range CAPACITY capacity_valid). lia.
  - intros r c stamp Hc Hstamp.
    destruct (inv_reader _ _ _ Hsh _ _ Hc) as [Hcr _].
    destruct (Z.eq_dec stamp INITIAL_SEQUENCE) as [->|Hne].
    + unfold INITIAL_SEQUENCE. lia.
    + destruct (inv_stamp_published _ _ _ Hsh _ _ Hstamp Hne) as [Hp Hslot].
      eapply passed_slot_consumed; eauto.
Qed.

(** C3: a reader at consumer sequence c waits for the slot sequence of
    slot [(c + 1) mod CAPACITY] to be equal to [c + 1] and ends the call
    by storing [c + 1].  Equality is what the code tests, in every state
    of the queue and not only in those a run reaches: a slot sequence
    that differs from the awaited one, a greater one included, keeps
    [wait_for_data] spinning at every fuel, keeps the reader's step in
    the wait and keeps [read] from returning; a read that returns has
    loaded exactly [c + 1] and stores it as its consumer sequence.  So
    the calls a reader has completed in a run consumed the sequences 0,
    1, ..., c in this order and delivered the payloads of the first
    [c + 1] claims in claim order. *)
Theorem reader_consumes_in_claim_order :
  (forall fuel (q : disruptor_queue T) read_index next stamp,
     array_load (_slot_sequences q) read_index = Some stamp ->
     wait_for_data fuel q read_index next =
       if decide (stamp = next) then Some tt else None) /\
  (forall (σ : system T) r c next i o stamp,
     reader_pcs σ !! r = Some (RWait next i o) ->
     _readers (shared σ) !! r = Some c ->
     array_load (_slot_sequences (shared σ)) i = Some stamp ->
     step σ (StepReader r) =
       Some ({| shared := shared σ; writer_pcs := writer_pcs σ;
                reader_pcs :=
                  <[r := if decide (stamp = next) then RCopy next i o
                         else RWait next i o]> (reader_pcs σ) |}, [])) /\
  (forall fuel (q : disruptor_queue T) r c stamp,
     _readers q !! r = Some c ->
     array_load (_slot_sequences q) (index (to_int64 (c + 1))) = Some stamp ->
     (stamp <> to_int64 (c + 1) ->
      read CAPACITY fuel q r = None /\
      forall output, read_into CAPACITY fuel q r output = None) /\
     (forall value q',
        read CAPACITY fuel q r = Some (value, q') \/
        (exists output,
           read_into CAPACITY fuel q r output = Some (value, q')) ->
        stamp = to_int64 (c + 1) /\
        q' = update_consumer_sequence q r (to_int64 (c + 1)))) /\
  (forall nr nw σ tr r c,
     reachable value_init CAPACITY nr nw σ tr ->
     no_wrap tr ->
     _readers (shared σ) !! r = Some c ->
     consumed tr r = sequences_upto (Z.to_nat (c + 1)) /\
     received tr r = take (Z.to_nat (c + 1)) (claimed_values tr) /\
     length (received tr r) = Z.to_nat (c + 1) /\
     (forall next i o,
        reader_pcs σ !! r = Some (RWait next i o) ->
        next = c + 1 /\ i = (c + 1) mod CAPACITY /\
        exists stamp,
          _slot_sequences (shared σ) !! Z.to_nat i = Some stamp /\
          step σ (StepReader r) =
            Some ({| shared := shared σ; writer_pcs := writer_pcs σ;
                     reader_pcs :=
                       <[r := if decide (stamp = c + 1) then RCopy next i o
                              else RWait next i o]> (reader_pcs σ) |}, [])) /\
     (forall next v,
        reader_pcs σ !! r = Some (RUpdate next v) ->
        next = c + 1 /\
        step σ (StepReader r) =
          Some ({| shared := update_consumer_sequence (shared σ) r (c + 1);
                   writer_pcs := writer_pcs σ;
                   reader_pcs := <[r := RIdle]> (reader_pcs σ) |},
                [EvRead r (c + 1) v]))).
Proof.
  assert (Hwait : forall fuel (q : disruptor_queue T) read_index next stamp,
            array_load (_slot_sequences q) read_index = Some stamp ->
            wait_for_data fuel q read_index next =
              if decide (stamp = next) then Some tt else None).
  { intros fuel q read_index next stamp Hload.
    destruct (decide (stamp = next)) as [->|Hne].
    - apply wait_for_data_ready. exact Hload.
    - apply (wait_for_data_spins fuel q read_index next stamp); assumption. }
  split; [exact Hwait|]. split; [|split].
  - intros σ r c next i o stamp Hpc Hc Hload.
    unfold Queue.step. rewrite Hpc, Hc. simpl. rewrite Hload. simpl.
    destruct (Z.eqb_spec stamp next); destruct (decide (stamp = next));
      try contradiction; reflexivity.
  - intros fuel q r c stamp Hc Hload.
    assert (Hspin : stamp <> to_int64 (c + 1) ->
              read CAPACITY fuel q r = None /\
              forall output, read_into CAPACITY fuel q r output = None).
    { intros Hne. unfold read, read_into, get_next_read_sequence.
      rewrite Hc. simpl. rewrite (Hwait fuel q _ (to_int64 (c + 1)) stamp Hload).
      destruct (decide (stamp = to_int64 (c + 1))); [contradiction|].
      split; [reflexivity|intros output; reflexivity]. }
    split; [exact Hspin|].
    intros value q' Hread.
    destruct (decide (stamp = to_int64 (c + 1))) as [Heq|Hne].
    + split; [exact Heq|].
      assert (Hr : read CAPACITY fuel q r = Some (value, q')).
      { destruct Hread as [H|[output H]]; exact H. }
      unfold read, get_next_read_sequence in Hr. rewrite Hc in Hr.
      simpl in Hr.
      destruct (wait_for_data fuel q _ _) as [[]|]; simpl in Hr;
        [|discriminate].
      destruct (array_load (_buffer q) _) as [v|]; simpl in Hr;
        [|discriminate].
      injection Hr as _ <-. reflexivity.
    + destruct (Hspin Hne) as [Hr Hi].
      destruct Hread as [H|[output H]]; [rewrite Hr in H|rewrite Hi in H];
        discriminate.
  - intros nr nw σ tr r c Hreach Hnw Hc.
    pose proof (reachable_invariant _ _ _ _ Hreach Hnw) as [Hsh _ Hrs].
    destruct (inv_received _ _ _ Hsh _ _ Hc) as [Hrecv Hcons].
    destruct (inv_reader _ _ _ Hsh _ _ Hc) as [Hcr _].
    split; [exact Hcons|]. split; [exact Hrecv|]. split; [|split].
    + rewrite Hrecv, length_take. unfold claims in Hcr. lia.
    + intros next i o Hpc.
      destruct (inv_reader_pc _ _ _ _ Hrs _ _ _ Hc Hpc) as [-> ->].
      split; [reflexivity|].
      split; [apply (index_mod CAPACITY capacity_valid)|].
      pose proof (index_range CAPACITY capacity_valid (c + 1)) as Hidx.
      pose proof (CAPACITY_range CAPACITY capacity_valid) as HC.
      destruct (_slot_sequences (shared σ) !! Z.to_nat (index (c + 1)))
        as [stamp|] eqn:Hstamp.
      2:{ apply lookup_ge_None in Hstamp.
          rewrite (inv_slots_length _ _ _ Hsh) in Hstamp. lia. }
      exists stamp. split; [reflexivity|].
      unfold Queue.step. rewrite Hpc, Hc. simpl.
      unfold array_load. destruct (Z.leb_spec 0 (index (c + 1))); [|lia].
      rewrite Hstamp. simpl.
      destruct (Z.eqb_spec stamp (c + 1)); destruct (decide (stamp = c + 1));
        try contradiction; reflexivity.
    + intros next v Hpc.
      destruct (inv_reader_pc _ _ _ _ Hrs _ _ _ Hc Hpc) as (-> & _ & _).
      split; [reflexivity|].
      unfold Queue.step. rewrite Hpc, Hc. reflexivity.
Qed.

(** A read that returns has found its slot sequence equal to the next
    sequence. *)
Lemma read_Some fuel (q : disruptor_queue T) r value q' :
  read CAPACITY fuel q r = Some (value, q') \/
  (exists output, read_into CAPACITY fuel q r output = Some (value, q')) ->
  exists c,
    _readers q !! r = Some c /\
    _slot_sequences q !! slot (to_int64 (c + 1)) = Some (to_int64 (c + 1)) /\
    _buffer q !! slot (to_int64 (c + 1)) = Some value /\
    q' = update_consumer_sequence q r (to_int64 (c + 1)).
Proof.
  intros H.
  assert (Hread : read CAPACITY fuel q r = Some (value, q')).
  { destruct H as [H|[output H]]; exact H. }
  clear H. unfold read, get_next_read_sequence in Hread.
  destruct (_readers q !! r) as [c|] eqn:Hc; simpl in Hread; [|discriminate].
  destruct (wait_for_data fuel q _ _) as [[]|] eqn:Hwait; simpl in Hread;
    [|discriminate].
  apply wait_for_data_Some in Hwait.
  rewrite (array_load_slot CAPACITY capacity_valid) in Hwait.
  rewrite (array_load_slot CAPACITY capacity_valid) in Hread.
  destruct (_buffer q !! slot (to_int64 (c + 1))) as [v|] eqn:Hv;
    simpl in Hread; [|discriminate].
  injection Hread as <- <-. exists c. auto.
Qed.

(** C9: a completed read, by either overload, leaves the payload
    buffer, the slot sequences, the counter, the other readers and the
    writers' caches as they were and raises the reader's own consumer
    sequence by one; the same holds of each of the reader's steps in
    a concurrent run, which change nothing or, at the last one, only
    that consumer sequence. *)
Theorem read_advances_own_sequence_only nr nw σ tr r :
  reachable value_init CAPACITY nr nw σ tr ->
  no_wrap tr ->
  (forall fuel value q',
     read CAPACITY fuel (shared σ) r = Some (value, q') \/
     (exists output,
        read_into CAPACITY fuel (shared σ) r output = Some (value, q')) ->
     read_effect (shared σ) r q') /\
  (forall a σ' evs,
     a = StepReader r \/ (exists output, a = CallRead r output) ->
     step σ a = Some (σ', evs) ->
     writer_pcs σ' = writer_pcs σ /\
     (shared σ' = shared σ \/ read_effect (shared σ) r (shared σ'))).
Proof.
  intros Hreach Hnw.
  pose proof (reachable_invariant _ _ _ _ Hreach Hnw) as [Hsh _ Hrs].
  assert (Hnext : forall c, _readers (shared σ) !! r = Some c ->
                            to_int64 (c + 1) = c + 1).
  { intros c Hc. destruct (inv_reader _ _ _ Hsh _ _ Hc) as [Hcr _].
    unfold no_wrap in Hnw.
    apply to_int64_id. unfold INT64_MIN, INT64_MAX in *. lia. }
  split.
  - intros fuel value q' Hread.
    destruct (read_Some _ _ _ _ _ Hread) as (c & Hc & _ & _ & ->).
    rewrite (Hnext c Hc). exists c. simpl. auto 10.
  - intros a σ' evs Ha Hstep. unfold Queue.step, reader_moves in Hstep.
    destruct Ha as [->|[output ->]].
    + destruct (reader_pcs σ !! r) as [pc|] eqn:Hpc; simpl in Hstep;
        [|discriminate].
      destruct (_readers (shared σ) !! r) as [c|] eqn:Hc; simpl in Hstep;
        [|discriminate].
      destruct pc as [|next i o|next i o|next v]; [discriminate| | |].
      * destruct (array_load _ _); simpl in Hstep; [|discriminate].
        destruct (negb _); injection Hstep as <- <-; simpl; auto.
      * destruct (array_load _ _); simpl in Hstep; [|discriminate].
        injection Hstep as <- <-; simpl; auto.
      * injection Hstep as <- <-; simpl. split; [reflexivity|]. right.
        destruct (inv_reader_pc _ _ _ _ Hrs _ _ _ Hc Hpc) as (-> & _ & _).
        exists c. simpl. auto 10.
    + destruct (reader_pcs σ !! r) as [pc|]; simpl in Hstep; [|discriminate].
      destruct (_readers (shared σ) !! r); simpl in Hstep; [|discriminate].
      destruct pc; try discriminate. injection Hstep as <- <-; simpl; auto.
Qed.

(** *** The sequential functions are runs of the machine

    A call that returns in the sequential semantics is the run of the
    machine in which the calling thread takes all the steps. *)

Lemma reaches_refl (σ : system T) tr : reaches CAPACITY σ tr σ tr.
Proof. exists []. reflexivity. Qed.

Lemma reaches_step (σ : system T) tr a σ1 evs σ2 tr2 :
  step σ a = Some (σ1, evs) ->
  reaches CAPACITY σ1 (evs ++ tr) σ2 tr2 ->
  reaches CAPACITY σ tr σ2 tr2.
Proof.
  intros Hstep [sched Hexec]. exists (a :: sched). simpl.
  rewrite Hstep. exact Hexec.
Qed.

Lemma reaches_one (σ : system T) tr a σ1 evs tr1 :
  step σ a = Some (σ1, evs) -> tr1 = evs ++ tr ->
  reaches CAPACITY σ tr σ1 tr1.
Proof.
  intros Hstep ->. eapply reaches_step; [exact Hstep|apply reaches_refl].
Qed.

Lemma exec_app sched1 : forall sched2 (σ : system T) tr σ1 tr1,
  exec σ tr sched1 = Some (σ1, tr1) ->
  exec σ tr (sched1 ++ sched2) = exec σ1 tr1 sched2.
Proof.
  induction sched1 as [|a sched1 IH]; intros sched2 σ tr σ1 tr1 H; simpl in *.
  - injection H as <- <-. reflexivity.
  - destruct (step σ a) as [[σ' evs]|]; [|discriminate]. apply IH. exact H.
Qed.

Lemma reaches_trans (σ : system T) tr σ1 tr1 σ2 tr2 :
  reaches CAPACITY σ tr σ1 tr1 -> reaches CAPACITY σ1 tr1 σ2 tr2 ->
  reaches CAPACITY σ tr σ2 tr2.
Proof.
  intros [s1 H1] [s2 H2]. exists (s1 ++ s2).
  rewrite (exec_app _ _ _ _ _ _ H1). exact H2.
Qed.

Lemma reachable_reaches nr nw (σ : system T) tr σ' tr' :
  reachable value_init CAPACITY nr nw σ tr ->
  reaches CAPACITY σ tr σ' tr' ->
  reachable value_init CAPACITY nr nw σ' tr'.
Proof. apply reaches_trans. Qed.

Lemma get_min_consumer_sequence_set_writers (q : disruptor_queue T) ws :
  get_min_consumer_sequence (set_writers q ws) = get_min_consumer_sequence q.
Proof. reflexivity. Qed.

Lemma wait_for_no_wrap_loop_set_writers fuel (q : disruptor_queue T) ws
  wrap_point cached :
  wait_for_no_wrap_loop fuel (set_writers q ws) wrap_point cached =
  wait_for_no_wrap_loop fuel q wrap_point cached.
Proof.
  revert cached. induction fuel as [|fuel IH]; intros cached; simpl;
    destruct (wrap_point >? cached); try reflexivity.
  rewrite get_min_consumer_sequence_set_writers. apply IH.
Qed.

(** The scan of the readers computes the fold of
    [get_min_consumer_sequence] and assigns it to the cache. *)
Lemma scan_reaches (q : disruptor_queue T) rpcs tr w s v cached n :
  forall j m pcs,
    (n = length (_readers q) - j)%nat ->
    pcs !! w = Some (WMinScan s v j m) ->
    _writers q !! w = Some cached ->
    reaches CAPACITY
      {| shared := q; writer_pcs := pcs; reader_pcs := rpcs |} tr
      {| shared :=
           set_writers q
             (<[w := fold_left (fun a c => Z.min a c) (drop j (_readers q)) m]>
                (_writers q));
         writer_pcs := <[w := WWrapLoop s v]> pcs;
         reader_pcs := rpcs |} tr.
Proof.
  induction n as [|n IH]; intros j m pcs Hn Hpc Hcached.
  - assert (Hj : _readers q !! j = None) by (apply lookup_ge_None; lia).
    apply (reaches_one _ _ (StepWriter w) _ []); [|reflexivity].
    unfold Queue.step. simpl. rewrite Hpc, Hcached. simpl. rewrite Hj.
    unfold writer_moves. simpl.
    rewrite drop_ge by (apply lookup_ge_None; exact Hj). reflexivity.
  - destruct (_readers q !! j) as [c|] eqn:Hj.
    2:{ apply lookup_ge_None in Hj. lia. }
    eapply (reaches_step _ _ (StepWriter w)).
    { unfold Queue.step. simpl. rewrite Hpc, Hcached. simpl. rewrite Hj.
      reflexivity. }
    simpl.
    assert (Hw : (w < length pcs)%nat) by (eapply lookup_lt_Some; exact Hpc).
    specialize (IH (S j) (Z.min m c) (<[w := WMinScan s v (S j) (Z.min m c)]> pcs)).
    rewrite list_insert_insert_eq in IH.
    rewrite (drop_S _ _ _ Hj). simpl.
    apply IH; [lia| |exact Hcached].
    apply list_lookup_insert_eq. exact Hw.
Qed.

Lemma wrap_loop_reaches fuel (q : disruptor_queue T) rpcs tr w s v :
  forall cached cached' pcs,
    pcs !! w = Some (WWrapLoop s v) ->
    _writers q !! w = Some cached ->
    wait_for_no_wrap_loop fuel q
      (to_int64 (s - to_int64 CAPACITY)) cached = Some cached' ->
    reaches CAPACITY
      {| shared := q; writer_pcs := pcs; reader_pcs := rpcs |} tr
      {| shared := set_writers q (<[w := cached']> (_writers q));
         writer_pcs := <[w := WStore s v]> pcs;
         reader_pcs := rpcs |} tr.
Proof.
  assert (Hexit : forall (q0 : disruptor_queue T) cached pcs,
    pcs !! w = Some (WWrapLoop s v) ->
    _writers q0 !! w = Some cached ->
    (to_int64 (s - to_int64 CAPACITY) >? cached) = false ->
    reaches CAPACITY
      {| shared := q0; writer_pcs := pcs; reader_pcs := rpcs |} tr
      {| shared := set_writers q0 (<[w := cached]> (_writers q0));
         writer_pcs := <[w := WStore s v]> pcs;
         reader_pcs := rpcs |} tr).
  { intros q0 cached pcs Hpc Hcached Hgt.
    apply (reaches_one _ _ (StepWriter w) _ []); [|reflexivity].
    unfold Queue.step. simpl. rewrite Hpc, Hcached. simpl. rewrite Hgt.
    unfold writer_moves, set_writers. simpl.
    rewrite (list_insert_id _ _ _ Hcached). destruct q0; reflexivity. }
  revert q. induction fuel as [|fuel IH]; intros q cached cached' pcs Hpc Hcached Hloop;
    simpl in Hloop;
    destruct (to_int64 (s - to_int64 CAPACITY) >? cached) eqn:Hgt;
    try discriminate;
    try (injection Hloop as <-; apply Hexit; assumption).
  - assert (Hw : (w < length pcs)%nat) by (eapply lookup_lt_Some; exact Hpc).
    assert (Hw' : (w < length (_writers q))%nat)
      by (eapply lookup_lt_Some; exact Hcached).
    set (q1 := set_writers q (<[w := get_min_consumer_sequence q]> (_writers q))).
    assert (Hiter : reaches CAPACITY
      {| shared := q; writer_pcs := pcs; reader_pcs := rpcs |} tr
      {| shared := q1; writer_pcs := pcs; reader_pcs := rpcs |} tr).
    { destruct (_readers q) as [|c0 rs] eqn:Hrs.
      - apply (reaches_one _ _ (StepWriter w) _ []); [|reflexivity].
        unfold Queue.step. simpl. rewrite Hpc, Hcached. simpl. rewrite Hgt, Hrs.
        unfold writer_moves. simpl. rewrite (list_insert_id _ _ _ Hpc).
        unfold q1, get_min_consumer_sequence. rewrite Hrs. reflexivity.
      - eapply (reaches_step _ _ (StepWriter w)).
        { unfold Queue.step. simpl. rewrite Hpc, Hcached. simpl.
          rewrite Hgt, Hrs. reflexivity. }
        simpl.
        pose proof (scan_reaches q rpcs tr w s v cached (length (_readers q))
                      0%nat INT64_MAX
                      (<[w := WMinScan s v 0 INT64_MAX]> pcs)) as Hscan.
        rewrite list_insert_insert_eq, (list_insert_id _ _ _ Hpc) in Hscan.
        unfold q1, get_min_consumer_sequence. rewrite Hrs.
        rewrite Hrs in Hscan. apply Hscan; [simpl; lia| |exact Hcached].
        apply list_lookup_insert_eq. exact Hw. }
    eapply reaches_trans; [exact Hiter|].
    specialize (IH q1 (get_min_consumer_sequence q) cached' pcs Hpc).
    unfold q1 in IH at 1 2. simpl in IH.
    rewrite list_insert_insert_eq in IH.
    rewrite wait_for_no_wrap_loop_set_writers in IH. apply IH.
    + apply list_lookup_insert_eq. exact Hw'.
    + exact Hloop.
Qed.

Lemma wait_for_no_wrap_reaches fuel (q : disruptor_queue T) pcs rpcs tr w s v q1 :
  pcs !! w = Some (WWrapCheck s v) ->
  wait_for_no_wrap CAPACITY fuel q w s = Some q1 ->
  reaches CAPACITY
    {| shared := q; writer_pcs := pcs; reader_pcs := rpcs |} tr
    {| shared := q1; writer_pcs := <[w := WStore s v]> pcs;
       reader_pcs := rpcs |} tr /\
  is_Some (_writers q1 !! w).
Proof.
  intros Hpc Hwait. unfold wait_for_no_wrap in Hwait.
  destruct (_writers q !! w) as [cached|] eqn:Hcached; simpl in Hwait;
    [|discriminate].
  assert (Hw : (w < length pcs)%nat) by (eapply lookup_lt_Some; exact Hpc).
  destruct (to_int64 (s - to_int64 CAPACITY) <=? cached) eqn:Hle.
  - injection Hwait as <-. split; [|eauto].
    apply (reaches_one _ _ (StepWriter w) _ []); [|reflexivity].
    unfold Queue.step. simpl. rewrite Hpc, Hcached. simpl.
    rewrite Hle. reflexivity.
  - destruct (wait_for_no_wrap_loop fuel q _ cached) as [cached'|] eqn:Hloop;
      simpl in Hwait; [|discriminate].
    injection Hwait as <-. split.
    + eapply (reaches_step _ _ (StepWriter w)).
      { unfold Queue.step. simpl. rewrite Hpc, Hcached. simpl.
        rewrite Hle. reflexivity. }
      simpl.
      pose proof (wrap_loop_reaches fuel q rpcs tr w s v cached cached'
                    (<[w := WWrapLoop s v]> pcs)) as H.
      rewrite list_insert_insert_eq in H. apply H.
      * apply list_lookup_insert_eq. exact Hw.
      * exact Hcached.
      * exact Hloop.
    + simpl. apply lookup_lt_is_Some. rewrite length_insert.
      eapply lookup_lt_Some. exact Hcached.
Qed.

Lemma write_reaches fuel (σ : system T) tr w value q' :
  writer_pcs σ !! w = Some WIdle ->
  write CAPACITY fuel (shared σ) w value = Some q' ->
  reaches CAPACITY σ tr
    {| shared := q'; writer_pcs := writer_pcs σ; reader_pcs := reader_pcs σ |}
    (EvPublish w (_next_sequence (shared σ))
       (index (_next_sequence (shared σ)))
     :: EvStore w (_next_sequence (shared σ))
          (index (_next_sequence (shared σ)))
     :: EvClaim w (_next_sequence (shared σ)) value :: tr).
Proof.
  destruct σ as [q pcs rpcs]. simpl. intros Hpc Hwrite.
  unfold write, claim_sequence in Hwrite.
  set (n := _next_sequence q) in *.
  set (q0 := set_next_sequence q (to_int64 (n + 1))) in *.
  destruct (wait_for_no_wrap CAPACITY fuel q0 w n) as [q1|] eqn:Hq1;
    simpl in Hwrite; [|discriminate].
  assert (Hw : (w < length pcs)%nat) by (eapply lookup_lt_Some; exact Hpc).
  assert (Hcached : is_Some (_writers q !! w)).
  { unfold wait_for_no_wrap in Hq1. simpl in Hq1.
    destruct (_writers q !! w); [eauto|discriminate]. }
  destruct Hcached as [cached Hcached].
  destruct (wait_for_no_wrap_reaches fuel q0 (<[w := WWrapCheck n value]> pcs)
              rpcs (EvClaim w n value :: tr) w n value q1)
    as [Hwait [cached1 Hcached1]];
    [apply list_lookup_insert_eq; exact Hw|exact Hq1|].
  rewrite list_insert_insert_eq in Hwait.
  destruct (array_store (_buffer q1) (index n) value) as [b|] eqn:Hb;
    simpl in Hwrite; [|discriminate].
  unfold commit_sequence in Hwrite. simpl in Hwrite.
  destruct (array_store (_slot_sequences q1) (index n) n) as [st|] eqn:Hst;
    simpl in Hwrite; [|discriminate].
  injection Hwrite as <-.
  (* the claim *)
  eapply (reaches_step _ _ (CallWrite w value)).
  { unfold Queue.step. simpl. rewrite Hpc, Hcached. reflexivity. }
  simpl. fold n. fold q0.
  (* wait_for_no_wrap *)
  eapply reaches_trans; [exact Hwait|].
  (* the payload store and the publication *)
  eapply (reaches_step _ _ (StepWriter w)).
  { unfold Queue.step. simpl.
    rewrite list_lookup_insert_eq by exact Hw. rewrite Hcached1. simpl.
    rewrite Hb. reflexivity. }
  simpl. rewrite list_insert_insert_eq.
  apply (reaches_one _ _ (StepWriter w) _ [EvPublish w n (index n)]);
    [|reflexivity].
  unfold Queue.step. simpl.
  rewrite list_lookup_insert_eq by exact Hw. rewrite Hcached1. simpl.
  rewrite Hst. unfold writer_moves. simpl.
  rewrite list_insert_insert_eq, (list_insert_id _ _ _ Hpc). reflexivity.
Qed.

Lemma read_reaches fuel (σ : system T) tr r (output : option T) value q' :
  reader_pcs σ !! r = Some RIdle ->
  read CAPACITY fuel (shared σ) r = Some (value, q') ->
  exists c,
    _readers (shared σ) !! r = Some c /\
    reaches CAPACITY σ tr
      {| shared := q'; writer_pcs := writer_pcs σ; reader_pcs := reader_pcs σ |}
      (EvRead r (to_int64 (c + 1)) value :: tr).
Proof.
  destruct σ as [q pcs rpcs]. simpl. intros Hpc Hread.
  destruct (read_Some fuel q r value q' (or_introl Hread))
    as (c & Hc & Hstamp & Hvalue & ->).
  exists c. split; [exact Hc|].
  assert (Hr : (r < length rpcs)%nat) by (eapply lookup_lt_Some; exact Hpc).
  set (next := to_int64 (c + 1)) in *.
  assert (Hload : forall {A} (a : list A),
            array_load a (index next) = a !! slot next).
  { intros A a. apply (array_load_slot CAPACITY capacity_valid). }
  eapply (reaches_step _ _ (CallRead r output)).
  { unfold Queue.step. simpl. rewrite Hpc, Hc. reflexivity. }
  simpl. fold next.
  eapply (reaches_step _ _ (StepReader r)).
  { unfold Queue.step. simpl.
    rewrite list_lookup_insert_eq by exact Hr. rewrite Hc. simpl.
    rewrite Hload, Hstamp. simpl. rewrite Z.eqb_refl. reflexivity. }
  simpl. rewrite list_insert_insert_eq.
  eapply (reaches_step _ _ (StepReader r)).
  { unfold Queue.step. simpl.
    rewrite list_lookup_insert_eq by exact Hr. rewrite Hc. simpl.
    rewrite Hload, Hvalue. reflexivity. }
  simpl. rewrite list_insert_insert_eq.
  apply (reaches_one _ _ (StepReader r) _ [EvRead r next value]); [|reflexivity].
  unfold Queue.step. simpl.
  rewrite list_lookup_insert_eq by exact Hr. rewrite Hc. simpl.
  unfold reader_moves. simpl.
  rewrite list_insert_insert_eq, (list_insert_id _ _ _ Hpc). reflexivity.
Qed.

(** The run of a single-threaded client is a run of the machine: its
    final queue is reachable, by a trace whose claims are the values
    written and whose reads are the values delivered. *)
Lemma run_reaches fuel ops : forall (q : disruptor_queue T) tr delivered q',
  run CAPACITY fuel q ops = Some (delivered, q') ->
  exists tr',
    reaches CAPACITY
      {| shared := q; writer_pcs := [WIdle]; reader_pcs := [RIdle] |} tr
      {| shared := q'; writer_pcs := [WIdle]; reader_pcs := [RIdle] |} tr' /\
    claimed_values tr' = claimed_values tr ++ written ops /\
    received tr' 0 = received tr 0 ++ delivered.
Proof.
  induction ops as [|o ops IH]; intros q tr delivered q' Hrun; simpl in Hrun.
  - injection Hrun as <- <-. exists tr. rewrite !app_nil_r.
    split; [apply reaches_refl|auto].
  - assert (Hread : forall (output : option T) value q1,
      read CAPACITY fuel q 0 = Some (value, q1) ->
      forall delivered1,
        run CAPACITY fuel q1 ops = Some (delivered1, q') ->
        exists tr',
          reaches CAPACITY
            {| shared := q; writer_pcs := [WIdle]; reader_pcs := [RIdle] |} tr
            {| shared := q'; writer_pcs := [WIdle]; reader_pcs := [RIdle] |} tr' /\
          claimed_values tr' = claimed_values tr ++ written ops /\
          received tr' 0 = received tr 0 ++ value :: delivered1).
    { intros output value q1 Hrd delivered1 Hrest.
      destruct (read_reaches fuel
                  {| shared := q; writer_pcs := [WIdle]; reader_pcs := [RIdle] |}
                  tr 0%nat output value q1 eq_refl Hrd) as (c & Hc & Hreach).
      destruct (IH q1 (EvRead 0 (to_int64 (c + 1)) value :: tr) _ _ Hrest)
        as (tr' & Hreach' & Hcv & Hrecv).
      exists tr'. split; [eapply reaches_trans; eassumption|].
      split; [exact Hcv|].
      rewrite Hrecv. simpl. rewrite <- app_assoc. reflexivity. }
    destruct o as [value| |output].
    + destruct (write CAPACITY fuel q 0 value) as [q1|] eqn:Hwr; simpl in Hrun;
        [|discriminate].
      pose proof (write_reaches fuel
                    {| shared := q; writer_pcs := [WIdle]; reader_pcs := [RIdle] |}
                    tr 0%nat value q1 eq_refl Hwr) as Hreach.
      simpl in Hreach.
      destruct (IH q1
                  (EvPublish 0 (_next_sequence q) (index (_next_sequence q))
                   :: EvStore 0 (_next_sequence q) (index (_next_sequence q))
                   :: EvClaim 0 (_next_sequence q) value :: tr) _ _ Hrun)
        as (tr' & Hreach' & Hcv & Hrecv).
      exists tr'. split; [eapply reaches_trans; eassumption|].
      split.
      * rewrite Hcv. simpl. rewrite <- app_assoc. reflexivity.
      * rewrite Hrecv. reflexivity.
    + simpl in Hrun.
      destruct (read CAPACITY fuel q 0) as [[value q1]|] eqn:Hrd; [|discriminate].
      destruct (run CAPACITY fuel q1 ops) as [[delivered1 q2]|] eqn:Hrest;
        [|discriminate].
      injection Hrun as <- <-. eapply (Hread None _ _ eq_refl); eassumption.
    + simpl in Hrun.
      destruct (read_into CAPACITY fuel q 0 output) as [[value q1]|] eqn:Hrd;
        [|discriminate].
      destruct (run CAPACITY fuel q1 ops) as [[delivered1 q2]|] eqn:Hrest;
        [|discriminate].
      injection Hrun as <- <-. eapply (Hread (Some output) _ _ Hrd); eassumption.
Qed.

Corollary client_run_is_reachable fuel ops delivered q' :
  run CAPACITY fuel (setup value_init CAPACITY 1 1) ops = Some (delivered, q') ->
  exists tr,
    reachable value_init CAPACITY 1 1
      {| shared := q'; writer_pcs := [WIdle]; reader_pcs := [RIdle] |} tr /\
    claimed_values tr = written ops /\
    received tr 0 = delivered.
Proof.
  intros Hrun. destruct (run_reaches fuel ops _ [] _ _ Hrun) as (tr & H1 & H2 & H3).
  exists tr. split; [exact H1|]. split; assumption.
Qed.

End Running.

End RunningFacts.

(** ** The set-up phase and the scan of the readers *)

Module CreationFacts.
Import Machine Queue Creation MachineFacts RunningFacts.

Section SetUp.

Context {T : Type}.

Lemma create_all_from (order : list endpoint) : forall (q : disruptor_queue T),
  snd (create_all q order) =
  {| _buffer := _buffer q; _slot_sequences := _slot_sequences q;
     _next_sequence := _next_sequence q;
     _readers := _readers q ++ replicate (count Reader order) INITIAL_SEQUENCE;
     _writers := _writers q ++ replicate (count Writer order) INITIAL_SEQUENCE |}.
Proof.
  induction order as [|[|] order IH]; intros q; simpl.
  - rewrite !app_nil_r. destruct q; reflexivity.
  - specialize (IH (set_readers q (_readers q ++ [INITIAL_SEQUENCE]))).
    destruct (create_all _ order) as [handles q']. simpl in *.
    rewrite IH. simpl. rewrite <- app_assoc. reflexivity.
  - specialize (IH (set_writers q (_writers q ++ [INITIAL_SEQUENCE]))).
    destruct (create_all _ order) as [handles q']. simpl in *.
    rewrite IH. simpl. rewrite <- app_assoc. reflexivity.
Qed.

Lemma create_all_handles (order : list endpoint) : forall (q : disruptor_queue T),
  fst (create_all q order) =
  ranks (length (_readers q)) (length (_writers q)) order.
Proof.
  induction order as [|[|] order IH]; intros q; simpl; [reflexivity| |].
  - specialize (IH (set_readers q (_readers q ++ [INITIAL_SEQUENCE]))).
    destruct (create_all _ order) as [handles q']. simpl in *.
    rewrite IH, length_app. simpl. rewrite Nat.add_1_r. reflexivity.
  - specialize (IH (set_writers q (_writers q ++ [INITIAL_SEQUENCE]))).
    destruct (create_all _ order) as [handles q']. simpl in *.
    rewrite IH, length_app. simpl. rewrite Nat.add_1_r. reflexivity.
Qed.

(** X5: the order in which a client creates its endpoints on a new
    queue does not matter: the queue is the one [setup] builds, with
    as many readers and writers as were created, each at [-1], and
    every call returns the number of endpoints of its kind created
    before it. *)
Theorem creation_order_is_irrelevant (value_init : T) CAPACITY order :
  create_all (disruptor_queue_ctor value_init CAPACITY) order =
  (ranks 0 0 order,
   setup value_init CAPACITY (count Reader order) (count Writer order)).
Proof.
  pose proof (create_all_from order (disruptor_queue_ctor value_init CAPACITY))
    as Hq.
  pose proof (create_all_handles order (disruptor_queue_ctor value_init CAPACITY))
    as Hh.
  destruct (create_all _ order) as [handles q]. simpl in *.
  rewrite Hq, Hh, setup_eq. reflexivity.
Qed.

(** X6: [get_min_consumer_sequence] returns the least consumer
    sequence: it is not above any reader's, it is the sequence of some
    reader when there is one, and it is the largest [int64_t] when
    there is none. *)
Theorem get_min_consumer_sequence_is_least (q : disruptor_queue T) :
  (forall r c, _readers q !! r = Some c -> c <= INT64_MAX) ->
  (forall r c, _readers q !! r = Some c -> get_min_consumer_sequence q <= c) /\
  (_readers q = [] -> get_min_consumer_sequence q = INT64_MAX) /\
  (_readers q <> [] ->
   exists r, _readers q !! r = Some (get_min_consumer_sequence q)).
Proof.
  intros Hrange. split; [|split].
  - intros r c Hc. eapply get_min_consumer_sequence_le; eassumption.
  - intros Hnil. unfold get_min_consumer_sequence. rewrite Hnil. reflexivity.
  - intros Hne.
    assert (Hin : forall (l : list Z) init,
               fold_left (fun m c => Z.min m c) l init = init \/
               exists r, l !! r = Some (fold_left (fun m c => Z.min m c) l init)).
    { induction l as [|c l IH]; intros init; simpl; [left; reflexivity|].
      destruct (IH (Z.min init c)) as [Heq|[r Hr]].
      - rewrite Heq. destruct (Z.min_spec init c) as [[_ ->]|[_ ->]];
          [left; reflexivity|right; exists 0%nat; reflexivity].
      - right. exists (S r). exact Hr. }
    assert (Hmin : get_min_consumer_sequence q =
                   fold_left (fun m c => Z.min m c) (_readers q) INT64_MAX).
    { unfold get_min_consumer_sequence. destruct (_readers q); reflexivity. }
    rewrite Hmin. destruct (Hin (_readers q) INT64_MAX) as [Heq|Hr]; [|exact Hr].
    destruct (_readers q) as [|c rs] eqn:Hrs; [congruence|].
    pose proof (Hrange 0%nat c eq_refl) as Hc.
    pose proof (proj2 (fold_min_le (c :: rs) INT64_MAX) c
                  ltac:(apply list_elem_of_here)) as Hle.
    rewrite Heq in Hle |- *.
    exists 0%nat. change (Some c = Some INT64_MAX). f_equal. lia.
Qed.

End SetUp.

Lemma get_min_consumer_sequence_is_least_witness :
  exists r,
    ([5; 3; 9] : list Z) !! r =
    Some (get_min_consumer_sequence
            {| _buffer := @nil Z; _slot_sequences := []; _next_sequence := 10;
               _readers := [5; 3; 9]; _writers := [] |}).
Proof.
  apply (get_min_consumer_sequence_is_least
           {| _buffer := @nil Z; _slot_sequences := []; _next_sequence := 10;
              _readers := [5; 3; 9]; _writers := [] |}).
  - intros [|[|[|r]]] c Hc; simpl in Hc; try discriminate;
      injection Hc as <-; unfold INT64_MAX; lia.
  - simpl. discriminate.
Defined.

End CreationFacts.

(** ** The running queue, step by step *)

Module TransitionFacts.
Import Machine BitUtils MachineFacts BitUtilsFacts Queue CapacityFacts.
Import SequentialFacts RunningFacts Transitions.

Section Agreement.

Context {T : Type} (value_init : T) (CAPACITY : Z).

Local Abbreviation step := (@Queue.step T CAPACITY).
Local Abbreviation exec := (@Queue.exec T CAPACITY).
Local Abbreviation transition := (@Transitions.transition T CAPACITY).

(** The relation is the function. *)
Lemma step_transition (σ : system T) a σ' evs :
  step σ a = Some (σ', evs) -> transition σ a σ' evs.
Proof.
  intros Hstep.
  unfold Queue.step, writer_moves, reader_moves in Hstep.
  destruct a as [w value|w|r output|r].
  - destruct (writer_pcs σ !! w) as [pc|] eqn:Hpc; simpl in Hstep; [|discriminate].
    destruct (_writers (shared σ) !! w) as [cached|] eqn:Hcached;
      simpl in Hstep; [|discriminate].
    destruct pc; try discriminate. injection Hstep as <- <-.
    eapply claim. split; eassumption.
  - destruct (writer_pcs σ !! w) as [pc|] eqn:Hpc; simpl in Hstep; [|discriminate].
    destruct (_writers (shared σ) !! w) as [cached|] eqn:Hcached;
      simpl in Hstep; [|discriminate].
    assert (Hat : writer_at σ w pc cached) by (split; assumption).
    destruct pc as [|s v|s v|s v j m|s v|s i]; [discriminate| | | | |].
    + fold (wrap_point CAPACITY s) in Hstep.
      destruct (Z.leb_spec (wrap_point CAPACITY s) cached);
        injection Hstep as <- <-.
      * eapply check_passes; eassumption.
      * eapply check_fails; eassumption.
    + fold (wrap_point CAPACITY s) in Hstep.
      destruct (Z.gtb_spec (wrap_point CAPACITY s) cached).
      * destruct (_readers (shared σ)) as [|c0 rs] eqn:Hreaders;
          injection Hstep as <- <-.
        -- eapply loop_without_readers; eassumption.
        -- eapply loop_scans; [eassumption|assumption|].
           rewrite Hreaders. discriminate.
      * injection Hstep as <- <-. eapply loop_ends; [eassumption|lia].
    + destruct (_readers (shared σ) !! j) as [reader_seq|] eqn:Hj;
        injection Hstep as <- <-.
      * eapply scan_loads; eassumption.
      * eapply scan_ends; eassumption.
    + destruct (array_store (_buffer (shared σ)) (index_from_sequence CAPACITY s) v)
        as [b|] eqn:Hstore; simpl in Hstep; [|discriminate].
      injection Hstep as <- <-.
      apply array_store_Some in Hstore as (Hi & Hlen & ->).
      eapply store; eassumption.
    + destruct (array_store (_slot_sequences (shared σ)) i s) as [st|] eqn:Hstore;
        simpl in Hstep; [|discriminate].
      injection Hstep as <- <-.
      apply array_store_Some in Hstore as (Hi & Hlen & ->).
      eapply commit; eassumption.
  - destruct (reader_pcs σ !! r) as [pc|] eqn:Hpc; simpl in Hstep; [|discriminate].
    destruct (_readers (shared σ) !! r) as [c|] eqn:Hc;
      simpl in Hstep; [|discriminate].
    destruct pc; try discriminate. injection Hstep as <- <-.
    eapply enter_read. split; eassumption.
  - destruct (reader_pcs σ !! r) as [pc|] eqn:Hpc; simpl in Hstep; [|discriminate].
    destruct (_readers (shared σ) !! r) as [c|] eqn:Hc;
      simpl in Hstep; [|discriminate].
    assert (Hat : reader_at σ r pc c) by (split; assumption).
    destruct pc as [|next i o|next i o|next v]; [discriminate| | |].
    + destruct (array_load (_slot_sequences (shared σ)) i) as [stamp|] eqn:Hload;
        simpl in Hstep; [|discriminate].
      apply array_load_Some in Hload as [Hi Hload].
      destruct (Z.eqb_spec stamp next) as [->|Hne]; injection Hstep as <- <-.
      * eapply wait_ends; eassumption.
      * eapply wait_spins; eassumption.
    + destruct (array_load (_buffer (shared σ)) i) as [value|] eqn:Hload;
        simpl in Hstep; [|discriminate].
      apply array_load_Some in Hload as [Hi Hload].
      injection Hstep as <- <-. eapply copy; eassumption.
    + injection Hstep as <- <-. eapply update; eassumption.
Qed.

Lemma transition_step (σ : system T) a σ' evs :
  transition σ a σ' evs -> step σ a = Some (σ', evs).
Proof.
  intros Htr. unfold Queue.step, writer_moves, reader_moves.
  destruct Htr;
    repeat match goal with
    | H : writer_at _ _ _ _ |- _ => destruct H as [-> ->]
    | H : reader_at _ _ _ _ |- _ => destruct H as [-> ->]
    end; simpl; try reflexivity.
  - fold (wrap_point CAPACITY s).
    destruct (Z.leb_spec (wrap_point CAPACITY s) cached); [reflexivity|lia].
  - fold (wrap_point CAPACITY s).
    destruct (Z.leb_spec (wrap_point CAPACITY s) cached); [lia|reflexivity].
  - fold (wrap_point CAPACITY s).
    destruct (Z.gtb_spec (wrap_point CAPACITY s) cached); [lia|reflexivity].
  - fold (wrap_point CAPACITY s).
    destruct (Z.gtb_spec (wrap_point CAPACITY s) cached); [|lia].
    rewrite H1. reflexivity.
  - fold (wrap_point CAPACITY s).
    destruct (Z.gtb_spec (wrap_point CAPACITY s) cached); [|lia].
    destruct (_readers (shared σ)); [congruence|reflexivity].
  - rewrite H0. reflexivity.
  - rewrite H0. reflexivity.
  - rewrite array_store_in_range by lia. reflexivity.
  - rewrite array_store_in_range by lia. reflexivity.
  - unfold array_load. destruct (Z.leb_spec 0 i); [|lia]. rewrite H1. simpl.
    destruct (Z.eqb_spec stamp next); [contradiction|reflexivity].
  - unfold array_load. destruct (Z.leb_spec 0 i); [|lia]. rewrite H1. simpl.
    rewrite Z.eqb_refl. reflexivity.
  - unfold array_load. destruct (Z.leb_spec 0 i); [|lia]. rewrite H1. reflexivity.
Qed.

End Agreement.

End TransitionFacts.

(** ** The running queue: what the ring holds *)

Module RingFacts.
Import Machine BitUtils MachineFacts BitUtilsFacts Queue CapacityFacts.
Import SequentialFacts RunningFacts Transitions TransitionFacts.

Section Ring.

Context {T : Type} (value_init : T) (CAPACITY : Z).
Hypothesis capacity_valid : valid_capacity CAPACITY = true.

Local Abbreviation index := (index_from_sequence CAPACITY).
Local Abbreviation slot := (Queue.slot CAPACITY).
Local Abbreviation step := (@Queue.step T CAPACITY).
Local Abbreviation exec := (@Queue.exec T CAPACITY).
Local Abbreviation invariant := (@Queue.invariant T CAPACITY).
Local Abbreviation ring_invariant := (@Transitions.ring_invariant T CAPACITY).

Lemma boot_ring_invariant nr nw :
  ring_invariant (boot value_init CAPACITY nr nw) [].
Proof.
  split; simpl.
  - intros s [Hs _]. unfold claims in Hs. simpl in Hs. lia.
  - intros s _ [=].
  - intros s v _ [=].
  - intros w s v j m cached H. apply lookup_replicate in H as [[=] _].
Qed.

(** A step of writer [w] that touches neither the payload slots nor
    the slot sequences nor the trace. *)
Lemma ring_writer_moves (σ : system T) tr w pc pc' q' :
  ring_invariant σ tr ->
  writer_pcs σ !! w = Some pc ->
  claimed_of pc' = claimed_of pc ->
  (forall s i, pc <> WCommit s i) ->
  (forall s i, pc' <> WCommit s i) ->
  _buffer q' = _buffer (shared σ) ->
  _slot_sequences q' = _slot_sequences (shared σ) ->
  _readers q' = _readers (shared σ) ->
  (forall w0, w0 <> w -> _writers q' !! w0 = _writers (shared σ) !! w0) ->
  (forall s v j m cached,
     pc' = WMinScan s v j m -> _writers q' !! w = Some cached -> cached <= m) ->
  ring_invariant (writer_goes σ w q' pc') tr.
Proof.
  intros [Hh Hst Hpl Hsc] Hpc Hcl Hnc0 Hnc Hb Hs Hr Hw Hscan.
  pose proof (lookup_lt_Some _ _ _ Hpc) as Hlt.
  split; simpl.
  - intros s Hfl. destruct (Hh s Hfl) as (w0 & pc0 & Hpc0 & Hs0).
    destruct (decide (w0 = w)) as [->|Hne].
    + exists w, pc'. rewrite list_lookup_insert_eq by assumption.
      split; [reflexivity|]. congruence.
    + exists w0, pc0. rewrite list_lookup_insert_ne by congruence. auto.
  - rewrite Hr, Hs. exact Hst.
  - rewrite Hr, Hs, Hb. intros s v Hne Hp Hs' Hv Hco.
    apply Hpl; try assumption.
    intros w0 s' i Hw0. apply (Hco w0 s' i).
    rewrite list_lookup_insert_ne; [assumption|].
    intros <-. rewrite Hpc in Hw0. injection Hw0 as ->. eapply Hnc0; reflexivity.
  - intros w0 s v j m cached Hw0 Hc.
    apply list_lookup_insert_Some in Hw0 as [(<- & Heq & _)|(Hne & Hw0)].
    + eapply Hscan; eauto.
    + rewrite Hw in Hc by congruence. eapply Hsc; eassumption.
Qed.

(** A step that changes a reader's position only. *)
Lemma ring_reader_moves (σ : system T) tr r pc' :
  ring_invariant σ tr -> ring_invariant (reader_goes σ r (shared σ) pc') tr.
Proof. intros [Hh Hst Hpl Hsc]. split; simpl; assumption. Qed.

Lemma ring_update (σ : system T) tr r next value :
  ring_invariant σ tr ->
  ring_invariant
    (reader_goes σ r (update_consumer_sequence (shared σ) r next) RIdle)
    (EvRead r next value :: tr).
Proof.
  intros [Hh Hst Hpl Hsc].
  assert (Hne : forall rs : list Z, <[r := next]> rs <> [] -> rs <> []).
  { intros [|c rs] H; [exact H|discriminate]. }
  split; simpl.
  - exact Hh.
  - intros s H. apply Hst. apply Hne. exact H.
  - intros s v H. apply Hpl. apply Hne. exact H.
  - exact Hsc.
Qed.

Lemma ring_claim (σ : system T) tr w value cached :
  invariant σ tr -> ring_invariant σ tr ->
  writer_at σ w WIdle cached ->
  ring_invariant
    (writer_goes σ w
       (set_next_sequence (shared σ) (to_int64 (_next_sequence (shared σ) + 1)))
       (WWrapCheck (_next_sequence (shared σ)) value))
    (EvClaim w (_next_sequence (shared σ)) value :: tr).
Proof.
  intros [Hsh _ _] [Hh Hst Hpl Hsc] [Hpc Hcached].
  pose proof (lookup_lt_Some _ _ _ Hpc) as Hlt.
  split; simpl.
  - intros s [Hs Hp]. rewrite claims_claim in Hs. simpl in Hp.
    destruct (Z.eq_dec s (claims tr)) as [->|Hne].
    + exists w, (WWrapCheck (_next_sequence (shared σ)) value).
      rewrite list_lookup_insert_eq by assumption.
      split; [reflexivity|]. simpl. f_equal. apply (inv_next _ _ _ Hsh).
    + destruct (Hh s) as (w0 & pc0 & Hpc0 & Hs0); [split; [lia|assumption]|].
      exists w0, pc0. split; [|assumption].
      rewrite list_lookup_insert_ne; [assumption|].
      intros <-. rewrite Hpc in Hpc0. injection Hpc0 as <-. discriminate.
  - exact Hst.
  - intros s v Hne Hp Hs Hv Hco.
    destruct (inv_published _ _ _ Hsh s Hp) as [Hrange _].
    destruct (claimed_values tr !! Z.to_nat s) as [v0|] eqn:Hv0.
    2:{ apply lookup_ge_None in Hv0. unfold claims in Hrange. lia. }
    rewrite (lookup_snoc_old _ _ _ _ Hv0) in Hv. injection Hv as <-.
    apply Hpl; try assumption.
    intros w0 s' i Hw0. apply (Hco w0 s' i).
    rewrite list_lookup_insert_ne; [assumption|].
    intros <-. rewrite Hpc in Hw0. discriminate.
  - intros w0 s v j m c Hw0 Hc.
    apply list_lookup_insert_Some in Hw0 as [(_ & [=] & _)|(_ & Hw0)].
    eapply Hsc; eassumption.
Qed.

Lemma ring_store (σ : system T) tr w s v cached :
  invariant σ tr -> ring_invariant σ tr ->
  writer_at σ w (WStore s v) cached ->
  ring_invariant
    (writer_goes σ w
       (set_buffer (shared σ) (<[Z.to_nat (index s) := v]> (_buffer (shared σ))))
       (WCommit s (index s)))
    (EvStore w s (index s) :: tr).
Proof.
  intros [Hsh _ _] [Hh Hst Hpl Hsc] [Hpc Hcached].
  pose proof (lookup_lt_Some _ _ _ Hpc) as Hlt.
  split; simpl.
  - intros s0 Hfl. destruct (Hh s0 Hfl) as (w0 & pc0 & Hpc0 & Hs0).
    destruct (decide (w0 = w)) as [->|Hne].
    + exists w, (WCommit s (index s)).
      rewrite list_lookup_insert_eq by assumption.
      split; [reflexivity|]. rewrite Hpc in Hpc0. injection Hpc0 as <-.
      exact Hs0.
    + exists w0, pc0. rewrite list_lookup_insert_ne by congruence. auto.
  - exact Hst.
  - intros s0 v0 Hne Hp Hs Hv Hco.
    assert (Hslots : slot s <> slot s0).
    { apply (Hco w s (index s)). apply list_lookup_insert_eq. assumption. }
    rewrite list_lookup_insert_ne by exact Hslots.
    apply Hpl; try assumption.
    intros w0 s' i Hw0. apply (Hco w0 s' i).
    rewrite list_lookup_insert_ne; [assumption|].
    intros <-. rewrite Hpc in Hw0. discriminate.
  - intros w0 s0 v0 j m c Hw0 Hc.
    apply list_lookup_insert_Some in Hw0 as [(_ & [=] & _)|(_ & Hw0)].
    eapply Hsc; eassumption.
Qed.

Lemma in_flight_above_reader (q : disruptor_queue T) tr s r c :
  shared_invariant CAPACITY q tr -> in_flight tr s ->
  _readers q !! r = Some c -> c < s.
Proof.
  intros Hsh [Hs Hp] Hc.
  destruct (inv_reader _ _ _ Hsh _ _ Hc) as [_ Hall].
  destruct (Z.lt_ge_cases c s) as [|Hle]; [assumption|].
  rewrite Hall in Hp by lia. discriminate.
Qed.

Lemma ring_commit (σ : system T) tr w s i cached :
  invariant σ tr -> ring_invariant σ tr ->
  writer_at σ w (WCommit s i) cached ->
  ring_invariant
    (writer_goes σ w
       (set_slot_sequences (shared σ)
          (<[Z.to_nat i := s]> (_slot_sequences (shared σ))))
       WIdle)
    (EvPublish w s i :: tr).
Proof.
  intros [Hsh Hws _] [Hh Hst Hpl Hsc] [Hpc Hcached].
  pose proof (lookup_lt_Some _ _ _ Hpc) as Hlt.
  destruct (inv_writer _ _ _ _ Hws _ _ Hpc) as (Hfl & Hpass & -> & Hval).
  fold (slot s).
  assert (Hslot : (slot s < length (_slot_sequences (shared σ)))%nat).
  { rewrite (inv_slots_length _ _ _ Hsh). apply slot_lt. exact capacity_valid. }
  split; simpl.
  - intros s0 [Hs0 Hp0]. apply orb_false_iff in Hp0 as [Hne Hp0].
    apply Z.eqb_neq in Hne.
    destruct (Hh s0) as (w0 & pc0 & Hpc0 & Hcl0); [split; assumption|].
    exists w0, pc0. split; [|assumption].
    rewrite list_lookup_insert_ne; [assumption|].
    intros <-. rewrite Hpc in Hpc0. injection Hpc0 as <-.
    simpl in Hcl0. congruence.
  - intros s0 Hne Hp0.
    destruct (decide (slot s0 = slot s)) as [Heq|Hdiff].
    + rewrite Heq, list_lookup_insert_eq by assumption.
      exists s. split; [reflexivity|].
      apply orb_true_iff in Hp0 as [Hs0|Hp0]; [apply Z.eqb_eq in Hs0; lia|].
      destruct (_readers (shared σ)) as [|c rs] eqn:Hrs; [congruence|].
      assert (Hc : _readers (shared σ) !! 0%nat = Some c) by (rewrite Hrs; reflexivity).
      assert (s0 <= c).
      { eapply (passed_slot_consumed CAPACITY capacity_valid); eauto. }
      assert (c < s) by (eapply in_flight_above_reader; eauto).
      lia.
    + rewrite list_lookup_insert_ne by congruence.
      apply orb_true_iff in Hp0 as [Hs0|Hp0];
        [apply Z.eqb_eq in Hs0; congruence|].
      apply Hst; assumption.
  - intros s0 v0 Hne Hp0 Hs0 Hv0 Hco.
    destruct (decide (slot s0 = slot s)) as [Heq|Hdiff].
    + rewrite Heq, list_lookup_insert_eq in Hs0 by assumption.
      injection Hs0 as <-.
      destruct (Hval Hne) as (v & Hb & Hv). congruence.
    + rewrite list_lookup_insert_ne in Hs0 by congruence.
      apply orb_true_iff in Hp0 as [Hs1|Hp0];
        [apply Z.eqb_eq in Hs1; congruence|].
      apply Hpl; try assumption.
      intros w0 s' i' Hw0.
      destruct (decide (w0 = w)) as [->|Hw].
      * rewrite Hpc in Hw0. injection Hw0 as <- <-. congruence.
      * apply (Hco w0 s' i'). rewrite list_lookup_insert_ne; congruence.
  - intros w0 s0 v0 j m c Hw0 Hc.
    apply list_lookup_insert_Some in Hw0 as [(_ & [=] & _)|(_ & Hw0)].
    eapply Hsc; eassumption.
Qed.

Lemma step_ring_invariant (σ : system T) tr a σ' evs :
  invariant σ tr -> ring_invariant σ tr ->
  step σ a = Some (σ', evs) ->
  ring_invariant σ' (evs ++ tr).
Proof.
  intros Hinv Hring Hstep. pose proof Hinv as [Hsh Hws Hrs].
  apply step_transition in Hstep.
  destruct Hstep as
    [w value cached Hat
    |w s v cached Hat Hle|w s v cached Hat Hlt
    |w s v cached Hat Hle|w s v cached Hat Hlt Hnil|w s v cached Hat Hlt Hne
    |w s v j m cached c Hat Hj|w s v j m cached Hat Hj
    |w s v cached Hat Hi Hlen|w s i cached Hat Hi Hlen
    |r output c Hat|r next i output c stamp Hat Hi Hstamp Hne
    |r next i output c Hat Hi Hstamp|r next i output c value Hat Hi Hvalue
    |r next value c Hat]; simpl.
  - apply ring_claim with cached; assumption.
  - destruct Hat as [Hpc Hc].
    eapply ring_writer_moves; eauto; congruence.
  - destruct Hat as [Hpc Hc].
    eapply ring_writer_moves; eauto; congruence.
  - destruct Hat as [Hpc Hc].
    eapply ring_writer_moves; eauto; congruence.
  - destruct Hat as [Hpc Hc].
    eapply ring_writer_moves; eauto; simpl; try congruence.
    intros w0 Hw0. rewrite list_lookup_insert_ne by congruence. reflexivity.
  - destruct Hat as [Hpc Hc].
    eapply ring_writer_moves; eauto; simpl; try congruence.
    intros s0 v0 j m c [= <- <- <- <-] Hc'.
    assert (c = cached) as -> by congruence.
    apply (inv_cache _ _ _ Hsh _ _ Hc).
  - destruct Hat as [Hpc Hc].
    eapply ring_writer_moves; eauto; simpl; try congruence.
    intros s0 v0 j0 m0 c0 [= <- <- <- <-] Hc'.
    assert (c0 = cached) as -> by congruence.
    pose proof (ring_scan _ _ _ Hring _ _ _ _ _ _ Hpc Hc).
    pose proof (proj2 (inv_cache _ _ _ Hsh _ _ Hc) _ _ Hj). lia.
  - destruct Hat as [Hpc Hc].
    eapply ring_writer_moves; eauto; simpl; try congruence.
    intros w0 Hw0. rewrite list_lookup_insert_ne by congruence. reflexivity.
  - apply ring_store with cached; assumption.
  - apply ring_commit with cached; assumption.
  - apply ring_reader_moves. assumption.
  - apply ring_reader_moves. assumption.
  - apply ring_reader_moves. assumption.
  - apply ring_reader_moves. assumption.
  - apply ring_update. assumption.
Qed.

Lemma exec_invariants sched : forall (σ : system T) tr σ' tr',
  invariant σ tr -> ring_invariant σ tr ->
  exec σ tr sched = Some (σ', tr') ->
  no_wrap tr' ->
  invariant σ' tr' /\ ring_invariant σ' tr'.
Proof.
  induction sched as [|a sched IH]; intros σ tr σ' tr' Hinv Hring Hexec Hnw.
  - simpl in Hexec. injection Hexec as <- <-. auto.
  - simpl in Hexec. destruct (step σ a) as [[σ1 evs]|] eqn:Hstep; [|discriminate].
    assert (Hinv1 : invariant σ1 (evs ++ tr)).
    { eapply (exec_invariant CAPACITY capacity_valid [a]).
      - exact Hinv.
      - simpl. rewrite Hstep. reflexivity.
      - clear IH Hinv Hring Hstep. revert σ1 tr evs Hexec.
        induction sched as [|b sched IH]; intros σ1 tr evs Hexec.
        + simpl in Hexec. injection Hexec as <- <-. exact Hnw.
        + simpl in Hexec.
          destruct (step σ1 b) as [[σ2 evs']|] eqn:Hstep; [|discriminate].
          eapply step_no_wrap; [exact Hstep|]. eapply IH. exact Hexec. }
    eapply IH; [exact Hinv1| |exact Hexec|exact Hnw].
    eapply step_ring_invariant; eassumption.
Qed.

Lemma reachable_invariants nr nw (σ : system T) tr :
  reachable value_init CAPACITY nr nw σ tr -> no_wrap tr ->
  invariant σ tr /\ ring_invariant σ tr.
Proof.
  intros [sched Hexec] Hnw.
  eapply exec_invariants; [| |exact Hexec|exact Hnw].
  - apply boot_invariant; exact capacity_valid.
  - apply boot_ring_invariant.
Qed.

End Ring.

End RingFacts.

(** ** The running queue: safety beyond the slot sequences *)

Module SafetyFacts.
Import Machine BitUtils MachineFacts BitUtilsFacts Queue CapacityFacts.
Import SequentialFacts RunningFacts Transitions TransitionFacts RingFacts.

Section Safety.

Context {T : Type} (value_init : T) (CAPACITY : Z).
Hypothesis capacity_valid : valid_capacity CAPACITY = true.

Local Abbreviation index := (index_from_sequence CAPACITY).
Local Abbreviation slot := (Queue.slot CAPACITY).
Local Abbreviation step := (@Queue.step T CAPACITY).
Local Abbreviation exec := (@Queue.exec T CAPACITY).
Local Abbreviation invariant := (@Queue.invariant T CAPACITY).
Local Abbreviation ring_invariant := (@Transitions.ring_invariant T CAPACITY).
Local Abbreviation reachable := (@Queue.reachable T value_init CAPACITY).

Lemma index_neq s s' : slot s <> slot s' -> index s <> index s'.
Proof. unfold Queue.slot. congruence. Qed.

(** X9: the payload slots are free of data races, although they are
    plain objects.  With at least one reader, two writers that are
    both about to assign a payload slot are at different slots; and a
    writer that is about to assign a slot is never at the slot a
    reader is about to copy. *)
Theorem payload_accesses_never_conflict nr nw (σ : system T) tr :
  reachable nr nw σ tr ->
  no_wrap tr ->
  (forall w w' s v s' v',
     _readers (shared σ) <> [] ->
     w <> w' ->
     writer_pcs σ !! w = Some (WStore s v) ->
     writer_pcs σ !! w' = Some (WStore s' v') ->
     index s <> index s') /\
  (forall w s v r next i output,
     writer_pcs σ !! w = Some (WStore s v) ->
     reader_pcs σ !! r = Some (RCopy next i output) ->
     index s <> i).
Proof.
  intros Hreach Hnw.
  pose proof (reachable_invariant value_init CAPACITY capacity_valid _ _ _ _
                Hreach Hnw) as [Hsh Hws Hrs].
  split.
  - intros w w' s v s' v' Hne Hww Hw Hw'.
    destruct (inv_writer _ _ _ _ Hws _ _ Hw) as (Hfl & _ & Hpass).
    destruct (inv_writer _ _ _ _ Hws _ _ Hw') as (Hfl' & _ & Hpass').
    apply index_neq.
    eapply (passed_slots_differ CAPACITY capacity_valid); eauto.
    intros <-. apply Hww. eapply (inv_distinct _ _ _ _ Hws); eauto.
  - intros w s v r next i output Hw Hr.
    assert (Hc : is_Some (_readers (shared σ) !! r)).
    { apply lookup_lt_is_Some. rewrite <- (inv_readers_length _ _ _ _ Hrs).
      eapply lookup_lt_Some. exact Hr. }
    destruct Hc as [c Hc].
    destruct (inv_writer _ _ _ _ Hws _ _ Hw) as (Hfl & _ & cached & Hcached & Hle).
    destruct (inv_reader_pc _ _ _ _ Hrs _ _ _ Hc Hr) as (-> & -> & Hpub).
    pose proof (proj2 (inv_cache _ _ _ Hsh _ _ Hcached) _ _ Hc) as Hcache.
    pose proof (in_flight_above_reader CAPACITY _ _ _ _ _ Hsh Hfl Hc) as Habove.
    assert (s <> c + 1).
    { intros ->. destruct Hfl as [_ Hfl]. congruence. }
    apply index_neq.
    apply (slot_neq_near CAPACITY capacity_valid). lia.
Qed.

Lemma recent_item_in_slot (σ : system T) tr s :
  invariant σ tr -> ring_invariant σ tr ->
  _readers (shared σ) <> [] ->
  published tr s = true ->
  claims tr - CAPACITY <= s ->
  _slot_sequences (shared σ) !! slot s = Some s /\
  exists v, _buffer (shared σ) !! slot s = Some v /\
            claimed_values tr !! Z.to_nat s = Some v.
Proof.
  intros [Hsh Hws Hrs] Hring Hne Hp Hlate.
  destruct (inv_published _ _ _ Hsh s Hp) as [Hrange Hreaders].
  destruct (ring_stamp _ _ _ Hring s Hne Hp) as (stamp & Hstamp & Hge).
  assert (Hst : stamp = s).
  { destruct (inv_stamp_published _ _ _ Hsh _ _ Hstamp) as [Hpst Hslot].
    { unfold INITIAL_SEQUENCE. lia. }
    destruct (inv_published _ _ _ Hsh stamp Hpst) as [Hrange' _].
    destruct (Z.eq_dec stamp s) as [|Hdiff]; [assumption|exfalso].
    assert (s <= stamp - CAPACITY).
    { apply (slot_eq_apart CAPACITY capacity_valid stamp s); [assumption|lia]. }
    lia. }
  subst stamp. split; [exact Hstamp|].
  destruct (claimed_values tr !! Z.to_nat s) as [v|] eqn:Hv.
  2:{ apply lookup_ge_None in Hv. unfold claims in Hrange. lia. }
  exists v. split; [|reflexivity].
  apply (ring_payload _ _ _ Hring s v Hne Hp Hstamp Hv).
  intros w s' i Hw Hslots.
  destruct (inv_writer _ _ _ _ Hws _ _ Hw) as (Hfl & _).
  destruct (_readers (shared σ)) as [|c rs] eqn:Hrs'; [congruence|].
  assert (Hc : _readers (shared σ) !! 0%nat = Some c) by (rewrite Hrs'; reflexivity).
  pose proof (in_flight_above_reader CAPACITY _ _ _ _ _ Hsh Hfl Hc) as Habove.
  pose proof (Hreaders 0%nat c eq_refl) as Hs.
  destruct Hfl as [Hs' Hunp].
  assert (s' <> s) by congruence.
  destruct (Z.lt_ge_cases s s') as [Hlt|Hge'].
  - assert (s <= s' - CAPACITY); [|lia].
    apply (slot_eq_apart CAPACITY capacity_valid s' s); [assumption|lia].
  - assert (s' <= s - CAPACITY); [|lia].
    apply (slot_eq_apart CAPACITY capacity_valid s s'); [congruence|lia].
Qed.

Lemma idle_writers_all_published (σ : system T) tr s :
  ring_invariant σ tr ->
  (forall w pc, writer_pcs σ !! w = Some pc -> pc = WIdle) ->
  0 <= s < claims tr -> published tr s = true.
Proof.
  intros Hring Hidle Hs.
  destruct (published tr s) eqn:Hp; [reflexivity|exfalso].
  destruct (ring_holder _ _ _ Hring s) as (w & pc & Hpc & Hcl);
    [split; assumption|].
  rewrite (Hidle _ _ Hpc) in Hcl. discriminate.
Qed.

(** X10: with at least one reader the ring holds the latest items: a
    published sequence among the last [CAPACITY] claimed ones is in its
    slot, sequence and payload; and when no writer is inside [write]
    every claimed sequence is published. *)
Theorem ring_holds_latest_items nr nw (σ : system T) tr :
  reachable nr nw σ tr ->
  no_wrap tr ->
  (forall s,
     _readers (shared σ) <> [] ->
     published tr s = true ->
     claims tr - CAPACITY <= s ->
     _slot_sequences (shared σ) !! Z.to_nat (s mod CAPACITY) = Some s /\
     exists v, _buffer (shared σ) !! Z.to_nat (s mod CAPACITY) = Some v /\
               claimed_values tr !! Z.to_nat s = Some v) /\
  ((forall w pc, writer_pcs σ !! w = Some pc -> pc = WIdle) ->
   forall s, 0 <= s < claims tr -> published tr s = true).
Proof.
  intros Hreach Hnw.
  destruct (reachable_invariants value_init CAPACITY capacity_valid _ _ _ _
              Hreach Hnw) as [Hinv Hring].
  split.
  - intros s Hne Hp Hlate.
    rewrite <- (index_mod CAPACITY capacity_valid s).
    apply recent_item_in_slot; assumption.
  - intros Hidle s Hs. eapply idle_writers_all_published; eassumption.
Qed.

Lemma claimed_of_in_flight (σ : system T) tr w pc s :
  invariant σ tr ->
  writer_pcs σ !! w = Some pc -> claimed_of pc = Some s -> in_flight tr s.
Proof.
  intros [_ Hws _] Hpc Hs.
  pose proof (inv_writer _ _ _ _ Hws _ _ Hpc) as Hinv.
  destruct pc; simpl in Hs; try discriminate; injection Hs as ->;
    simpl in Hinv; tauto.
Qed.

(** Sequences [base .. base + k - 1] that are all held: their holders
    are as many different writers. *)
Lemma holders_are_distinct (pcs : list (writer_pc T)) base k :
  (forall i, (i < k)%nat ->
     exists w pc, pcs !! w = Some pc /\ claimed_of pc = Some (base + Z.of_nat i)) ->
  (k <= length pcs)%nat.
Proof.
  intros Hheld.
  assert (Hl : exists l : list nat,
             length l = k /\ NoDup l /\
             forall w, w ∈ l ->
               exists i pc, (i < k)%nat /\ pcs !! w = Some pc /\
                            claimed_of pc = Some (base + Z.of_nat i)).
  { induction k as [|k IH].
    - exists []. split; [reflexivity|]. split; [constructor|].
      intros w Hw. inversion Hw.
    - destruct IH as (l & Hlen & Hnd & Hl).
      { intros i Hi. apply Hheld. lia. }
      destruct (Hheld k) as (w & pc & Hpc & Hcl); [lia|].
      exists (w :: l). split; [simpl; congruence|]. split.
      + apply NoDup_cons_2; [|exact Hnd]. intros Hin.
        destruct (Hl w Hin) as (i & pc' & Hi & Hpc' & Hcl').
        rewrite Hpc in Hpc'. injection Hpc' as <-.
        rewrite Hcl in Hcl'. injection Hcl' as Heq. lia.
      + intros w' Hw'. apply elem_of_cons in Hw' as [->|Hw'].
        * exists k, pc. split; [lia|]. split; assumption.
        * destruct (Hl w' Hw') as (i & pc' & Hi & Hpc' & Hcl').
          exists i, pc'. split; [lia|]. split; assumption. }
  destruct Hl as (l & <- & Hnd & Hl).
  rewrite <- (length_seq (length pcs) 0).
  apply submseteq_length, NoDup_submseteq; [exact Hnd|].
  intros w Hw. destruct (Hl w Hw) as (_ & pc & _ & Hpc & _).
  apply elem_of_seq. apply lookup_lt_Some in Hpc. lia.
Qed.

(** X11: every claimed sequence is accounted for: it is published, or
    exactly one writer is inside [write] with it; a writer inside
    [write] holds a claimed sequence that is not yet published.  So
    the counter is never further ahead of a reader than the capacity
    plus the number of writers. *)
Theorem claimed_sequences_are_published_or_held nr nw (σ : system T) tr :
  reachable nr nw σ tr ->
  no_wrap tr ->
  (forall s,
     0 <= s < claims tr -> published tr s = false ->
     exists w pc,
       writer_pcs σ !! w = Some pc /\ claimed_of pc = Some s /\
       forall w' pc', writer_pcs σ !! w' = Some pc' ->
                      claimed_of pc' = Some s -> w' = w) /\
  (forall w pc s,
     writer_pcs σ !! w = Some pc -> claimed_of pc = Some s ->
     0 <= s < claims tr /\ published tr s = false) /\
  (forall r c,
     _readers (shared σ) !! r = Some c ->
     _next_sequence (shared σ) <=
       c + 1 + CAPACITY + Z.of_nat (length (writer_pcs σ))).
Proof.
  intros Hreach Hnw.
  destruct (reachable_invariants value_init CAPACITY capacity_valid _ _ _ _
              Hreach Hnw) as [Hinv Hring].
  pose proof Hinv as [Hsh Hws Hrs].
  split; [|split].
  - intros s Hs Hp.
    destruct (ring_holder _ _ _ Hring s) as (w & pc & Hpc & Hcl);
      [split; assumption|].
    exists w, pc. split; [assumption|]. split; [assumption|].
    intros w' pc' Hpc' Hcl'. eapply (inv_distinct _ _ _ _ Hws); eauto.
  - intros w pc s Hpc Hcl. eapply claimed_of_in_flight; eauto.
  - intros r c Hc. rewrite (inv_next _ _ _ Hsh).
    destruct (inv_reader _ _ _ Hsh _ _ Hc) as [Hcr _].
    pose proof (CAPACITY_range CAPACITY capacity_valid) as HC.
    destruct (Z.le_gt_cases (claims tr) (c + 1 + CAPACITY)) as [|Hfar]; [lia|].
    assert (Hk : (Z.to_nat (claims tr - (c + 1 + CAPACITY))
                  <= length (writer_pcs σ))%nat).
    { apply (holders_are_distinct _ (c + 1 + CAPACITY)).
      intros i Hi.
      destruct (ring_holder _ _ _ Hring (c + 1 + CAPACITY + Z.of_nat i))
        as (w & pc & Hpc & Hcl); [|eauto].
      split; [lia|].
      destruct (published tr (c + 1 + CAPACITY + Z.of_nat i)) eqn:Hp;
        [|reflexivity].
      destruct (inv_published _ _ _ Hsh _ Hp) as [_ Hall].
      specialize (Hall _ _ Hc). lia. }
    lia.
Qed.

Lemma insert_lookup_cases {A} (l : list A) i x j y y' :
  l !! j = Some y -> <[i := x]> l !! j = Some y' ->
  (j = i /\ y' = x) \/ y' = y.
Proof.
  intros Hy Hy'.
  apply list_lookup_insert_Some in Hy' as [(<- & <- & _)|(_ & Hy')];
    [left; auto|right; congruence].
Qed.

(** X12: nothing in the queue ever goes back.  A step leaves the
    counter, every consumer sequence and every writer's cache where
    they are or raises them (the counter and a consumer sequence by
    one); with at least one reader the same holds of the slot
    sequences. *)
Theorem sequences_only_advance nr nw (σ : system T) tr a σ' evs :
  reachable nr nw σ tr ->
  step σ a = Some (σ', evs) ->
  no_wrap (evs ++ tr) ->
  _next_sequence (shared σ) <= _next_sequence (shared σ')
    <= _next_sequence (shared σ) + 1 /\
  (forall r c c',
     _readers (shared σ) !! r = Some c ->
     _readers (shared σ') !! r = Some c' -> c <= c' <= c + 1) /\
  (forall w cached cached',
     _writers (shared σ) !! w = Some cached ->
     _writers (shared σ') !! w = Some cached' -> cached <= cached') /\
  (forall i stamp stamp',
     _readers (shared σ) <> [] ->
     _slot_sequences (shared σ) !! i = Some stamp ->
     _slot_sequences (shared σ') !! i = Some stamp' -> stamp <= stamp').
Proof.
  intros Hreach Hstep Hnw'.
  pose proof (step_no_wrap CAPACITY _ _ _ _ _ Hstep Hnw') as Hnw.
  destruct (reachable_invariants value_init CAPACITY capacity_valid _ _ _ _
              Hreach Hnw) as [Hinv Hring].
  pose proof Hinv as [Hsh Hws Hrs].
  assert (Hsame : forall q' : disruptor_queue T,
    _next_sequence q' = _next_sequence (shared σ) ->
    _readers q' = _readers (shared σ) ->
    _writers q' = _writers (shared σ) ->
    _slot_sequences q' = _slot_sequences (shared σ) ->
    _next_sequence (shared σ) <= _next_sequence q'
      <= _next_sequence (shared σ) + 1 /\
    (forall r c c',
       _readers (shared σ) !! r = Some c ->
       _readers q' !! r = Some c' -> c <= c' <= c + 1) /\
    (forall w cached cached',
       _writers (shared σ) !! w = Some cached ->
       _writers q' !! w = Some cached' -> cached <= cached') /\
    (forall i stamp stamp',
       _readers (shared σ) <> [] ->
       _slot_sequences (shared σ) !! i = Some stamp ->
       _slot_sequences q' !! i = Some stamp' -> stamp <= stamp')).
  { intros q' -> -> -> ->. split; [lia|].
    split; [intros r c c' H1 H2|split; [intros w c c' H1 H2|intros i c c' _ H1 H2]];
      rewrite H1 in H2; injection H2 as <-; lia. }
  assert (Hcache : forall w m cached0,
    _writers (shared σ) !! w = Some cached0 -> cached0 <= m ->
    _next_sequence (shared σ) <= _next_sequence (shared σ)
      <= _next_sequence (shared σ) + 1 /\
    (forall r c c',
       _readers (shared σ) !! r = Some c ->
       _readers (shared σ) !! r = Some c' -> c <= c' <= c + 1) /\
    (forall w0 cached cached',
       _writers (shared σ) !! w0 = Some cached ->
       <[w := m]> (_writers (shared σ)) !! w0 = Some cached' ->
       cached <= cached') /\
    (forall i stamp stamp',
       _readers (shared σ) <> [] ->
       _slot_sequences (shared σ) !! i = Some stamp ->
       _slot_sequences (shared σ) !! i = Some stamp' -> stamp <= stamp')).
  { intros w m cached0 Hc0 Hm. split; [lia|].
    split; [intros r c c' H1 H2; rewrite H1 in H2; injection H2 as <-; lia|].
    split; [|intros i c c' _ H1 H2; rewrite H1 in H2; injection H2 as <-; lia].
    intros w0 c c' H1 H2.
    destruct (insert_lookup_cases _ _ _ _ _ _ H1 H2) as [[-> ->]| ->]; [|lia].
    rewrite Hc0 in H1. injection H1 as <-. exact Hm. }
  apply step_transition in Hstep.
  destruct Hstep as
    [w value cached Hat
    |w s v cached Hat Hle|w s v cached Hat Hlt
    |w s v cached Hat Hle|w s v cached Hat Hlt Hnil|w s v cached Hat Hlt Hne
    |w s v j m cached c Hat Hj|w s v j m cached Hat Hj
    |w s v cached Hat Hi Hlen|w s i cached Hat Hi Hlen
    |r output c Hat|r next i output c stamp Hat Hi Hstamp Hne
    |r next i output c Hat Hi Hstamp|r next i output c value Hat Hi Hvalue
    |r next value c Hat]; simpl; try (apply Hsame; reflexivity).
  - (* the claim *)
    assert (Hnext : to_int64 (_next_sequence (shared σ) + 1) =
                    _next_sequence (shared σ) + 1).
    { rewrite (inv_next _ _ _ Hsh). simpl in Hnw'. unfold no_wrap in Hnw'.
      rewrite claims_claim in Hnw'. pose proof (claims_nonneg tr).
      apply to_int64_id. unfold INT64_MIN, INT64_MAX in *. lia. }
    rewrite Hnext. split; [lia|].
    split; [intros r c c' H1 H2|split; [intros w0 c c' H1 H2|intros i c c' _ H1 H2]];
      rewrite H1 in H2; injection H2 as <-; lia.
  - (* no reader: the cache becomes the largest value *)
    destruct Hat as [_ Hc]. apply (Hcache w INT64_MAX cached Hc).
    apply (inv_cache _ _ _ Hsh _ _ Hc).
  - (* the scan ends: the cache becomes its result *)
    destruct Hat as [Hpc Hc]. apply (Hcache w m cached Hc).
    eapply (ring_scan _ _ _ Hring); eassumption.
  - (* the publication *)
    destruct Hat as [Hpc Hc]. split; [lia|].
    split; [intros r c c' H1 H2; rewrite H1 in H2; injection H2 as <-; lia|].
    split; [intros w0 c c' H1 H2; rewrite H1 in H2; injection H2 as <-; lia|].
    intros k stamp stamp' Hreaders H1 H2.
    destruct (insert_lookup_cases _ _ _ _ _ _ H1 H2) as [[-> ->]| ->]; [|lia].
    destruct (inv_writer _ _ _ _ Hws _ _ Hpc) as (Hfl & Hpass & -> & _).
    destruct (Z.eq_dec stamp INITIAL_SEQUENCE) as [->|Hinit].
    { destruct Hfl as [Hs _]. unfold INITIAL_SEQUENCE. lia. }
    destruct (inv_stamp_published _ _ _ Hsh _ _ H1 Hinit) as [Hp Hslot].
    destruct (_readers (shared σ)) as [|c rs] eqn:Hrs'; [congruence|].
    assert (Hc0 : _readers (shared σ) !! 0%nat = Some c)
      by (rewrite Hrs'; reflexivity).
    assert (stamp <= c).
    { eapply (passed_slot_consumed CAPACITY capacity_valid); eauto. }
    assert (c < s) by (eapply in_flight_above_reader; eauto).
    lia.
  - (* the reader's update *)
    destruct Hat as [Hpc Hc]. unfold update_consumer_sequence. simpl.
    destruct (inv_reader_pc _ _ _ _ Hrs _ _ _ Hc Hpc) as (-> & _).
    split; [lia|].
    split; [|split; [intros w0 c0 c' H1 H2|intros i c0 c' _ H1 H2];
             rewrite H1 in H2; injection H2 as <-; lia].
    intros r0 c0 c' H1 H2.
    destruct (insert_lookup_cases _ _ _ _ _ _ H1 H2) as [[-> ->]| ->]; [|lia].
    rewrite Hc in H1. injection H1 as <-. lia.
Qed.

(** X22: no call ever reaches outside [_buffer] or [_slot_sequences],
    which are indexed without a check: in every reachable state the
    next step of every thread is defined, whether it is inside a call
    or about to enter one. *)
Theorem every_step_is_defined nr nw (σ : system T) tr :
  reachable nr nw σ tr ->
  no_wrap tr ->
  (forall w pc,
     writer_pcs σ !! w = Some pc ->
     if writer_busy pc then is_Some (step σ (StepWriter w))
     else forall value, is_Some (step σ (CallWrite w value))) /\
  (forall r pc,
     reader_pcs σ !! r = Some pc ->
     if reader_busy pc then is_Some (step σ (StepReader r))
     else forall output, is_Some (step σ (CallRead r output))).
Proof.
  intros Hreach Hnw.
  pose proof (reachable_invariant value_init CAPACITY capacity_valid _ _ _ _
                Hreach Hnw) as [Hsh Hws Hrs].
  assert (Hdefined : forall a σ' evs,
             Transitions.transition CAPACITY σ a σ' evs -> is_Some (step σ a)).
  { intros a σ' evs Htr. rewrite (transition_step _ _ _ _ _ Htr). eauto. }
  split.
  - intros w pc Hpc.
    assert (Hc : is_Some (_writers (shared σ) !! w)).
    { apply lookup_lt_is_Some. rewrite <- (inv_writers_length _ _ _ _ Hws).
      eapply lookup_lt_Some. exact Hpc. }
    destruct Hc as [cached Hc].
    assert (Hat : writer_at σ w pc cached) by (split; assumption).
    pose proof (inv_writer _ _ _ _ Hws _ _ Hpc) as Hinv.
    destruct pc as [|s v|s v|s v j m|s v|s i]; unfold writer_busy;
      cbv beta iota.
    + intros value. eapply Hdefined. eapply claim. exact Hat.
    + destruct (Z.le_gt_cases (wrap_point CAPACITY s) cached).
      * eapply Hdefined. eapply check_passes; eassumption.
      * eapply Hdefined. eapply check_fails; [eassumption|lia].
    + destruct (Z.le_gt_cases (wrap_point CAPACITY s) cached).
      * eapply Hdefined. eapply loop_ends; eassumption.
      * destruct (decide (_readers (shared σ) = [])).
        -- eapply Hdefined. eapply loop_without_readers; [eassumption|lia|assumption].
        -- eapply Hdefined. eapply loop_scans; [eassumption|lia|assumption].
    + destruct (_readers (shared σ) !! j) as [c|] eqn:Hj.
      * eapply Hdefined. eapply scan_loads; eassumption.
      * eapply Hdefined. eapply scan_ends; eassumption.
    + pose proof (index_range CAPACITY capacity_valid s) as Hi.
      eapply Hdefined. eapply store; [eassumption|lia|].
      rewrite (inv_buffer_length _ _ _ Hsh). lia.
    + destruct Hinv as (_ & _ & -> & _).
      pose proof (index_range CAPACITY capacity_valid s) as Hi.
      eapply Hdefined. eapply commit; [eassumption|lia|].
      rewrite (inv_slots_length _ _ _ Hsh). lia.
  - intros r pc Hpc.
    assert (Hc : is_Some (_readers (shared σ) !! r)).
    { apply lookup_lt_is_Some. rewrite <- (inv_readers_length _ _ _ _ Hrs).
      eapply lookup_lt_Some. exact Hpc. }
    destruct Hc as [c Hc].
    assert (Hat : reader_at σ r pc c) by (split; assumption).
    pose proof (inv_reader_pc _ _ _ _ Hrs _ _ _ Hc Hpc) as Hinv.
    destruct pc as [|next i o|next i o|next v]; unfold reader_busy;
      cbv beta iota.
    + intros output. eapply Hdefined. eapply enter_read. exact Hat.
    + destruct Hinv as [-> ->].
      pose proof (index_range CAPACITY capacity_valid (c + 1)) as Hi.
      assert (Hs : is_Some (_slot_sequences (shared σ) !! Z.to_nat (index (c + 1)))).
      { apply lookup_lt_is_Some. rewrite (inv_slots_length _ _ _ Hsh). lia. }
      destruct Hs as [stamp Hs].
      destruct (Z.eq_dec stamp (c + 1)) as [->|Hne].
      * eapply Hdefined. eapply wait_ends; [eassumption|lia|eassumption].
      * eapply Hdefined. eapply wait_spins; [eassumption|lia|eassumption|assumption].
    + destruct Hinv as (-> & -> & _).
      pose proof (index_range CAPACITY capacity_valid (c + 1)) as Hi.
      assert (Hb : is_Some (_buffer (shared σ) !! Z.to_nat (index (c + 1)))).
      { apply lookup_lt_is_Some. rewrite (inv_buffer_length _ _ _ Hsh). lia. }
      destruct Hb as [value Hb].
      eapply Hdefined. eapply copy; [eassumption|lia|eassumption].
    + eapply Hdefined. eapply update. exact Hat.
Qed.

End Safety.

End SafetyFacts.

(** ** The running queue: progress *)

Module ProgressFacts.
Import Machine BitUtils MachineFacts BitUtilsFacts Queue CapacityFacts.
Import SequentialFacts RunningFacts Transitions TransitionFacts RingFacts.
Import SafetyFacts.

Section Alone.

Context {T : Type} (CAPACITY : Z).

Local Abbreviation index := (index_from_sequence CAPACITY).
Local Abbreviation step := (@Queue.step T CAPACITY).
Local Abbreviation exec := (@Queue.exec T CAPACITY).
Local Abbreviation transition := (@Transitions.transition T CAPACITY).
Local Abbreviation wrap_point := (Transitions.wrap_point CAPACITY).
Local Abbreviation writer_can_finish := (@Transitions.writer_can_finish T CAPACITY).
Local Abbreviation reader_can_finish := (@Transitions.reader_can_finish T CAPACITY).

Lemma writer_goes_twice (σ : system T) w q pc q' pc' :
  writer_goes (writer_goes σ w q pc) w q' pc' = writer_goes σ w q' pc'.
Proof.
  unfold writer_goes. simpl. rewrite list_insert_insert_eq. reflexivity.
Qed.

Lemma reader_goes_twice (σ : system T) r q pc q' pc' :
  reader_goes (reader_goes σ r q pc) r q' pc' = reader_goes σ r q' pc'.
Proof.
  unfold reader_goes. simpl. rewrite list_insert_insert_eq. reflexivity.
Qed.

Lemma writer_at_goes (σ : system T) w pc0 cached0 q pc cached :
  writer_at σ w pc0 cached0 ->
  _writers q !! w = Some cached ->
  writer_at (writer_goes σ w q pc) w pc cached.
Proof.
  intros [Hpc _] Hc. split; simpl; [|exact Hc].
  apply list_lookup_insert_eq. eapply lookup_lt_Some. exact Hpc.
Qed.

Lemma reader_at_goes (σ : system T) r pc0 c0 q pc c :
  reader_at σ r pc0 c0 ->
  _readers q !! r = Some c ->
  reader_at (reader_goes σ r q pc) r pc c.
Proof.
  intros [Hpc _] Hc. split; simpl; [|exact Hc].
  apply list_lookup_insert_eq. eapply lookup_lt_Some. exact Hpc.
Qed.

Lemma exec_one (σ : system T) tr a σ' evs :
  transition σ a σ' evs -> exec σ tr [a] = Some (σ', evs ++ tr).
Proof. intros H. simpl. rewrite (transition_step _ _ _ _ _ H). reflexivity. Qed.

Lemma exec_first (σ : system T) tr a σ1 evs sched :
  transition σ a σ1 evs ->
  exec σ tr (a :: sched) = exec σ1 (evs ++ tr) sched.
Proof. intros H. simpl. rewrite (transition_step _ _ _ _ _ H). reflexivity. Qed.

Lemma exec_first_inv (σ : system T) tr a sched σ' tr' :
  exec σ tr (a :: sched) = Some (σ', tr') ->
  exists σ1 evs,
    step σ a = Some (σ1, evs) /\ exec σ1 (evs ++ tr) sched = Some (σ', tr').
Proof.
  intros Hexec. change (exec σ tr (a :: sched)) with
    (match step σ a with
     | None => None
     | Some (σ1, evs) => exec σ1 (evs ++ tr) sched
     end) in Hexec.
  destruct (step σ a) as [[σ1 evs]|]; [eauto|discriminate].
Qed.

Lemma writer_finishes_after (σ : system T) tr w σ1 evs :
  transition σ (StepWriter w) σ1 evs ->
  writer_can_finish σ1 (evs ++ tr) w -> writer_can_finish σ tr w.
Proof.
  intros Hstep (n & σ' & tr' & Hexec & Hidle).
  exists (S n), σ', tr'. split; [|exact Hidle].
  unfold writer_alone. simpl replicate. rewrite (exec_first _ _ _ _ _ _ Hstep).
  exact Hexec.
Qed.

Lemma writer_finishes_after_run (σ : system T) tr w n σ1 tr1 :
  exec σ tr (writer_alone w n) = Some (σ1, tr1) ->
  writer_can_finish σ1 tr1 w -> writer_can_finish σ tr w.
Proof.
  intros Hrun (m & σ' & tr' & Hexec & Hidle).
  exists (n + m)%nat, σ', tr'. split; [|exact Hidle].
  unfold writer_alone in *. rewrite replicate_add.
  rewrite (exec_app CAPACITY _ _ _ _ _ _ Hrun). exact Hexec.
Qed.

Lemma reader_finishes_after (σ : system T) tr r σ1 evs :
  transition σ (StepReader r) σ1 evs ->
  reader_can_finish σ1 (evs ++ tr) r -> reader_can_finish σ tr r.
Proof.
  intros Hstep (n & σ' & tr' & Hexec & Hidle).
  exists (S n), σ', tr'. split; [|exact Hidle].
  unfold reader_alone. simpl replicate. rewrite (exec_first _ _ _ _ _ _ Hstep).
  exact Hexec.
Qed.

(** *** A writer on its own *)

Lemma writer_finishes_from_commit (σ : system T) tr w s i cached :
  writer_at σ w (WCommit s i) cached ->
  0 <= i -> (Z.to_nat i < length (_slot_sequences (shared σ)))%nat ->
  writer_can_finish σ tr w.
Proof.
  intros Hat Hi Hlen. exists 1%nat. eexists. eexists. split.
  - apply exec_one. eapply commit; eassumption.
  - simpl. apply list_lookup_insert_eq. destruct Hat as [Hpc _].
    eapply lookup_lt_Some. exact Hpc.
Qed.

Lemma writer_finishes_from_store (σ : system T) tr w s v cached :
  writer_at σ w (WStore s v) cached ->
  0 <= index s ->
  (Z.to_nat (index s) < length (_buffer (shared σ)))%nat ->
  (Z.to_nat (index s) < length (_slot_sequences (shared σ)))%nat ->
  writer_can_finish σ tr w.
Proof.
  intros Hat Hi Hb Hs.
  eapply writer_finishes_after; [eapply store; eassumption|].
  eapply writer_finishes_from_commit; [|exact Hi|exact Hs].
  eapply writer_at_goes; [exact Hat|]. simpl. apply Hat.
Qed.

(** The scan of the readers from position [j], to its end. *)
Lemma scan_alone (tr : list (event T)) w s v cached k :
  forall j m (σ : system T),
    writer_at σ w (WMinScan s v j m) cached ->
    (j + k = length (_readers (shared σ)))%nat ->
    exec σ tr (writer_alone w (S k)) =
    Some (writer_goes σ w
            (set_writers (shared σ)
               (<[w := fold_left (fun a c => Z.min a c)
                         (drop j (_readers (shared σ))) m]>
                  (_writers (shared σ))))
            (WWrapLoop s v), tr).
Proof.
  induction k as [|k IH]; intros j m σ Hat Hlen.
  - assert (Hj : _readers (shared σ) !! j = None)
      by (apply lookup_ge_None; lia).
    rewrite drop_ge by lia. simpl fold_left.
    change (writer_alone w 1) with [@StepWriter T w].
    rewrite (exec_one _ tr _ _ _ (scan_ends _ _ _ _ _ _ _ _ Hat Hj)).
    reflexivity.
  - destruct (_readers (shared σ) !! j) as [c|] eqn:Hj.
    2:{ apply lookup_ge_None in Hj. lia. }
    change (writer_alone w (S (S k)))
      with (@StepWriter T w :: writer_alone w (S k)).
    rewrite (exec_first _ tr _ _ _ _ (scan_loads _ _ _ _ _ _ _ _ _ Hat Hj)).
    simpl app. rewrite (IH (S j) (Z.min m c)).
    + rewrite writer_goes_twice. simpl shared.
      rewrite (drop_S _ _ _ Hj). reflexivity.
    + eapply writer_at_goes; [exact Hat|]. apply Hat.
    + simpl. lia.
Qed.

Section Passing.

Variables (σ0 : system T) (w : nat) (s : Z) (v : T).

Local Abbreviation same_but_writer := (Transitions.same_but_writer σ0).

Hypothesis room : forall r c, _readers (shared σ0) !! r = Some c -> wrap_point s <= c.
Hypothesis wrap_point_range : wrap_point s <= INT64_MAX.
Hypothesis index_nonneg : 0 <= index s.
Hypothesis index_buffer : (Z.to_nat (index s) < length (_buffer (shared σ0)))%nat.
Hypothesis index_slots :
  (Z.to_nat (index s) < length (_slot_sequences (shared σ0)))%nat.

Lemma writer_finishes_from_store' (σ : system T) tr cached :
  same_but_writer σ ->
  writer_at σ w (WStore s v) cached ->
  writer_can_finish σ tr w.
Proof.
  intros (Hb & Hs & _ & _) Hat.
  eapply writer_finishes_from_store; [exact Hat|exact index_nonneg| |].
  - rewrite Hb. exact index_buffer.
  - rewrite Hs. exact index_slots.
Qed.

Lemma writer_finishes_from_passing_loop (σ : system T) tr cached :
  same_but_writer σ ->
  writer_at σ w (WWrapLoop s v) cached ->
  wrap_point s <= cached ->
  writer_can_finish σ tr w.
Proof.
  intros Hsame Hat Hle.
  eapply writer_finishes_after; [eapply loop_ends; eassumption|].
  eapply (writer_finishes_from_store' _ _ cached).
  - exact Hsame.
  - eapply writer_at_goes; [exact Hat|]. apply Hat.
Qed.

Lemma writer_finishes_from_loop (σ : system T) tr cached :
  same_but_writer σ ->
  writer_at σ w (WWrapLoop s v) cached ->
  writer_can_finish σ tr w.
Proof.
  intros Hsame Hat. pose proof Hsame as (Hb & Hs & Hr & Hw).
  pose proof Hat as [Hpc Hc].
  pose proof (lookup_lt_Some _ _ _ Hc) as Hlt.
  assert (Hrefreshed : forall m,
            same_but_writer
              (writer_goes σ w
                 (set_writers (shared σ) (<[w := m]> (_writers (shared σ))))
                 (WWrapLoop s v))).
  { intros m. unfold Transitions.same_but_writer. simpl.
    rewrite length_insert. tauto. }
  destruct (Z.le_gt_cases (wrap_point s) cached) as [Hle|Hgt].
  { eapply writer_finishes_from_passing_loop; eassumption. }
  destruct (decide (_readers (shared σ) = [])) as [Hnil|Hne].
  - eapply writer_finishes_after;
      [eapply loop_without_readers; [exact Hat|lia|exact Hnil]|].
    eapply (writer_finishes_from_passing_loop _ _ INT64_MAX).
    + apply Hrefreshed.
    + eapply writer_at_goes; [exact Hat|]. simpl.
      apply list_lookup_insert_eq. exact Hlt.
    + exact wrap_point_range.
  - eapply writer_finishes_after;
      [eapply loop_scans; [exact Hat|lia|exact Hne]|].
    eapply writer_finishes_after_run.
    + apply (scan_alone _ w s v cached (length (_readers (shared σ))) 0 INT64_MAX).
      * eapply writer_at_goes; [exact Hat|]. exact Hc.
      * simpl. reflexivity.
    + simpl shared. rewrite drop_0. rewrite writer_goes_twice.
      eapply (writer_finishes_from_passing_loop _ _
                (fold_left (fun a c => Z.min a c) (_readers (shared σ)) INT64_MAX)).
      * apply Hrefreshed.
      * eapply writer_at_goes; [exact Hat|]. simpl.
        apply list_lookup_insert_eq. exact Hlt.
      * apply fold_min_lower_bound; [exact wrap_point_range|].
        intros c Hin. apply list_elem_of_lookup in Hin as [r Hin].
        rewrite Hr in Hin. eapply room. exact Hin.
Qed.

Lemma writer_finishes_from_scan (σ : system T) tr j m cached :
  same_but_writer σ ->
  writer_at σ w (WMinScan s v j m) cached ->
  writer_can_finish σ tr w.
Proof.
  intros Hsame Hat. pose proof Hsame as (Hb & Hs & Hr & Hw).
  pose proof Hat as [Hpc Hc].
  pose proof (lookup_lt_Some _ _ _ Hc) as Hlt.
  destruct (Nat.le_gt_cases j (length (_readers (shared σ)))) as [Hj|Hj].
  - eapply writer_finishes_after_run.
    + apply (scan_alone _ w s v cached (length (_readers (shared σ)) - j) j m);
        [exact Hat|lia].
    + eapply writer_finishes_from_loop.
      * unfold Transitions.same_but_writer. simpl. rewrite length_insert. tauto.
      * eapply writer_at_goes; [exact Hat|]. simpl.
        apply list_lookup_insert_eq. exact Hlt.
  - eapply writer_finishes_after;
      [eapply scan_ends; [exact Hat|apply lookup_ge_None; lia]|].
    eapply writer_finishes_from_loop.
    + unfold Transitions.same_but_writer. simpl. rewrite length_insert. tauto.
    + eapply writer_at_goes; [exact Hat|]. simpl.
      apply list_lookup_insert_eq. exact Hlt.
Qed.

Lemma writer_finishes_from_check (σ : system T) tr cached :
  same_but_writer σ ->
  writer_at σ w (WWrapCheck s v) cached ->
  writer_can_finish σ tr w.
Proof.
  intros Hsame Hat.
  destruct (Z.le_gt_cases (wrap_point s) cached) as [Hle|Hgt].
  - eapply writer_finishes_after; [eapply check_passes; eassumption|].
    eapply (writer_finishes_from_store' _ _ cached); [exact Hsame|].
    eapply writer_at_goes; [exact Hat|]. apply Hat.
  - eapply writer_finishes_after; [eapply check_fails; eassumption|].
    eapply (writer_finishes_from_loop _ _ cached); [exact Hsame|].
    eapply writer_at_goes; [exact Hat|]. apply Hat.
Qed.

End Passing.

(** *** A reader on its own *)

Lemma reader_finishes_from_update (σ : system T) tr r next value c :
  reader_at σ r (RUpdate next value) c -> reader_can_finish σ tr r.
Proof.
  intros Hat. exists 1%nat. eexists. eexists. split.
  - apply exec_one. eapply update; eassumption.
  - simpl. apply list_lookup_insert_eq. destruct Hat as [Hpc _].
    eapply lookup_lt_Some. exact Hpc.
Qed.

Lemma reader_finishes_from_copy (σ : system T) tr r next i output c value :
  reader_at σ r (RCopy next i output) c ->
  0 <= i -> _buffer (shared σ) !! Z.to_nat i = Some value ->
  reader_can_finish σ tr r.
Proof.
  intros Hat Hi Hv.
  eapply reader_finishes_after; [eapply copy; eassumption|].
  eapply reader_finishes_from_update.
  eapply reader_at_goes; [exact Hat|]. apply Hat.
Qed.

Lemma reader_finishes_from_wait (σ : system T) tr r next i output c value :
  reader_at σ r (RWait next i output) c ->
  0 <= i ->
  _slot_sequences (shared σ) !! Z.to_nat i = Some next ->
  _buffer (shared σ) !! Z.to_nat i = Some value ->
  reader_can_finish σ tr r.
Proof.
  intros Hat Hi Hs Hv.
  eapply reader_finishes_after; [eapply wait_ends; eassumption|].
  eapply reader_finishes_from_copy; [|exact Hi|exact Hv].
  eapply reader_at_goes; [exact Hat|]. apply Hat.
Qed.

Lemma least_exists (l : list Z) :
  l <> [] ->
  exists r c, l !! r = Some c /\ forall r' c', l !! r' = Some c' -> c <= c'.
Proof.
  induction l as [|c l IH]; [congruence|]. intros _.
  destruct l as [|c1 l].
  - exists 0%nat, c. split; [reflexivity|].
    intros [|r'] c' H; simpl in H; [injection H as <-; lia|discriminate].
  - destruct IH as (r & m & Hr & Hm); [discriminate|].
    destruct (Z.le_gt_cases c m) as [Hle|Hgt].
    + exists 0%nat, c. split; [reflexivity|].
      intros [|r'] c' H; simpl in H; [injection H as <-; lia|].
      specialize (Hm r' c' H). lia.
    + exists (S r), m. split; [exact Hr|].
      intros [|r'] c' H; simpl in H; [injection H as <-; lia|].
      exact (Hm r' c' H).
Qed.

End Alone.

Section Progress.

Context {T : Type} (value_init : T) (CAPACITY : Z).
Hypothesis capacity_valid : valid_capacity CAPACITY = true.

Local Abbreviation index := (index_from_sequence CAPACITY).
Local Abbreviation slot := (Queue.slot CAPACITY).
Local Abbreviation step := (@Queue.step T CAPACITY).
Local Abbreviation exec := (@Queue.exec T CAPACITY).
Local Abbreviation invariant := (@Queue.invariant T CAPACITY).
Local Abbreviation ring_invariant := (@Transitions.ring_invariant T CAPACITY).
Local Abbreviation reachable := (@Queue.reachable T value_init CAPACITY).
Local Abbreviation transition := (@Transitions.transition T CAPACITY).
Local Abbreviation wrap_point := (Transitions.wrap_point CAPACITY).
Local Abbreviation writer_can_finish := (@Transitions.writer_can_finish T CAPACITY).
Local Abbreviation reader_can_finish := (@Transitions.reader_can_finish T CAPACITY).

Lemma next_read_sequence_exact (q : disruptor_queue T) tr r c :
  shared_invariant CAPACITY q tr -> no_wrap tr ->
  _readers q !! r = Some c -> to_int64 (c + 1) = c + 1.
Proof.
  intros Hsh Hnw Hc. destruct (inv_reader _ _ _ Hsh _ _ Hc) as [Hcr _].
  unfold no_wrap in Hnw.
  apply to_int64_id. unfold INT64_MIN, INT64_MAX in *. lia.
Qed.

Lemma reader_finishes_when_published (σ : system T) tr r pc c :
  invariant σ tr -> no_wrap tr ->
  reader_pcs σ !! r = Some pc -> reader_busy pc = true ->
  _readers (shared σ) !! r = Some c ->
  published tr (c + 1) = true ->
  reader_can_finish σ tr r.
Proof.
  intros [Hsh Hws Hrs] Hnw Hpc Hbusy Hc Hpub.
  pose proof (inv_reader_pc _ _ _ _ Hrs _ _ _ Hc Hpc) as Hinv.
  destruct (inv_slot _ _ _ Hsh r c (c + 1) Hc Hpub) as (Hstamp & v & Hv & _);
    [lia|].
  pose proof (index_range CAPACITY capacity_valid (c + 1)) as Hi.
  destruct pc as [|next i o|next i o|next v']; [discriminate| | |].
  - destruct Hinv as [-> ->].
    eapply reader_finishes_from_wait; [split; eassumption|lia| |];
      eassumption.
  - destruct Hinv as (-> & -> & _).
    eapply reader_finishes_from_copy; [split; eassumption|lia|eassumption].
  - eapply reader_finishes_from_update. split; eassumption.
Qed.

Lemma writer_finishes_with_room (σ : system T) tr w pc s :
  invariant σ tr -> no_wrap tr ->
  writer_pcs σ !! w = Some pc -> claimed_of pc = Some s ->
  (forall r c, _readers (shared σ) !! r = Some c -> s - CAPACITY <= c) ->
  writer_can_finish σ tr w.
Proof.
  intros Hinv Hnw Hpc Hcl Hroom. pose proof Hinv as [Hsh Hws Hrs].
  pose proof (claimed_of_in_flight CAPACITY _ _ _ _ _ Hinv Hpc Hcl) as Hfl.
  pose proof (wrap_point_exact CAPACITY capacity_valid tr s Hnw Hfl) as Hwp.
  fold (wrap_point s) in Hwp.
  pose proof (index_range CAPACITY capacity_valid s) as Hi.
  pose proof (CAPACITY_range CAPACITY capacity_valid) as HC.
  assert (Hw : is_Some (_writers (shared σ) !! w)).
  { apply lookup_lt_is_Some. rewrite <- (inv_writers_length _ _ _ _ Hws).
    eapply lookup_lt_Some. exact Hpc. }
  destruct Hw as [cached Hc].
  assert (Hat : writer_at σ w pc cached) by (split; assumption).
  assert (Hsame : same_but_writer σ σ) by (unfold same_but_writer; tauto).
  assert (Hroom' : forall r c, _readers (shared σ) !! r = Some c ->
                               wrap_point s <= c).
  { intros r c Hr. rewrite Hwp. eauto. }
  assert (Hmax : wrap_point s <= INT64_MAX).
  { rewrite Hwp. destruct Hfl as [Hs _]. unfold no_wrap in Hnw. lia. }
  assert (Hb : (Z.to_nat (index s) < length (_buffer (shared σ)))%nat).
  { rewrite (inv_buffer_length _ _ _ Hsh). lia. }
  assert (Hs : (Z.to_nat (index s) < length (_slot_sequences (shared σ)))%nat).
  { rewrite (inv_slots_length _ _ _ Hsh). lia. }
  destruct pc as [|s0 v|s0 v|s0 v j m|s0 v|s0 i]; simpl in Hcl;
    try discriminate; injection Hcl as ->.
  - eapply (writer_finishes_from_check CAPACITY σ w s v); eauto; lia.
  - eapply (writer_finishes_from_loop CAPACITY σ w s v); eauto; lia.
  - eapply (writer_finishes_from_scan CAPACITY σ w s v); eauto; lia.
  - eapply (writer_finishes_from_store CAPACITY σ); eauto; lia.
  - destruct (inv_writer _ _ _ _ Hws _ _ Hpc) as (_ & _ & -> & _).
    eapply (writer_finishes_from_commit CAPACITY σ); eauto; lia.
Qed.

Lemma writer_past_the_wait_finishes (σ : system T) tr w pc s :
  invariant σ tr ->
  writer_pcs σ !! w = Some pc -> storing pc = Some s ->
  writer_can_finish σ tr w.
Proof.
  intros Hinv Hpc Hst. pose proof Hinv as [Hsh Hws Hrs].
  pose proof (index_range CAPACITY capacity_valid s) as Hi.
  assert (Hw : is_Some (_writers (shared σ) !! w)).
  { apply lookup_lt_is_Some. rewrite <- (inv_writers_length _ _ _ _ Hws).
    eapply lookup_lt_Some. exact Hpc. }
  destruct Hw as [cached Hc].
  assert (Hb : (Z.to_nat (index s) < length (_buffer (shared σ)))%nat).
  { rewrite (inv_buffer_length _ _ _ Hsh). lia. }
  assert (Hs : (Z.to_nat (index s) < length (_slot_sequences (shared σ)))%nat).
  { rewrite (inv_slots_length _ _ _ Hsh). lia. }
  destruct pc as [|s0 v|s0 v|s0 v j m|s0 v|s0 i]; simpl in Hst;
    try discriminate; injection Hst as ->.
  - eapply (writer_finishes_from_store CAPACITY σ); [split| | |]; eauto; lia.
  - destruct (inv_writer _ _ _ _ Hws _ _ Hpc) as (_ & _ & -> & _).
    eapply (writer_finishes_from_commit CAPACITY σ); [split| |]; eauto; lia.
Qed.

(** A writer that has not got past the wait while some reader is
    more than a lap behind stays in the wait, however long it runs. *)
Lemma writer_waits_alone nr nw w s r n :
  forall (σ : system T) tr pc c σ' tr',
    reachable nr nw σ tr -> no_wrap tr ->
    writer_pcs σ !! w = Some pc ->
    claimed_of pc = Some s -> storing pc = None ->
    _readers (shared σ) !! r = Some c -> c < s - CAPACITY ->
    exec σ tr (writer_alone w n) = Some (σ', tr') ->
    exists pc', writer_pcs σ' !! w = Some pc' /\
                claimed_of pc' = Some s /\ storing pc' = None.
Proof.
  induction n as [|n IH]; intros σ tr pc c σ' tr' Hreach Hnw Hpc Hcl Hst Hc Hlag Hexec.
  - simpl in Hexec. injection Hexec as <- <-. eauto.
  - change (writer_alone w (S n))
      with (@StepWriter T w :: writer_alone w n) in Hexec.
    apply exec_first_inv in Hexec as (σ1 & evs & Hstep & Hexec).
    destruct (reachable_invariants value_init CAPACITY capacity_valid _ _ _ _
                Hreach Hnw) as [Hinv Hring].
    pose proof Hinv as [Hsh Hws Hrs].
    pose proof (claimed_of_in_flight CAPACITY _ _ _ _ _ Hinv Hpc Hcl) as Hfl.
    pose proof (wrap_point_exact CAPACITY capacity_valid tr s Hnw Hfl) as Hwp.
    fold (wrap_point s) in Hwp.
    assert (Hnext : evs = [] /\ _readers (shared σ1) = _readers (shared σ) /\
                    exists pc1, writer_pcs σ1 !! w = Some pc1 /\
                                claimed_of pc1 = Some s /\ storing pc1 = None).
    { pose proof (step_transition _ _ _ _ _ Hstep) as Htr.
      pose proof (lookup_lt_Some _ _ _ Hpc) as Hlt.
      remember (StepWriter w) as a eqn:Ha.
      destruct Htr as
        [w0 value cached Hat
        |w0 s0 v cached Hat Hle|w0 s0 v cached Hat Hlt'
        |w0 s0 v cached Hat Hle|w0 s0 v cached Hat Hlt' Hnil
        |w0 s0 v cached Hat Hlt' Hne
        |w0 s0 v j m cached c0 Hat Hj|w0 s0 v j m cached Hat Hj
        |w0 s0 v cached Hat Hi Hlen|w0 s0 i cached Hat Hi Hlen
        |r0 output c0 Hat|r0 next i output c0 stamp Hat Hi Hstamp Hne
        |r0 next i output c0 Hat Hi Hstamp|r0 next i output c0 value Hat Hi Hvalue
        |r0 next value c0 Hat]; try discriminate Ha; injection Ha as ->;
        destruct Hat as [Hpc0 Hc0]; rewrite Hpc in Hpc0; injection Hpc0 as ->;
        simpl in Hcl, Hst; try discriminate; injection Hcl as ->.
      - pose proof (proj2 (inv_cache _ _ _ Hsh _ _ Hc0) _ _ Hc). lia.
      - split; [reflexivity|]. split; [reflexivity|]. simpl.
        rewrite list_lookup_insert_eq by assumption. eauto.
      - pose proof (proj2 (inv_cache _ _ _ Hsh _ _ Hc0) _ _ Hc). lia.
      - rewrite Hnil in Hc. discriminate.
      - split; [reflexivity|]. split; [reflexivity|]. simpl.
        rewrite list_lookup_insert_eq by assumption. eauto.
      - split; [reflexivity|]. split; [reflexivity|]. simpl.
        rewrite list_lookup_insert_eq by assumption. eauto.
      - split; [reflexivity|]. split; [reflexivity|]. simpl.
        rewrite list_lookup_insert_eq by assumption. eauto. }
    destruct Hnext as (-> & Hreaders & pc1 & Hpc1 & Hcl1 & Hst1).
    eapply (IH σ1 tr pc1 c); try eassumption.
    + eapply reachable_reaches; [exact Hreach|].
      eapply reaches_one; [exact Hstep|reflexivity].
    + rewrite Hreaders. exact Hc.
Qed.

Lemma read_completes_alone (σ : system T) tr r c output :
  invariant σ tr -> no_wrap tr ->
  reader_pcs σ !! r = Some RIdle ->
  _readers (shared σ) !! r = Some c ->
  published tr (c + 1) = true ->
  exists v,
    claimed_values tr !! Z.to_nat (c + 1) = Some v /\
    exec σ tr (CallRead r output :: reader_alone r 3) =
    Some (reader_goes σ r (update_consumer_sequence (shared σ) r (c + 1)) RIdle,
          EvRead r (c + 1) v :: tr).
Proof.
  intros [Hsh Hws Hrs] Hnw Hpc Hc Hpub.
  pose proof (next_read_sequence_exact _ _ _ _ Hsh Hnw Hc) as Hnext.
  pose proof (index_range CAPACITY capacity_valid (c + 1)) as Hi.
  assert (Hat : reader_at σ r RIdle c) by (split; assumption).
  pose proof (enter_read CAPACITY σ r output c Hat) as Henter.
  rewrite Hnext in Henter.
  set (σ1 := reader_goes σ r (shared σ) (RWait (c + 1) (index (c + 1)) output))
    in *.
  assert (Hat1 : reader_at σ1 r (RWait (c + 1) (index (c + 1)) output) c).
  { eapply reader_at_goes; [exact Hat|exact Hc]. }
  destruct (inv_slot _ _ _ Hsh r c (c + 1) Hc Hpub) as (Hstamp & v & Hv & Hcv);
    [lia|].
  exists v. split; [exact Hcv|].
  rewrite (exec_first _ _ _ _ _ _ _ Henter). simpl app.
  change (reader_alone r 3)
    with [@StepReader T r; StepReader r; StepReader r].
  rewrite (exec_first _ _ _ _ _ _ _
             (wait_ends CAPACITY σ1 r _ _ _ c Hat1 (proj1 Hi) Hstamp)).
  simpl app. unfold σ1 at 1. rewrite reader_goes_twice.
  assert (Hat2 : reader_at
                   (reader_goes σ r (shared σ1) (RCopy (c + 1) (index (c + 1)) output))
                   r (RCopy (c + 1) (index (c + 1)) output) c).
  { eapply reader_at_goes; [exact Hat|exact Hc]. }
  rewrite (exec_first _ _ _ _ _ _ _
             (copy CAPACITY _ r _ _ _ c v Hat2 (proj1 Hi) Hv)).
  simpl app. rewrite reader_goes_twice.
  assert (Hat3 : reader_at
                   (reader_goes σ r (shared σ) (RUpdate (c + 1) v))
                   r (RUpdate (c + 1) v) c).
  { eapply reader_at_goes; [exact Hat|exact Hc]. }
  rewrite (exec_one _ _ _ _ _ _ (update CAPACITY _ r _ _ c Hat3)).
  rewrite reader_goes_twice. reflexivity.
Qed.

(** X13: a reader that enters [read] when the next item is published
    gets it: three steps of its own after the entry complete the
    call, and the item delivered is the one claimed with the reader's
    next sequence; no writer can have overwritten it.  When the next
    item is not published the reader stays in [wait_for_data], however
    long it runs on its own. *)
Theorem published_item_is_delivered nr nw (σ : system T) tr r c output :
  reachable nr nw σ tr ->
  no_wrap tr ->
  reader_pcs σ !! r = Some RIdle ->
  _readers (shared σ) !! r = Some c ->
  (published tr (c + 1) = true ->
   exists v,
     claimed_values tr !! Z.to_nat (c + 1) = Some v /\
     exec σ tr (CallRead r output :: reader_alone r 3) =
     Some (reader_goes σ r (update_consumer_sequence (shared σ) r (c + 1)) RIdle,
           EvRead r (c + 1) v :: tr)) /\
  (published tr (c + 1) = false ->
   forall n,
     exec σ tr (CallRead r output :: reader_alone r n) =
     Some (reader_goes σ r (shared σ)
             (RWait (c + 1) ((c + 1) mod CAPACITY) output), tr)).
Proof.
  intros Hreach Hnw Hpc Hc.
  pose proof (reachable_invariant value_init CAPACITY capacity_valid _ _ _ _
                Hreach Hnw) as Hinv.
  split; [apply read_completes_alone; assumption|].
  destruct Hinv as [Hsh Hws Hrs].
  pose proof (next_read_sequence_exact _ _ _ _ Hsh Hnw Hc) as Hnext.
  pose proof (index_range CAPACITY capacity_valid (c + 1)) as Hi.
  pose proof (index_mod CAPACITY capacity_valid (c + 1)) as Hmod.
  assert (Hat : reader_at σ r RIdle c) by (split; assumption).
  pose proof (enter_read CAPACITY σ r output c Hat) as Henter.
  rewrite Hnext in Henter.
  set (σ1 := reader_goes σ r (shared σ) (RWait (c + 1) (index (c + 1)) output))
    in *.
  assert (Hat1 : reader_at σ1 r (RWait (c + 1) (index (c + 1)) output) c).
  { eapply reader_at_goes; [exact Hat|exact Hc]. }
  intros Hunp n.
  rewrite (exec_first _ _ _ _ _ _ _ Henter). simpl app.
  rewrite <- Hmod. fold σ1.
  assert (Hstamp : exists stamp,
             _slot_sequences (shared σ) !! Z.to_nat (index (c + 1)) = Some stamp /\
             stamp <> c + 1).
  { destruct (_slot_sequences (shared σ) !! Z.to_nat (index (c + 1)))
      as [stamp|] eqn:Hs.
    - exists stamp. split; [reflexivity|]. intros ->.
      destruct (inv_reader _ _ _ Hsh _ _ Hc) as [Hcr _].
      destruct (inv_stamp_published _ _ _ Hsh _ _ Hs) as [Hp _];
        [unfold INITIAL_SEQUENCE; lia|congruence].
    - apply lookup_ge_None in Hs.
      rewrite (inv_slots_length _ _ _ Hsh) in Hs. lia. }
  destruct Hstamp as (stamp & Hs & Hne).
  induction n as [|n IH]; [reflexivity|].
  change (reader_alone r (S n)) with (@StepReader T r :: reader_alone r n).
  rewrite (exec_first _ _ _ _ _ _ _
             (wait_spins CAPACITY σ1 r _ _ _ c stamp Hat1 (proj1 Hi) Hs Hne)).
  simpl app. unfold σ1 at 1. rewrite reader_goes_twice. exact IH.
Qed.

Lemma drains_alone nr nw r k :
  forall (σ : system T) tr c,
    reachable nr nw σ tr -> no_wrap tr ->
    (forall w pc, writer_pcs σ !! w = Some pc -> pc = WIdle) ->
    reader_pcs σ !! r = Some RIdle ->
    _readers (shared σ) !! r = Some c ->
    k = Z.to_nat (claims tr - 1 - c) ->
    exists σ' tr',
      exec σ tr (reads_alone r k) = Some (σ', tr') /\
      reachable nr nw σ' tr' /\
      claimed_values tr' = claimed_values tr /\
      writer_pcs σ' = writer_pcs σ /\
      reader_pcs σ' !! r = Some RIdle /\
      _readers (shared σ') !! r = Some (claims tr - 1).
Proof.
  induction k as [|k IH]; intros σ tr c Hreach Hnw Hidle Hpc Hc Hk.
  - exists σ, tr. split; [reflexivity|]. split; [exact Hreach|].
    split; [reflexivity|]. split; [reflexivity|]. split; [exact Hpc|].
    pose proof (reachable_invariant value_init CAPACITY capacity_valid _ _ _ _
                  Hreach Hnw) as [Hsh _ _].
    destruct (inv_reader _ _ _ Hsh _ _ Hc) as [Hcr _].
    rewrite Hc. f_equal. lia.
  - destruct (reachable_invariants value_init CAPACITY capacity_valid _ _ _ _
                Hreach Hnw) as [Hinv Hring].
    pose proof Hinv as [Hsh _ _].
    destruct (inv_reader _ _ _ Hsh _ _ Hc) as [Hcr _].
    assert (Hpub : published tr (c + 1) = true).
    { apply (idle_writers_all_published CAPACITY _ tr (c + 1) Hring Hidle). lia. }
    destruct (read_completes_alone σ tr r c None Hinv Hnw Hpc Hc Hpub)
      as (v & Hv & Hexec).
    set (σ1 := reader_goes σ r (update_consumer_sequence (shared σ) r (c + 1)) RIdle)
      in *.
    assert (Hlt : (r < length (reader_pcs σ))%nat)
      by (eapply lookup_lt_Some; exact Hpc).
    assert (Hltc : (r < length (_readers (shared σ)))%nat)
      by (eapply lookup_lt_Some; exact Hc).
    destruct (IH σ1 (EvRead r (c + 1) v :: tr) (c + 1))
      as (σ' & tr' & Hrest & Hreach' & Hcv & Hwpcs & Hpc' & Hc').
    + eapply reachable_reaches; [exact Hreach|]. eexists. exact Hexec.
    + exact Hnw.
    + exact Hidle.
    + simpl. apply list_lookup_insert_eq. exact Hlt.
    + simpl. apply list_lookup_insert_eq. exact Hltc.
    + rewrite claims_read. lia.
    + exists σ', tr'. split.
      * change (reads_alone r (S k))
          with ((@CallRead T r None :: reader_alone r 3) ++ reads_alone r k).
        rewrite (exec_app CAPACITY _ _ _ _ _ _ Hexec). exact Hrest.
      * split; [exact Hreach'|]. split; [exact Hcv|].
        split; [exact Hwpcs|]. split; [exact Hpc'|exact Hc'].
Qed.

(** X23: when the writers have finished, a reader drains the ring on
    its own: with no writer inside [write], a reader that has consumed
    up to sequence [c] completes as many reads as there are claimed
    sequences after [c], one after the other without the help of any
    other thread, and has then received every item ever claimed, in
    claim order. *)
Theorem reader_drains_the_ring nr nw (σ : system T) tr r c :
  reachable nr nw σ tr ->
  no_wrap tr ->
  (forall w pc, writer_pcs σ !! w = Some pc -> pc = WIdle) ->
  reader_pcs σ !! r = Some RIdle ->
  _readers (shared σ) !! r = Some c ->
  exists σ' tr',
    exec σ tr (reads_alone r (Z.to_nat (claims tr - 1 - c))) = Some (σ', tr') /\
    received tr' r = claimed_values tr /\
    reader_pcs σ' !! r = Some RIdle /\
    _readers (shared σ') !! r = Some (_next_sequence (shared σ) - 1).
Proof.
  intros Hreach Hnw Hidle Hpc Hc.
  destruct (drains_alone nr nw r _ σ tr c Hreach Hnw Hidle Hpc Hc eq_refl)
    as (σ' & tr' & Hexec & Hreach' & Hcv & _ & Hpc' & Hc').
  assert (Hnw' : no_wrap tr').
  { unfold no_wrap, claims in *. rewrite Hcv. exact Hnw. }
  pose proof (reachable_invariant value_init CAPACITY capacity_valid _ _ _ _
                Hreach' Hnw') as [Hsh' _ _].
  pose proof (reachable_invariant value_init CAPACITY capacity_valid _ _ _ _
                Hreach Hnw) as [Hsh _ _].
  exists σ', tr'. split; [exact Hexec|]. split; [|split; [exact Hpc'|]].
  - destruct (inv_received _ _ _ Hsh' _ _ Hc') as [Hrec _].
    rewrite Hrec, Hcv. apply take_ge. unfold claims. lia.
  - rewrite (inv_next _ _ _ Hsh). exact Hc'.
Qed.

(** X14: a writer inside [write] can finish the call without the help
    of any other thread exactly when it is past the wait or every
    reader has consumed the sequence one lap before the claimed one;
    otherwise it stays in [wait_for_no_wrap], however long it runs. *)
Theorem writer_finishes_alone_iff_room nr nw (σ : system T) tr w pc s :
  reachable nr nw σ tr ->
  no_wrap tr ->
  writer_pcs σ !! w = Some pc ->
  claimed_of pc = Some s ->
  writer_can_finish σ tr w <->
  storing pc = Some s \/
  forall r c, _readers (shared σ) !! r = Some c -> s - CAPACITY <= c.
Proof.
  intros Hreach Hnw Hpc Hcl.
  destruct (reachable_invariants value_init CAPACITY capacity_valid _ _ _ _
              Hreach Hnw) as [Hinv Hring].
  split.
  - intros (n & σ' & tr' & Hexec & Hidle).
    destruct (storing pc) as [s'|] eqn:Hst.
    + left. destruct pc; simpl in Hst, Hcl; congruence.
    + right. intros r c Hc.
      destruct (Z.le_gt_cases (s - CAPACITY) c) as [|Hlag]; [assumption|exfalso].
      destruct (writer_waits_alone nr nw w s r n σ tr pc c σ' tr')
        as (pc' & Hpc' & Hcl' & _); try assumption; try lia.
      rewrite Hidle in Hpc'. injection Hpc' as <-. discriminate.
  - intros [Hst|Hroom].
    + eapply writer_past_the_wait_finishes; eassumption.
    + eapply writer_finishes_with_room; eassumption.
Qed.

(** X15: the queue does not deadlock.  With at least one reader and
    every reader inside [read], some thread that is inside a call can
    finish it on its own, unless the queue is idle and empty: no
    writer is inside [write] and every reader has consumed all that
    was claimed. *)
Theorem some_thread_can_finish nr nw (σ : system T) tr :
  reachable nr nw σ tr ->
  no_wrap tr ->
  _readers (shared σ) <> [] ->
  (forall r pc, reader_pcs σ !! r = Some pc -> reader_busy pc = true) ->
  (exists w pc,
     writer_pcs σ !! w = Some pc /\ writer_busy pc = true /\
     writer_can_finish σ tr w) \/
  (exists r pc,
     reader_pcs σ !! r = Some pc /\ reader_busy pc = true /\
     reader_can_finish σ tr r) \/
  ((forall w pc, writer_pcs σ !! w = Some pc -> pc = WIdle) /\
   (forall r c, _readers (shared σ) !! r = Some c ->
                c + 1 = _next_sequence (shared σ))).
Proof.
  intros Hreach Hnw Hne Hbusy.
  destruct (reachable_invariants value_init CAPACITY capacity_valid _ _ _ _
              Hreach Hnw) as [Hinv Hring].
  pose proof Hinv as [Hsh Hws Hrs].
  pose proof (CAPACITY_range CAPACITY capacity_valid) as HC.
  destruct (least_exists _ Hne) as (r & c & Hc & Hleast).
  assert (Hpc : is_Some (reader_pcs σ !! r)).
  { apply lookup_lt_is_Some. rewrite (inv_readers_length _ _ _ _ Hrs).
    eapply lookup_lt_Some. exact Hc. }
  destruct Hpc as [pc Hpc].
  destruct (inv_reader _ _ _ Hsh _ _ Hc) as [Hcr Hall].
  destruct (published tr (c + 1)) eqn:Hpub.
  { right. left. exists r, pc. split; [exact Hpc|].
    split; [eapply Hbusy; exact Hpc|].
    eapply reader_finishes_when_published; eauto. }
  destruct (Z.lt_ge_cases (c + 1) (claims tr)) as [Hclaimed|Hempty].
  - left.
    destruct (ring_holder _ _ _ Hring (c + 1)) as (w & wpc & Hwpc & Hcl).
    { split; [lia|exact Hpub]. }
    exists w, wpc. split; [exact Hwpc|]. split.
    + destruct wpc; [discriminate|reflexivity..].
    + eapply writer_finishes_with_room; eauto.
      intros r' c' Hc'. specialize (Hleast r' c' Hc'). lia.
  - right. right. split.
    + intros w wpc Hwpc.
      destruct (claimed_of wpc) as [s|] eqn:Hcl.
      * pose proof (claimed_of_in_flight CAPACITY _ _ _ _ _ Hinv Hwpc Hcl) as Hfl.
        pose proof (in_flight_above_reader CAPACITY _ _ _ _ _ Hsh Hfl Hc).
        destruct Hfl as [Hs _]. lia.
      * destruct wpc; simpl in Hcl; [reflexivity|discriminate..].
    + intros r' c' Hc'. rewrite (inv_next _ _ _ Hsh).
      destruct (inv_reader _ _ _ Hsh _ _ Hc') as [Hcr' _].
      specialize (Hleast r' c' Hc'). lia.
Qed.

End Progress.

End ProgressFacts.

(** ** disruptor_queue.hpp: the calls, one at a time *)

Module CallFacts.
Import Machine BitUtils MachineFacts BitUtilsFacts Queue CapacityFacts.
Import SequentialFacts RunningFacts Transitions TransitionFacts RingFacts.
Import SafetyFacts Calls.

Section OneByOne.

Context {T : Type} (value_init : T) (CAPACITY : Z).
Hypothesis capacity_valid : valid_capacity CAPACITY = true.

Local Abbreviation index := (index_from_sequence CAPACITY).
Local Abbreviation slot := (Queue.slot CAPACITY).
Local Abbreviation write := (@Queue.write T CAPACITY).
Local Abbreviation read := (@Queue.read T CAPACITY).
Local Abbreviation read_into := (@Queue.read_into T CAPACITY).
Local Abbreviation run := (@Queue.run T CAPACITY).
Local Abbreviation after_write := (@Calls.after_write T CAPACITY).
Local Abbreviation well_formed := (@Calls.well_formed T CAPACITY).
Local Abbreviation holds_latest := (@Calls.holds_latest T CAPACITY).
Local Abbreviation spsc_invariant := (@Queue.spsc_invariant T CAPACITY).

(** *** [write] on any queue *)

Lemma write_cases fuel (q : disruptor_queue T) w cached value :
  well_formed q ->
  _writers q !! w = Some cached ->
  (_next_sequence q - CAPACITY <= cached ->
   write fuel q w value = Some (after_write q w value cached)) /\
  (cached < _next_sequence q - CAPACITY ->
   _next_sequence q - CAPACITY <= get_min_consumer_sequence q ->
   (1 <= fuel)%nat ->
   write fuel q w value =
   Some (after_write q w value (get_min_consumer_sequence q))) /\
  (cached < _next_sequence q - CAPACITY ->
   get_min_consumer_sequence q < _next_sequence q - CAPACITY ->
   write fuel q w value = None).
Proof.
  intros (Hb & Hs & Hn) Hc.
  pose proof (CAPACITY_range CAPACITY capacity_valid) as HC.
  destruct q as [b st n rs ws]. simpl in *.
  pose proof (index_range CAPACITY capacity_valid n) as Hi.
  assert (Hstore_b : array_store b (index n) value = Some (<[slot n := value]> b)).
  { apply array_store_in_range. lia. }
  assert (Hstore_s : array_store st (index n) n = Some (<[slot n := n]> st)).
  { apply array_store_in_range. lia. }
  unfold Queue.write, claim_sequence, wait_for_no_wrap, set_next_sequence,
    Calls.after_write.
  simpl. rewrite Hc. simpl.
  rewrite (to_int64_id (n + 1)) by (unfold INT64_MIN, INT64_MAX in *; lia).
  rewrite (to_int64_id CAPACITY) by (unfold INT64_MIN, INT64_MAX; lia).
  rewrite (to_int64_id (n - CAPACITY)) by (unfold INT64_MIN, INT64_MAX in *; lia).
  split; [|split].
  - intros Hle. destruct (Z.leb_spec (n - CAPACITY) cached); [|lia].
    simpl. rewrite Hstore_b. simpl. unfold commit_sequence. simpl. rewrite Hstore_s.
    simpl. rewrite (list_insert_id ws w cached Hc). reflexivity.
  - intros Hlt Hmin Hfuel. destruct (Z.leb_spec (n - CAPACITY) cached); [lia|].
    destruct fuel as [|fuel]; [lia|]. simpl.
    destruct (Z.gtb_spec (n - CAPACITY) cached); [|lia].
    change (get_min_consumer_sequence
              {| _buffer := b; _slot_sequences := st; _next_sequence := n + 1;
                 _readers := rs; _writers := ws |})
      with (get_min_consumer_sequence
              {| _buffer := b; _slot_sequences := st; _next_sequence := n;
                 _readers := rs; _writers := ws |}).
    set (m := get_min_consumer_sequence _) in *.
    assert (Hloop : wait_for_no_wrap_loop fuel
                      {| _buffer := b; _slot_sequences := st;
                         _next_sequence := n + 1; _readers := rs;
                         _writers := ws |} (n - CAPACITY) m = Some m).
    { destruct fuel; simpl; destruct (Z.gtb_spec (n - CAPACITY) m); try lia;
        reflexivity. }
    rewrite Hloop. simpl. rewrite Hstore_b. simpl. unfold commit_sequence. simpl.
    rewrite Hstore_s. reflexivity.
  - intros Hlt Hmin. destruct (Z.leb_spec (n - CAPACITY) cached); [lia|].
    rewrite wait_for_no_wrap_loop_spins; [reflexivity|lia|exact Hmin].
Qed.

(** X16: [write] on any queue, with any number of readers and
    writers.  The call claims the sequence the counter holds; it
    returns at once when the writer's cache lets that sequence pass,
    after one scan when the least consumer sequence does, and not at
    all otherwise.  When it returns, the payload and the sequence are
    in the slot of the sequence, the counter is one higher, the cache
    is refreshed if the scan ran, and nothing else has changed. *)
Theorem write_returns_iff_room fuel (q : disruptor_queue T) w cached value :
  well_formed q ->
  _writers q !! w = Some cached ->
  (_next_sequence q - CAPACITY <= cached ->
   write fuel q w value = Some (after_write q w value cached)) /\
  (cached < _next_sequence q - CAPACITY ->
   _next_sequence q - CAPACITY <= get_min_consumer_sequence q ->
   (1 <= fuel)%nat ->
   write fuel q w value =
   Some (after_write q w value (get_min_consumer_sequence q))) /\
  (cached < _next_sequence q - CAPACITY ->
   get_min_consumer_sequence q < _next_sequence q - CAPACITY ->
   write fuel q w value = None).
Proof. apply write_cases. Qed.

(** *** A writer without readers *)

Lemma write_without_readers fuel (q : disruptor_queue T) values cached value :
  (1 <= fuel)%nat ->
  well_formed q ->
  _readers q = [] -> _writers q = [cached] ->
  holds_latest q values ->
  exists q',
    write fuel q 0 value = Some q' /\
    length (_buffer q') = Z.to_nat CAPACITY /\
    length (_slot_sequences q') = Z.to_nat CAPACITY /\
    _readers q' = [] /\ (exists cached', _writers q' = [cached']) /\
    holds_latest q' (values ++ [value]).
Proof.
  intros Hfuel Hwf Hr Hw [Hn Hslots].
  pose proof Hwf as (Hb & Hs & Hrange).
  pose proof (CAPACITY_range CAPACITY capacity_valid) as HC.
  assert (Hc : _writers q !! 0%nat = Some cached) by (rewrite Hw; reflexivity).
  destruct (write_cases fuel q 0 cached value Hwf Hc) as (Hpass & Hscan & _).
  assert (Hmin : get_min_consumer_sequence q = INT64_MAX).
  { unfold get_min_consumer_sequence. rewrite Hr. reflexivity. }
  assert (Hq' : exists cached',
             write fuel q 0 value = Some (after_write q 0 value cached')).
  { destruct (Z.le_gt_cases (_next_sequence q - CAPACITY) cached) as [Hle|Hgt].
    - exists cached. apply Hpass. exact Hle.
    - exists (get_min_consumer_sequence q). apply Hscan; [lia| |exact Hfuel].
      rewrite Hmin. lia. }
  destruct Hq' as (cached' & Hwrite).
  exists (after_write q 0 value cached'). split; [exact Hwrite|].
  unfold Calls.after_write. simpl. rewrite !length_insert, Hw, Hr.
  split; [exact Hb|]. split; [exact Hs|]. split; [reflexivity|].
  split; [eexists; reflexivity|].
  unfold Calls.holds_latest. simpl. rewrite length_app. simpl.
  split; [lia|]. intros s Hs0 Hwin. rewrite Hn.
  pose proof (slot_lt CAPACITY capacity_valid (Z.of_nat (length values))) as Hlt.
  destruct (Z.eq_dec s (Z.of_nat (length values))) as [->|Hne].
  - rewrite !list_lookup_insert_eq by lia. split; [reflexivity|].
    rewrite Nat2Z.id, lookup_app_r by lia. rewrite Nat.sub_diag. reflexivity.
  - assert (Hdiff : slot (Z.of_nat (length values)) <> slot s).
    { apply (slot_neq_near CAPACITY capacity_valid). lia. }
    rewrite !list_lookup_insert_ne by exact Hdiff.
    rewrite lookup_app_l by lia. apply Hslots; lia.
Qed.

Lemma run_without_readers fuel rest :
  (1 <= fuel)%nat ->
  forall (q : disruptor_queue T) values cached,
    length (_buffer q) = Z.to_nat CAPACITY ->
    length (_slot_sequences q) = Z.to_nat CAPACITY ->
    _readers q = [] -> _writers q = [cached] ->
    holds_latest q values ->
    Z.of_nat (length values) + Z.of_nat (length rest) <= INT64_MAX ->
    exists q',
      run fuel q (OpWrite <$> rest) = Some ([], q') /\
      holds_latest q' (values ++ rest).
Proof.
  intros Hfuel. induction rest as [|value rest IH];
    intros q values cached Hb Hs Hr Hw Hlatest Hmax.
  - exists q. rewrite app_nil_r. split; [reflexivity|exact Hlatest].
  - simpl in Hmax.
    destruct (write_without_readers fuel q values cached value)
      as (q1 & Hwrite & Hb1 & Hs1 & Hr1 & (cached1 & Hw1) & Hlatest1);
      try assumption.
    { split; [exact Hb|]. split; [exact Hs|]. destruct Hlatest as [-> _]. lia. }
    destruct (IH q1 (values ++ [value]) cached1) as (q' & Hrun & Hlatest');
      try assumption.
    { rewrite length_app. simpl. lia. }
    exists q'. split.
    + simpl. rewrite Hwrite. simpl. exact Hrun.
    + rewrite <- app_assoc in Hlatest'. exact Hlatest'.
Qed.

(** X17: a queue without readers never makes its writer wait, and
    what is not read is overwritten: any number of writes return one
    after the other, and the ring then holds the latest [CAPACITY]
    items, each with its sequence in the slot of that sequence. *)
Theorem writes_without_readers_overwrite fuel values :
  (1 <= fuel)%nat ->
  Z.of_nat (length values) <= INT64_MAX ->
  exists q',
    run fuel (setup value_init CAPACITY 0 1) (OpWrite <$> values) = Some ([], q') /\
    _next_sequence q' = Z.of_nat (length values) /\
    forall s,
      0 <= s ->
      Z.of_nat (length values) - CAPACITY <= s < Z.of_nat (length values) ->
      _slot_sequences q' !! Z.to_nat (s mod CAPACITY) = Some s /\
      _buffer q' !! Z.to_nat (s mod CAPACITY) = values !! Z.to_nat s.
Proof.
  intros Hfuel Hmax.
  destruct (run_without_readers fuel values Hfuel
              (setup value_init CAPACITY 0 1) [] INITIAL_SEQUENCE)
    as (q' & Hrun & Hn & Hslots).
  - rewrite (setup_eq value_init CAPACITY). simpl. apply length_replicate.
  - rewrite (setup_eq value_init CAPACITY). simpl.
    rewrite length_fmap. apply length_replicate.
  - rewrite (setup_eq value_init CAPACITY). reflexivity.
  - rewrite (setup_eq value_init CAPACITY). reflexivity.
  - rewrite (setup_eq value_init CAPACITY). split; [reflexivity|].
    simpl. intros s. lia.
  - simpl. lia.
  - exists q'. split; [exact Hrun|]. split; [exact Hn|].
    intros s Hs0 Hwin. rewrite <- (index_mod CAPACITY capacity_valid s).
    apply Hslots; assumption.
Qed.

(** *** One writer and one reader *)

Lemma run_spsc_invariant fuel ops :
  (1 <= fuel)%nat ->
  forall (q : disruptor_queue T) values reads,
    spsc_invariant q values reads ->
    admissible CAPACITY (Z.of_nat (length values) - reads) ops = true ->
    Z.of_nat (length values) + Z.of_nat (length ops) <= INT64_MAX ->
    exists delivered q',
      run fuel q ops = Some (delivered, q') /\
      spsc_invariant q' (values ++ written ops)
        (reads + Z.of_nat (read_count ops)).
Proof.
  intros Hfuel. induction ops as [|o ops IH]; intros q values reads Hinv Hadm Hmax.
  - exists [], q. simpl. rewrite app_nil_r, Z.add_0_r. auto.
  - assert (Hread : forall d,
      (forall value q1, Queue.read CAPACITY fuel q 0 = Some (value, q1) ->
         Queue.run CAPACITY fuel q (o :: ops) =
         match Queue.run CAPACITY fuel q1 ops with
         | None => None
         | Some (values, q2) => Some (value :: values, q2)
         end) ->
      written (o :: ops) = written ops ->
      read_count (o :: ops) = S (read_count ops) ->
      admissible CAPACITY (Z.of_nat (length values) - reads) (o :: ops) =
        (0 <? Z.of_nat (length values) - reads) &&
        admissible CAPACITY (Z.of_nat (length values) - reads - 1) ops ->
      d = tt ->
      exists delivered q',
        run fuel q (o :: ops) = Some (delivered, q') /\
        spsc_invariant q' (values ++ written (o :: ops))
          (reads + Z.of_nat (read_count (o :: ops)))).
    { intros d Hrun Hwr Hrc Hadm' _. rewrite Hadm' in Hadm.
      apply andb_true_iff in Hadm as [Hdata Hrest]. apply Z.ltb_lt in Hdata.
      simpl in Hmax.
      destruct (read_spsc CAPACITY capacity_valid fuel q values reads Hinv)
        as (value & q1 & Hvalue & Hrd & Hinto & Hinv1); [lia|lia|].
      destruct (IH q1 values (reads + 1) Hinv1) as (delivered & q2 & Hrun2 & Hinv2).
      { replace (Z.of_nat (length values) - (reads + 1))
          with (Z.of_nat (length values) - reads - 1) by lia. exact Hrest. }
      { lia. }
      exists (value :: delivered), q2. split.
      - rewrite (Hrun _ _ Hrd), Hrun2. reflexivity.
      - rewrite Hwr, Hrc.
        replace (reads + Z.of_nat (S (read_count ops)))
          with (reads + 1 + Z.of_nat (read_count ops)) by lia.
        exact Hinv2. }
    destruct o as [value| |output].
    + simpl in Hadm, Hmax. apply andb_true_iff in Hadm as [Hroom Hrest].
      apply Z.ltb_lt in Hroom.
      destruct (write_spsc CAPACITY capacity_valid fuel q values reads
                  value Hinv) as (q1 & Hwr & Hinv1); [assumption|lia|lia|].
      destruct (IH q1 (values ++ [value]) reads Hinv1) as
        (delivered & q2 & Hrun2 & Hinv2).
      { rewrite length_app. simpl.
        replace (Z.of_nat (length values + 1) - reads)
          with (Z.of_nat (length values) - reads + 1) by lia. exact Hrest. }
      { rewrite length_app. simpl. lia. }
      exists delivered, q2. split.
      * simpl. rewrite Hwr. simpl. exact Hrun2.
      * simpl. rewrite <- app_assoc in Hinv2. exact Hinv2.
    + apply (Hread tt); try reflexivity.
      intros value q1 Hrd. simpl. rewrite Hrd. reflexivity.
    + apply (Hread tt); try reflexivity.
      intros value q1 Hrd. simpl.
      destruct (read_spsc CAPACITY capacity_valid fuel q values reads Hinv)
        as (value' & q1' & _ & Hrd' & Hinto & _).
      * simpl in Hadm. apply andb_true_iff in Hadm as [Hdata _].
        apply Z.ltb_lt in Hdata. lia.
      * simpl in Hmax. lia.
      * rewrite Hinto. rewrite Hrd in Hrd'. injection Hrd' as <- <-. reflexivity.
Qed.

Lemma admissible_writes (values : list T) : forall pending,
  pending + Z.of_nat (length values) <= CAPACITY ->
  admissible CAPACITY pending (OpWrite <$> values) = true.
Proof.
  induction values as [|v values IH]; intros pending Hp; [reflexivity|].
  simpl in *. apply andb_true_iff. split; [apply Z.ltb_lt; lia|].
  apply IH. lia.
Qed.

Lemma admissible_reads n : forall pending,
  Z.of_nat n <= pending ->
  admissible CAPACITY pending (replicate n (@OpRead T)) = true.
Proof.
  induction n as [|n IH]; intros pending Hp; [reflexivity|].
  simpl. apply andb_true_iff. split; [apply Z.ltb_lt; lia|].
  apply IH. lia.
Qed.

Lemma written_writes (values : list T) : written (OpWrite <$> values) = values.
Proof.
  induction values as [|v values IH]; [reflexivity|].
  unfold written in *. simpl. f_equal. exact IH.
Qed.

Lemma written_length (ops : list (op T)) :
  (length (written ops) <= length ops)%nat.
Proof.
  induction ops as [|o ops IH]; [reflexivity|].
  unfold written, omap in *. destruct o; simpl; lia.
Qed.

Lemma read_count_writes (values : list T) : read_count (OpWrite <$> values) = O.
Proof. induction values as [|v values IH]; [reflexivity|exact IH]. Qed.

Lemma written_reads n : written (replicate n (@OpRead T)) = [].
Proof. induction n as [|n IH]; [reflexivity|exact IH]. Qed.

Lemma read_count_reads n : read_count (replicate n (@OpRead T)) = n.
Proof. induction n as [|n IH]; [reflexivity|simpl; rewrite IH; reflexivity]. Qed.

(** X18: the ring takes exactly [CAPACITY] items.  On a new queue
    with one writer and one reader, [CAPACITY] writes in a row all
    return; a further write does not return, whatever the fuel; and
    [CAPACITY] reads then deliver the items in the order written. *)
Theorem ring_takes_exactly_capacity fuel values value :
  (1 <= fuel)%nat ->
  Z.of_nat (length values) = CAPACITY ->
  exists q',
    run fuel (setup value_init CAPACITY 1 1) (OpWrite <$> values) = Some ([], q') /\
    (forall fuel', write fuel' q' 0 value = None) /\
    exists q'',
      run fuel q' (replicate (length values) OpRead) = Some (values, q'').
Proof.
  intros Hfuel Hlen.
  pose proof (CAPACITY_range CAPACITY capacity_valid) as HC.
  pose proof (setup_spsc value_init CAPACITY capacity_valid) as Hinv0.
  destruct (run_spsc_invariant fuel (OpWrite <$> values) Hfuel _ [] 0 Hinv0)
    as (delivered & q' & Hrun & Hinv).
  { apply admissible_writes. simpl. lia. }
  { rewrite length_fmap. simpl. unfold INT64_MAX. lia. }
  destruct (run_spsc value_init CAPACITY capacity_valid fuel (OpWrite <$> values)
              Hfuel _ [] 0 Hinv0) as (delivered' & q1 & Hrun' & Hd & _).
  { apply admissible_writes. simpl. lia. }
  { rewrite length_fmap. simpl. unfold INT64_MAX. lia. }
  change (Queue.run CAPACITY fuel (setup value_init CAPACITY 1 1)
            (OpWrite <$> values)) with
    (run fuel (setup value_init CAPACITY 1 1) (OpWrite <$> values)) in Hrun'.
  rewrite Hrun in Hrun'. injection Hrun' as <- <-.
  rewrite read_count_writes in Hd. simpl in Hd, Hinv.
  rewrite written_writes, read_count_writes in Hinv. simpl in Hinv.
  exists q'. split; [rewrite Hrun, Hd; reflexivity|]. split.
  - intros fuel'.
    apply (write_spsc_full CAPACITY capacity_valid fuel' q' values 0);
      [exact Hinv|lia|unfold INT64_MAX; lia].
  - destruct (run_spsc value_init CAPACITY capacity_valid fuel
                (replicate (length values) OpRead) Hfuel q' values 0 Hinv)
      as (got & q'' & Hrun2 & Hgot & _).
    { apply admissible_reads. lia. }
    { rewrite length_replicate. unfold INT64_MAX. lia. }
    exists q''. rewrite Hrun2, Hgot.
    rewrite read_count_reads, written_reads, app_nil_r. simpl.
    rewrite firstn_all. reflexivity.
Qed.

(** X19: [write_emplace] is [write] of the payload it builds, and the
    payload makes the round trip: on a queue of one writer and one
    reader whose items have all been read, [write_emplace(args)]
    returns and the next [read()] returns [T{args}], whatever came
    before. *)
Theorem emplaced_payload_is_read_back {Args : Type} (construct : Args -> T)
  fuel ops delivered (q : disruptor_queue T) args :
  (1 <= fuel)%nat ->
  admissible CAPACITY 0 ops = true ->
  Z.of_nat (length ops) < INT64_MAX ->
  run fuel (setup value_init CAPACITY 1 1) ops = Some (delivered, q) ->
  read_count ops = length (written ops) ->
  (forall w, write_emplace CAPACITY construct fuel q w args =
             write fuel q w (construct args)) /\
  exists q1 q2,
    write_emplace CAPACITY construct fuel q 0 args = Some q1 /\
    read fuel q1 0 = Some (construct args, q2).
Proof.
  intros Hfuel Hadm Hmax Hrun Hempty. split; [reflexivity|].
  pose proof (CAPACITY_range CAPACITY capacity_valid) as HC.
  pose proof (setup_spsc value_init CAPACITY capacity_valid) as Hinv0.
  destruct (run_spsc_invariant fuel ops Hfuel _ [] 0 Hinv0)
    as (delivered' & q' & Hrun' & Hinv); [exact Hadm|simpl; lia|].
  rewrite Hrun in Hrun'. injection Hrun' as <- <-. simpl in Hinv.
  pose proof (written_length ops) as Hlen.
  destruct (write_spsc CAPACITY capacity_valid fuel q (written ops)
              (Z.of_nat (read_count ops)) (construct args) Hinv)
    as (q1 & Hwrite & Hinv1); [assumption|lia|lia|].
  destruct (read_spsc CAPACITY capacity_valid fuel q1
              (written ops ++ [construct args]) (Z.of_nat (read_count ops)) Hinv1)
    as (value & q2 & Hvalue & Hread & _).
  { rewrite length_app. simpl. lia. }
  { rewrite length_app. simpl. lia. }
  exists q1, q2. split; [exact Hwrite|].
  rewrite Hread. f_equal. f_equal.
  rewrite Nat2Z.id, Hempty, lookup_app_r in Hvalue by lia.
  rewrite Nat.sub_diag in Hvalue. simpl in Hvalue. congruence.
Qed.

(** *** A reader created after the set-up phase *)

Lemma multiple_in_window n :
  CAPACITY < n ->
  exists s, CAPACITY <= s < n /\ n - CAPACITY <= s /\ s mod CAPACITY = 0.
Proof.
  intros Hn. pose proof (CAPACITY_range CAPACITY capacity_valid) as HC.
  exists (CAPACITY * ((n - 1) / CAPACITY)).
  pose proof (Z.div_mod (n - 1) CAPACITY ltac:(lia)) as Hdm.
  pose proof (Z.mod_pos_bound (n - 1) CAPACITY ltac:(lia)) as Hmb.
  assert (1 <= (n - 1) / CAPACITY).
  { apply Z.div_le_lower_bound; lia. }
  split; [nia|]. split; [lia|].
  rewrite Z.mul_comm. apply Z.mod_mul. lia.
Qed.

(** X20: why endpoints must be created during set-up only.  A reader
    created on a queue of one writer and one reader after some traffic
    starts at sequence 0 like any other.  While no more than
    [CAPACITY] items have been written, slot 0 still holds item 0 and
    the newcomer's first [read] returns it; once more than [CAPACITY]
    items have been written, slot 0 holds a later sequence and the
    newcomer's [read] never returns, whatever the fuel. *)
Theorem late_reader_misses_the_start fuel ops delivered (q : disruptor_queue T) :
  run fuel (setup value_init CAPACITY 1 1) ops = Some (delivered, q) ->
  Z.of_nat (length (written ops)) <= INT64_MAX ->
  fst (create_reader q) = 1%nat /\
  (CAPACITY < Z.of_nat (length (written ops)) ->
   forall fuel', read fuel' (snd (create_reader q)) 1 = None) /\
  (forall first,
     written ops !! 0%nat = Some first ->
     Z.of_nat (length (written ops)) <= CAPACITY ->
     forall fuel', exists q',
       read fuel' (snd (create_reader q)) 1 = Some (first, q')).
Proof.
  intros Hrun Hmax.
  pose proof (CAPACITY_range CAPACITY capacity_valid) as HC.
  destruct (client_run_is_reachable value_init CAPACITY capacity_valid
              fuel ops delivered q Hrun) as (tr & Hreach & Hvalues & _).
  assert (Hclaims : claims tr = Z.of_nat (length (written ops))).
  { unfold claims. rewrite Hvalues. reflexivity. }
  assert (Hnw : no_wrap tr) by (unfold no_wrap; lia).
  destruct (reachable_invariants value_init CAPACITY capacity_valid _ _ _ _
              Hreach Hnw) as [Hinv Hring].
  pose proof Hinv as [Hsh Hws Hrs]. simpl in Hsh, Hws, Hrs.
  assert (Hreaders : length (_readers q) = 1%nat).
  { rewrite <- (inv_readers_length _ _ _ _ Hrs). reflexivity. }
  assert (Hne : _readers q <> []).
  { destruct (_readers q); [discriminate|discriminate]. }
  assert (Hidle : forall w pc, [@WIdle T] !! w = Some pc -> pc = WIdle).
  { intros [|w] pc H; simpl in H; [congruence|discriminate]. }
  assert (Hslot : forall s,
             0 <= s < claims tr -> claims tr - CAPACITY <= s ->
             _slot_sequences q !! slot s = Some s /\
             exists v, _buffer q !! slot s = Some v /\
                       written ops !! Z.to_nat s = Some v).
  { intros s Hs Hlate. rewrite <- Hvalues.
    apply (recent_item_in_slot CAPACITY capacity_valid _ tr s Hinv Hring Hne);
      [|exact Hlate].
    apply (idle_writers_all_published CAPACITY _ tr s Hring Hidle Hs). }
  assert (Hnew : _readers (snd (create_reader q)) !! 1%nat = Some (-1)).
  { simpl. rewrite lookup_app_r by lia. rewrite Hreaders. reflexivity. }
  assert (Hslot0 : slot 0 = 0%nat).
  { unfold Queue.slot. rewrite (index_mod CAPACITY capacity_valid).
    rewrite Z.mod_0_l by lia. reflexivity. }
  assert (Hindex0 : index 0 = 0).
  { rewrite (index_mod CAPACITY capacity_valid). apply Z.mod_0_l. lia. }
  split; [simpl; exact Hreaders|]. split.
  - intros Hmany fuel'.
    destruct (multiple_in_window _ Hmany) as (s & Hs & Hlate & Hmod).
    destruct (Hslot s) as [Hstamp _]; [lia|lia|].
    assert (Hs0 : slot s = 0%nat).
    { unfold Queue.slot. rewrite (index_mod CAPACITY capacity_valid), Hmod.
      reflexivity. }
    rewrite Hs0 in Hstamp.
    unfold Queue.read, get_next_read_sequence. rewrite Hnew. simpl.
    change (to_int64 (-1 + 1)) with 0. rewrite Hindex0.
    rewrite (wait_for_data_spins fuel' _ 0 0 s); [reflexivity| |lia].
    exact Hstamp.
  - intros first Hfirst Hfew fuel'.
    assert (0 < claims tr).
    { apply lookup_lt_Some in Hfirst. lia. }
    destruct (Hslot 0) as (Hstamp & v & Hv & Hw); [lia|lia|].
    rewrite Hslot0 in Hstamp, Hv. change (Z.to_nat 0) with 0%nat in Hw.
    assert (v = first) as -> by congruence.
    unfold Queue.read, get_next_read_sequence. rewrite Hnew. simpl.
    change (to_int64 (-1 + 1)) with 0. rewrite Hindex0.
    rewrite (wait_for_data_ready fuel' _ 0 0) by exact Hstamp. simpl.
    change (array_load (_buffer q) 0) with (_buffer q !! 0%nat).
    rewrite Hv. simpl. eauto.
Qed.

End OneByOne.

End CallFacts.

(** ** The earlier revisions *)

Module RevisionFacts.
Import Machine BitUtils Queue Revisions MachineFacts SequentialFacts.

(** The queue of the first unit tests, [disruptor_queue<int, 100>], has
    capacity 128 in the first revision. *)
Lemma capacity_of_size_100 : capacity_of_size 100 = Some 128.
Proof. vm_compute. reflexivity. Qed.

(** The moving read delivers what the copying read delivers, and leaves
    the slot moved from. *)
Lemma read_moving_read {T} CAPACITY (moved_from : T -> T) fuel
  (q : disruptor_queue T) r value q' :
  read_moving CAPACITY moved_from fuel q r = Some (value, q') ->
  exists q'' next,
    read CAPACITY fuel q r = Some (value, q'') /\
    get_next_read_sequence q r = Some next /\
    q' = set_buffer q''
           (<[slot CAPACITY next := moved_from value]> (_buffer q)).
Proof.
  unfold read_moving, read. intros H.
  destruct (get_next_read_sequence q r) as [next|]; simpl in *; [|discriminate].
  destruct (wait_for_data fuel q _ next); simpl in *; [|discriminate].
  destruct (array_load (_buffer q) _) as [v|]; simpl in *; [|discriminate].
  destruct (array_store (_buffer q) _ _) as [b|] eqn:Hb; simpl in *;
    [|discriminate].
  injection H as <- <-. apply array_store_Some in Hb as (_ & _ & ->).
  eexists _, next. split; [reflexivity|]. split; reflexivity.
Qed.

End RevisionFacts.

(** ** The earlier revisions *)

Module EarlierRevisionFacts.
Import Machine BitUtils MachineFacts BitUtilsFacts CapacityFacts.

(** *** The first revision: publication through one counter *)

Section First.
Import FirstRevision.

Context {T : Type}.

Lemma first_setup_eq CAPACITY (contents : nat -> T) consumer_sequences nw :
  setup CAPACITY contents consumer_sequences nw =
  {| _buffer := contents <$> seq 0 (Z.to_nat CAPACITY);
     _producer_sequence := 1;
     _available_sequence := 1;
     _readers := consumer_sequences;
     _writers := replicate nw 0 |}.
Proof.
  unfold setup.
  assert (Hr : forall cs (q : disruptor_queue T),
             fold_left (fun q c => snd (create_reader q c)) cs q =
             {| _buffer := _buffer q;
                _producer_sequence := _producer_sequence q;
                _available_sequence := _available_sequence q;
                _readers := _readers q ++ cs; _writers := _writers q |}).
  { induction cs as [|c cs IH]; intros q; simpl.
    - rewrite app_nil_r. destruct q; reflexivity.
    - rewrite IH. simpl. rewrite <- app_assoc. reflexivity. }
  rewrite Hr. simpl.
  induction nw as [|nw IH]; [reflexivity|].
  rewrite Nat.iter_succ, IH. unfold create_writer. simpl.
  rewrite <- replicate_S_end. reflexivity.
Qed.

Lemma wait_for_previous_spins fuel (q : disruptor_queue T) previous :
  _available_sequence q <> previous -> wait_for_previous fuel q previous = false.
Proof.
  intros Hne. induction fuel as [|fuel IH]; simpl;
    destruct (Z.eqb_spec (_available_sequence q) previous); try contradiction;
    simpl; [reflexivity|assumption].
Qed.

(** X7: in the first revision the first [write] on a new queue never
    returns.  It claims sequence 1 (the counter starts at 1), finds
    room, stores the payload into slot 1 and then waits for
    [_available_sequence] to be 0; that counter starts at 1 and only a
    returning [write] stores to it.  Whatever the fuel, the call is
    still in that loop. *)
Theorem first_write_never_returns SIZE CAPACITY (contents : nat -> T)
  consumer_sequences nw w fuel value :
  0 <= SIZE <= 2 ^ 30 ->
  ceil_to_power_of_two SIZE = Some CAPACITY ->
  (w < nw)%nat ->
  write CAPACITY fuel (setup CAPACITY contents consumer_sequences nw) w value =
  Spins
    {| _buffer := <[Z.to_nat (1 mod CAPACITY) := value]>
                    (contents <$> seq 0 (Z.to_nat CAPACITY));
       _producer_sequence := 2;
       _available_sequence := 1;
       _readers := consumer_sequences;
       _writers := replicate nw 0 |}.
Proof.
  intros HSIZE Hceil Hw.
  destruct (ceil_to_power_of_two_low SIZE HSIZE) as (k & Hk & Hres & _).
  rewrite Hres in Hceil. injection Hceil as <-.
  pose proof (pow2_pos k (proj1 Hk)) as Hpos.
  pose proof (pow2_le_mono k 30 Hk) as Hle.
  rewrite first_setup_eq. unfold write. simpl.
  rewrite lookup_replicate_2 by assumption.
  assert (Hwrap : to_int64 (1 - to_int64 (capacity (2 ^ k))) = 1 - 2 ^ k).
  { unfold capacity.
    rewrite !to_int64_id; unfold INT64_MIN, INT64_MAX; try lia.
    rewrite to_int64_id; unfold INT64_MIN, INT64_MAX; lia. }
  rewrite Hwrap.
  assert (Hloop : wait_for_no_wrap_loop fuel
            {| _buffer := contents <$> seq 0 (Z.to_nat (2 ^ k));
               _producer_sequence := to_int64 (1 + 1);
               _available_sequence := 1;
               _readers := consumer_sequences;
               _writers := replicate nw 0 |} (1 - 2 ^ k) 0 = Some 0).
  { destruct fuel; simpl; destruct (Z.gtb_spec (1 - 2 ^ k) 0); try lia;
      reflexivity. }
  rewrite Hloop. simpl.
  assert (Hindex : index_from_sequence (2 ^ k) 1 = 1 mod 2 ^ k).
  { unfold index_from_sequence. rewrite mod_power_of_two_mod by lia.
    rewrite to_int_id by (unfold INT_MIN, INT_MAX; lia).
    apply to_size_t_id. pose proof (Z.mod_pos_bound 1 (2 ^ k) Hpos).
    unfold SIZE_MAX. lia. }
  rewrite Hindex.
  rewrite array_store_in_range.
  2:{ rewrite length_fmap, length_seq.
      pose proof (Z.mod_pos_bound 1 (2 ^ k) Hpos). lia. }
  rewrite wait_for_previous_spins.
  - rewrite (list_insert_id (replicate nw 0) w 0)
      by (apply lookup_replicate_2; assumption).
    reflexivity.
  - simpl. rewrite to_int64_id by (unfold INT64_MIN, INT64_MAX; lia). lia.
Qed.

Lemma wait_for_available_ready fuel (q : disruptor_queue T) next :
  next <= _available_sequence q -> wait_for_available fuel q next = true.
Proof.
  intros Hle. destruct fuel; simpl;
    destruct (Z.gtb_spec next (_available_sequence q)); try lia; reflexivity.
Qed.

(** X21: in the first revision a reader does not find a new queue
    empty.  [_available_sequence] starts at 1, so a reader whose
    consumer sequence starts at 0 (what a value-initialised atomic
    holds) or at -1 passes the wait at once and returns a payload
    that no writer has stored: what the default-initialised buffer
    holds in slot 1 or in slot 0. *)
Theorem first_read_returns_unwritten_slot SIZE CAPACITY (contents : nat -> T)
  consumer_sequences nw r c fuel :
  0 <= SIZE <= 2 ^ 30 ->
  ceil_to_power_of_two SIZE = Some CAPACITY ->
  consumer_sequences !! r = Some c ->
  -1 <= c <= 0 ->
  read CAPACITY fuel (setup CAPACITY contents consumer_sequences nw) r =
  Returns
    (contents (Z.to_nat ((c + 1) mod CAPACITY)),
     {| _buffer := contents <$> seq 0 (Z.to_nat CAPACITY);
        _producer_sequence := 1;
        _available_sequence := 1;
        _readers := <[r := c + 1]> consumer_sequences;
        _writers := replicate nw 0 |}).
Proof.
  intros HSIZE Hceil Hr Hc.
  destruct (ceil_to_power_of_two_low SIZE HSIZE) as (k & Hk & Hres & _).
  rewrite Hres in Hceil. injection Hceil as <-.
  pose proof (pow2_pos k (proj1 Hk)) as Hpos.
  pose proof (pow2_le_mono k 30 Hk) as Hle.
  rewrite first_setup_eq. unfold read. simpl. rewrite Hr.
  rewrite (to_int64_id (c + 1)) by (unfold INT64_MIN, INT64_MAX; lia).
  pose proof (Z.mod_pos_bound (c + 1) (2 ^ k) Hpos) as Hmod.
  assert (Hindex : index_from_sequence (2 ^ k) (c + 1) = (c + 1) mod 2 ^ k).
  { unfold index_from_sequence. rewrite mod_power_of_two_mod by lia.
    rewrite to_int_id by (unfold INT_MIN, INT_MAX; lia).
    apply to_size_t_id. unfold SIZE_MAX. lia. }
  rewrite Hindex, to_int_id by (unfold INT_MIN, INT_MAX; lia).
  rewrite wait_for_available_ready by (simpl; lia).
  unfold array_load. destruct (Z.leb_spec 0 ((c + 1) mod 2 ^ k)); [|lia].
  rewrite list_lookup_fmap, lookup_seq_lt by lia. reflexivity.
Qed.

End First.

Lemma first_read_returns_unwritten_slot_witness :
  FirstRevision.read 128 0 (FirstRevision.setup 128 (fun i => Z.of_nat i) [0] 1) 0 =
  FirstRevision.Returns
    ((fun i => Z.of_nat i) (Z.to_nat ((0 + 1) mod 128)),
     {| FirstRevision._buffer := (fun i => Z.of_nat i) <$> seq 0 (Z.to_nat 128);
        FirstRevision._producer_sequence := 1;
        FirstRevision._available_sequence := 1;
        FirstRevision._readers := <[0%nat := 0 + 1]> [0];
        FirstRevision._writers := replicate 1 0 |}).
Proof.
  apply (first_read_returns_unwritten_slot 100 128).
  - lia.
  - vm_compute. reflexivity.
  - reflexivity.
  - lia.
Defined.

Lemma first_write_never_returns_witness :
  FirstRevision.write 128 1000
    (FirstRevision.setup 128 (fun _ => 0) [0] 1) 0 10 =
  FirstRevision.Spins
    {| FirstRevision._buffer :=
         <[Z.to_nat (1 mod 128) := 10]> ((fun _ => 0) <$> seq 0 (Z.to_nat 128));
       FirstRevision._producer_sequence := 2;
       FirstRevision._available_sequence := 1;
       FirstRevision._readers := [0];
       FirstRevision._writers := replicate 1 0 |}.
Proof.
  apply (first_write_never_returns 100 128).
  - lia.
  - vm_compute. reflexivity.
  - lia.
Defined.

(** *** The second revision: [read()] moves the payload out *)

Section Second.
Import Queue Revisions.

Context {T : Type} (CAPACITY : Z) (moved_from : T -> T).


End Second.


End EarlierRevisionFacts.

(** ** The theorems at the concrete runs *)

Module ExampleFacts.
Import Machine Queue Examples SequentialFacts RunningFacts.

Lemma valid_capacity_2 : valid_capacity 2 = true.
Proof. vm_compute. reflexivity. Defined.

Lemma schedule_reachable :
  reachable 0 2 1 1
    {| shared := {| _buffer := [10; 11]; _slot_sequences := [0; 1];
                    _next_sequence := 3; _readers := [0]; _writers := [0] |};
       writer_pcs := [WStore 2 12]; reader_pcs := [RIdle] |}
    [EvRead 0 0 10; EvClaim 0 2 12; EvPublish 0 1 1; EvStore 0 1 1;
     EvClaim 0 1 11; EvPublish 0 0 0; EvStore 0 0 0; EvClaim 0 0 10].
Proof. exists schedule. vm_compute. reflexivity. Defined.

Lemma schedule_reading_reachable :
  reachable 0 2 1 1
    {| shared := {| _buffer := [10; 11]; _slot_sequences := [0; 1];
                    _next_sequence := 3; _readers := [-1]; _writers := [-1] |};
       writer_pcs := [WWrapLoop 2 12]; reader_pcs := [RUpdate 0 10] |}
    [EvClaim 0 2 12; EvPublish 0 1 1; EvStore 0 1 1;
     EvClaim 0 1 11; EvPublish 0 0 0; EvStore 0 0 0; EvClaim 0 0 10].
Proof. exists schedule_reading. vm_compute. reflexivity. Defined.

(** The unit test Simple_Type: capacity 16, write 10, 11, 12, -1, each
    followed by a read. *)
Example simple_type_test :
  fst <$> run 16 1 (setup 0 16 1 1)
            [OpWrite 10; OpRead; OpWrite 11; OpRead; OpWrite 12; OpRead;
             OpWrite (-1); OpRead]
  = Some [10; 11; 12; -1].
Proof. vm_compute. reflexivity. Qed.

(** The unit test Read_to_Reference, with an integer payload: the
    destination holds 11 before the call and 10 afterwards. *)
Example read_to_reference_test :
  fst <$> run 16 1 (setup 0 16 1 1) [OpWrite 10; OpReadInto 11] = Some [10].
Proof. vm_compute. reflexivity. Qed.

(** Capacity 2: after two writes a third one does not return until
    the reader has consumed an item. *)
Example third_write_waits :
  run 2 100 (setup 0 2 1 1) [OpWrite 10; OpWrite 11; OpWrite 12] = None /\
  fst <$> run 2 100 (setup 0 2 1 1) [OpWrite 10; OpWrite 11; OpRead; OpWrite 12]
  = Some [10].
Proof. split; vm_compute; reflexivity. Qed.

Lemma spsc_reads_in_write_order_witness :
  exists delivered q',
    run 2 1 (setup 0 2 1 1) client = Some (delivered, q') /\
    length delivered = read_count client /\
    forall k, (k < read_count client)%nat ->
      exists value, delivered !! k = Some value /\ written client !! k = Some value.
Proof.
  apply (spsc_reads_in_write_order 0 2 valid_capacity_2 1 client).
  - lia.
  - vm_compute. reflexivity.
  - vm_compute. discriminate.
Defined.

Lemma payload_store_respects_readers_witness :
  2 - get_min_consumer_sequence
        {| _buffer := [10; 11]; _slot_sequences := [0; 1];
           _next_sequence := 3; _readers := [0]; _writers := [0] |} <= 2.
Proof.
  refine (proj1 (proj2 (payload_store_respects_readers 0 2 valid_capacity_2
                          1 1 _ _ 0%nat (WStore 2 12) 2 schedule_reachable
                          _ _ _))).
  - vm_compute. discriminate.
  - reflexivity.
  - reflexivity.
Defined.

Lemma reader_consumes_in_claim_order_witness :
  step 2
    {| shared := {| _buffer := [10; 11]; _slot_sequences := [2; 1];
                    _next_sequence := 3; _readers := [-1]; _writers := [0] |};
       writer_pcs := [WIdle]; reader_pcs := [RWait 0 0 None] |}
    (StepReader 0) =
  Some ({| shared := {| _buffer := [10; 11]; _slot_sequences := [2; 1];
                        _next_sequence := 3; _readers := [-1];
                        _writers := [0] |};
           writer_pcs := [WIdle]; reader_pcs := [RWait 0 0 None] |}, []) /\
  (read 2 5
     {| _buffer := [10; 11]; _slot_sequences := [2; 1];
        _next_sequence := 3; _readers := [-1]; _writers := [0] |} 0 = None /\
   forall output,
     read_into 2 5
       {| _buffer := [10; 11]; _slot_sequences := [2; 1];
          _next_sequence := 3; _readers := [-1]; _writers := [0] |} 0 output
     = None) /\
  consumed [EvRead 0 0 10; EvClaim 0 2 12; EvPublish 0 1 1; EvStore 0 1 1;
            EvClaim 0 1 11; EvPublish 0 0 0; EvStore 0 0 0; EvClaim 0 0 10]
    0 = [0] /\
  received [EvRead 0 0 10; EvClaim 0 2 12; EvPublish 0 1 1; EvStore 0 1 1;
            EvClaim 0 1 11; EvPublish 0 0 0; EvStore 0 0 0; EvClaim 0 0 10]
    0 = [10] /\
  step 2
    {| shared := {| _buffer := [10; 11]; _slot_sequences := [0; 1];
                    _next_sequence := 3; _readers := [-1]; _writers := [-1] |};
       writer_pcs := [WWrapLoop 2 12]; reader_pcs := [RUpdate 0 10] |}
    (StepReader 0) =
  Some ({| shared := {| _buffer := [10; 11]; _slot_sequences := [0; 1];
                        _next_sequence := 3; _readers := [0];
                        _writers := [-1] |};
           writer_pcs := [WWrapLoop 2 12]; reader_pcs := [RIdle] |},
        [EvRead 0 0 10]).
Proof.
  destruct (reader_consumes_in_claim_order 0 2 valid_capacity_2)
    as (_ & Hstep & Hread & Hrun).
  split; [|split; [|split; [|split]]].
  - exact (Hstep
             {| shared := {| _buffer := [10; 11]; _slot_sequences := [2; 1];
                             _next_sequence := 3; _readers := [-1];
                             _writers := [0] |};
                writer_pcs := [WIdle]; reader_pcs := [RWait 0 0 None] |}
             0%nat (-1) 0 0 None 2 eq_refl eq_refl eq_refl).
  - refine (proj1 (Hread 5%nat
                     {| _buffer := [10; 11]; _slot_sequences := [2; 1];
                        _next_sequence := 3; _readers := [-1];
                        _writers := [0] |}
                     0%nat (-1) 2 eq_refl eq_refl) _).
    vm_compute. discriminate.
  - refine (proj1 (Hrun 1%nat 1%nat _ _ 0%nat 0 schedule_reachable _ _)).
    + vm_compute. discriminate.
    + reflexivity.
  - refine (proj1 (proj2 (Hrun 1%nat 1%nat _ _ 0%nat 0 schedule_reachable
                            _ _))).
    + vm_compute. discriminate.
    + reflexivity.
  - refine (proj2 (proj2 (proj2 (proj2 (proj2
              (Hrun 1%nat 1%nat _ _ 0%nat (-1) schedule_reading_reachable
                 _ _)))) 0 10 eq_refl)).
    + vm_compute. discriminate.
    + reflexivity.
Defined.

Lemma slot_sequence_is_last_publication_witness :
  exists stamp,
    ([0; 1] : list Z) !! 1%nat = Some stamp /\ stamp = 1 /\ stamp mod 2 = 1.
Proof.
  destruct (slot_sequence_is_last_publication 0 2 valid_capacity_2 1 1 _ _
              1%nat schedule_reachable) as (_ & stamp & H1 & H2 & H3 & _).
  - vm_compute. lia.
  - exists stamp. split; [exact H1|]. split; [exact H2|].
    rewrite H2. exact H3.
Defined.

Lemma next_sequence_counts_claims_witness :
  (3 : Z) = claims [EvRead 0 0 10; EvClaim 0 2 12; EvPublish 0 1 1;
                    EvStore 0 1 1; EvClaim 0 1 11; EvPublish 0 0 0;
                    EvStore 0 0 0; EvClaim 0 0 (10 : Z)].
Proof.
  refine (proj1 (next_sequence_counts_claims 0 2 valid_capacity_2 1 1 _ _
                   schedule_reachable _)).
  vm_compute. discriminate.
Defined.

Lemma cached_minimum_is_lower_bound_witness :
  0 <= get_min_consumer_sequence
         {| _buffer := [10; 11]; _slot_sequences := [0; 1];
            _next_sequence := 3; _readers := [0]; _writers := [0] |}.
Proof.
  refine (proj1 (cached_minimum_is_lower_bound 0 2 valid_capacity_2 1 1 _ _
                   0%nat 0 schedule_reachable _ _)).
  - vm_compute. discriminate.
  - reflexivity.
Defined.

Lemma read_advances_own_sequence_only_witness :
  read_effect
    {| _buffer := [10; 11]; _slot_sequences := [0; 1];
       _next_sequence := 3; _readers := [-1]; _writers := [-1] |}
    0
    {| _buffer := [10; 11]; _slot_sequences := [0; 1];
       _next_sequence := 3; _readers := [0]; _writers := [-1] |}.
Proof.
  refine (proj1 (read_advances_own_sequence_only 0 2 valid_capacity_2 1 1 _ _
                   0%nat schedule_reading_reachable _) 0%nat 10 _ _).
  - vm_compute. discriminate.
  - left. vm_compute. reflexivity.
Defined.

End ExampleFacts.

(** ** The concrete runs once more *)

Module ScenarioFacts.
Import Machine Queue Examples Scenarios Transitions Calls.
Import SequentialFacts RunningFacts ExampleFacts.
Import SafetyFacts ProgressFacts CallFacts.

Lemma two_writers_reachable :
  reachable 0 2 1 2
    {| shared := {| _buffer := [0; 0]; _slot_sequences := [-1; -1];
                    _next_sequence := 2; _readers := [-1];
                    _writers := [-1; -1] |};
       writer_pcs := [WStore 0 10; WStore 1 11]; reader_pcs := [RIdle] |}
    [EvClaim 1 1 11; EvClaim 0 0 10].
Proof. exists two_writers. vm_compute. reflexivity. Defined.

Lemma payload_accesses_never_conflict_witness :
  index_from_sequence 2 0 <> index_from_sequence 2 1.
Proof.
  refine (proj1 (payload_accesses_never_conflict 0 2 valid_capacity_2 1 2 _ _
                   two_writers_reachable _) 0%nat 1%nat 0 10 1 11 _ _ _ _).
  - vm_compute. discriminate.
  - simpl. discriminate.
  - discriminate.
  - reflexivity.
  - reflexivity.
Defined.

Lemma ring_holds_latest_items_witness :
  ([0; 1] : list Z) !! Z.to_nat (1 mod 2) = Some 1 /\
  exists v,
    ([10; 11] : list Z) !! Z.to_nat (1 mod 2) = Some v /\
    claimed_values
      [EvRead 0 0 10; EvClaim 0 2 12; EvPublish 0 1 1; EvStore 0 1 1;
       EvClaim 0 1 11; EvPublish 0 0 0; EvStore 0 0 0; EvClaim 0 0 10]
      !! Z.to_nat 1 = Some v.
Proof.
  refine (proj1 (ring_holds_latest_items 0 2 valid_capacity_2 1 1 _ _
                   schedule_reachable _) 1 _ _ _).
  - vm_compute. discriminate.
  - simpl. discriminate.
  - reflexivity.
  - vm_compute. discriminate.
Defined.

Lemma claimed_sequences_are_published_or_held_witness :
  exists w pc,
    [WStore 2 (12 : Z)] !! w = Some pc /\ claimed_of pc = Some 2 /\
    forall w' pc', [WStore 2 (12 : Z)] !! w' = Some pc' ->
                   claimed_of pc' = Some 2 -> w' = w.
Proof.
  refine (proj1 (claimed_sequences_are_published_or_held 0 2 valid_capacity_2
                   1 1 _ _ schedule_reachable _) 2 _ _).
  - vm_compute. discriminate.
  - vm_compute. split; [discriminate|reflexivity].
  - reflexivity.
Defined.

Lemma sequences_only_advance_witness :
  3 <= 3 <= 3 + 1.
Proof.
  refine (proj1 (sequences_only_advance 0 2 valid_capacity_2 1 1 _ _
                   (StepWriter 0)
                   {| shared := {| _buffer := [12; 11]; _slot_sequences := [0; 1];
                                   _next_sequence := 3; _readers := [0];
                                   _writers := [0] |};
                      writer_pcs := [WCommit 2 0]; reader_pcs := [RIdle] |}
                   [EvStore 0 2 0] schedule_reachable _ _)).
  - reflexivity.
  - vm_compute. discriminate.
Defined.

Lemma published_item_is_delivered_witness :
  exists v,
    claimed_values
      [EvRead 0 0 10; EvClaim 0 2 12; EvPublish 0 1 1; EvStore 0 1 1;
       EvClaim 0 1 11; EvPublish 0 0 0; EvStore 0 0 0; EvClaim 0 0 10]
      !! Z.to_nat (0 + 1) = Some v /\ v = 11.
Proof.
  destruct (proj1 (published_item_is_delivered 0 2 valid_capacity_2 1 1 _ _
                     0%nat 0 None schedule_reachable
                     ltac:(vm_compute; discriminate) eq_refl eq_refl) eq_refl)
    as (v & Hv & _).
  exists v. split; [exact Hv|]. vm_compute in Hv. congruence.
Defined.

Lemma writer_finishes_alone_iff_room_witness :
  writer_can_finish 2
    {| shared := {| _buffer := [10; 11]; _slot_sequences := [0; 1];
                    _next_sequence := 3; _readers := [-1]; _writers := [-1] |};
       writer_pcs := [WWrapLoop 2 12]; reader_pcs := [RUpdate 0 10] |}
    [EvClaim 0 2 12; EvPublish 0 1 1; EvStore 0 1 1;
     EvClaim 0 1 11; EvPublish 0 0 0; EvStore 0 0 0; EvClaim 0 0 10] 0 <->
  storing (WWrapLoop 2 (12 : Z)) = Some 2 \/
  forall r c, ([-1] : list Z) !! r = Some c -> 2 - 2 <= c.
Proof.
  refine (writer_finishes_alone_iff_room 0 2 valid_capacity_2 1 1 _ _ 0%nat
            (WWrapLoop 2 12) 2 schedule_reading_reachable _ _ _).
  - vm_compute. discriminate.
  - reflexivity.
  - reflexivity.
Defined.

Lemma some_thread_can_finish_witness :
  (exists w pc,
     [WWrapLoop 2 (12 : Z)] !! w = Some pc /\ writer_busy pc = true /\
     writer_can_finish 2
       {| shared := {| _buffer := [10; 11]; _slot_sequences := [0; 1];
                       _next_sequence := 3; _readers := [-1];
                       _writers := [-1] |};
          writer_pcs := [WWrapLoop 2 12]; reader_pcs := [RUpdate 0 10] |}
       [EvClaim 0 2 12; EvPublish 0 1 1; EvStore 0 1 1;
        EvClaim 0 1 11; EvPublish 0 0 0; EvStore 0 0 0; EvClaim 0 0 10] w) \/
  (exists r pc,
     [RUpdate 0 (10 : Z)] !! r = Some pc /\ reader_busy pc = true /\
     reader_can_finish 2
       {| shared := {| _buffer := [10; 11]; _slot_sequences := [0; 1];
                       _next_sequence := 3; _readers := [-1];
                       _writers := [-1] |};
          writer_pcs := [WWrapLoop 2 12]; reader_pcs := [RUpdate 0 10] |}
       [EvClaim 0 2 12; EvPublish 0 1 1; EvStore 0 1 1;
        EvClaim 0 1 11; EvPublish 0 0 0; EvStore 0 0 0; EvClaim 0 0 10] r) \/
  ((forall w pc, [WWrapLoop 2 (12 : Z)] !! w = Some pc -> pc = WIdle) /\
   (forall r c, ([-1] : list Z) !! r = Some c -> c + 1 = 3)).
Proof.
  refine (some_thread_can_finish 0 2 valid_capacity_2 1 1 _ _
            schedule_reading_reachable _ _ _).
  - vm_compute. discriminate.
  - simpl. discriminate.
  - intros [|r] pc H; simpl in H; [injection H as <-; reflexivity|discriminate].
Defined.

Lemma every_step_is_defined_witness :
  is_Some
    (step 2
       {| shared := {| _buffer := [10; 11]; _slot_sequences := [0; 1];
                       _next_sequence := 3; _readers := [0]; _writers := [0] |};
          writer_pcs := [WStore 2 12]; reader_pcs := [RIdle] |}
       (StepWriter 0)).
Proof.
  refine (proj1 (every_step_is_defined 0 2 valid_capacity_2 1 1 _ _
                   schedule_reachable _) 0%nat (WStore 2 12) _).
  - vm_compute. discriminate.
  - reflexivity.
Defined.

Lemma two_written_reachable :
  reachable 0 2 1 1
    {| shared := {| _buffer := [10; 11]; _slot_sequences := [0; 1];
                    _next_sequence := 2; _readers := [-1]; _writers := [-1] |};
       writer_pcs := [WIdle]; reader_pcs := [RIdle] |}
    [EvPublish 0 1 1; EvStore 0 1 1; EvClaim 0 1 11;
     EvPublish 0 0 0; EvStore 0 0 0; EvClaim 0 0 10].
Proof. exists two_written. vm_compute. reflexivity. Defined.

Lemma reader_drains_the_ring_witness :
  exists σ' tr',
    exec 2
      {| shared := {| _buffer := [10; 11]; _slot_sequences := [0; 1];
                      _next_sequence := 2; _readers := [-1];
                      _writers := [-1] |};
         writer_pcs := [WIdle]; reader_pcs := [RIdle] |}
      [EvPublish 0 1 1; EvStore 0 1 1; EvClaim 0 1 11;
       EvPublish 0 0 0; EvStore 0 0 0; EvClaim 0 0 10]
      (reads_alone 0
         (Z.to_nat
            (claims [EvPublish 0 1 1; EvStore 0 1 1; EvClaim 0 1 11;
                     EvPublish 0 0 0; EvStore 0 0 0; EvClaim 0 0 (10 : Z)]
             - 1 - -1))) = Some (σ', tr') /\
    received tr' 0 =
      claimed_values [EvPublish 0 1 1; EvStore 0 1 1; EvClaim 0 1 11;
                      EvPublish 0 0 0; EvStore 0 0 0; EvClaim 0 0 10] /\
    reader_pcs σ' !! 0%nat = Some RIdle /\
    _readers (shared σ') !! 0%nat = Some (2 - 1).
Proof.
  refine (reader_drains_the_ring 0 2 valid_capacity_2 1 1 _ _ 0%nat (-1)
            two_written_reachable _ _ _ _).
  - vm_compute. discriminate.
  - intros [|w] pc H; simpl in H; [injection H as <-; reflexivity|discriminate].
  - reflexivity.
  - reflexivity.
Defined.

Lemma in_traffic_well_formed : well_formed 2 in_traffic.
Proof.
  unfold well_formed, in_traffic, INT64_MAX. simpl.
  split; [reflexivity|]. split; [reflexivity|]. lia.
Defined.

Lemma write_returns_iff_room_witness :
  write 2 1 in_traffic 0 12 =
  Some (after_write 2 in_traffic 0 12 (get_min_consumer_sequence in_traffic)).
Proof.
  refine (proj1 (proj2 (write_returns_iff_room 2 valid_capacity_2 1 in_traffic
                          0%nat (-1) 12 in_traffic_well_formed eq_refl)) _ _ _).
  - simpl. lia.
  - vm_compute. discriminate.
  - lia.
Defined.

Lemma writes_without_readers_overwrite_witness :
  exists q',
    run 2 1 (setup 0 2 0 1) (OpWrite <$> [1; 2; 3]) = Some ([], q') /\
    _next_sequence q' = Z.of_nat (length [1; 2; 3]) /\
    forall s,
      0 <= s ->
      Z.of_nat (length [1; 2; 3]) - 2 <= s < Z.of_nat (length [1; 2; 3]) ->
      _slot_sequences q' !! Z.to_nat (s mod 2) = Some s /\
      _buffer q' !! Z.to_nat (s mod 2) = [1; 2; 3] !! Z.to_nat s.
Proof.
  refine (writes_without_readers_overwrite 0 2 valid_capacity_2 1 [1; 2; 3] _ _).
  - lia.
  - vm_compute. discriminate.
Defined.

Lemma ring_takes_exactly_capacity_witness :
  exists q',
    run 2 1 (setup 0 2 1 1) (OpWrite <$> [1; 2]) = Some ([], q') /\
    (forall fuel', write 2 fuel' q' 0 3 = None) /\
    exists q'',
      run 2 1 q' (replicate (length [1; 2]) OpRead) = Some ([1; 2], q'').
Proof.
  refine (ring_takes_exactly_capacity 0 2 valid_capacity_2 1 [1; 2] 3 _ _).
  - lia.
  - reflexivity.
Defined.

Lemma emplaced_payload_is_read_back_witness :
  exists q1 q2,
    write_emplace 2 (fun args : Z * Z => fst args + snd args) 1
      {| _buffer := [1; 0]; _slot_sequences := [0; -1]; _next_sequence := 1;
         _readers := [0]; _writers := [-1] |} 0 (2, 3) = Some q1 /\
    read 2 1 q1 0 = Some (5, q2).
Proof.
  refine (proj2 (emplaced_payload_is_read_back 0 2 valid_capacity_2
                   (fun args : Z * Z => fst args + snd args) 1
                   [OpWrite 1; OpRead] [1] _ (2, 3) _ _ _ _ _)).
  - lia.
  - reflexivity.
  - vm_compute. reflexivity.
  - vm_compute. reflexivity.
  - reflexivity.
Defined.

Lemma late_reader_misses_the_start_witness :
  fst (create_reader
         {| _buffer := [3; 2]; _slot_sequences := [2; 1]; _next_sequence := 3;
            _readers := [1]; _writers := [1] |}) = 1%nat /\
  (2 < Z.of_nat (length (written three_items)) ->
   forall fuel',
     read 2 fuel'
       (snd (create_reader
               {| _buffer := [3; 2]; _slot_sequences := [2; 1];
                  _next_sequence := 3; _readers := [1]; _writers := [1] |}))
       1 = None) /\
  (forall first,
     written three_items !! 0%nat = Some first ->
     Z.of_nat (length (written three_items)) <= 2 ->
     forall fuel', exists q',
       read 2 fuel'
         (snd (create_reader
                 {| _buffer := [3; 2]; _slot_sequences := [2; 1];
                    _next_sequence := 3; _readers := [1]; _writers := [1] |}))
         1 = Some (first, q')).
Proof.
  refine (late_reader_misses_the_start 0 2 valid_capacity_2 2 three_items
            [1; 2] _ _ _).
  - vm_compute. reflexivity.
  - vm_compute. discriminate.
Defined.

End ScenarioFacts.
